(** * markdown-editor: the WYSIWYG editor core, the placeholder plugin and
      the image helpers, embedded in Rocq.

    Sources embedded here:
    - [src/core/Editor.ts]: [WysiwygEditor] (constructor, [dispatchTransaction],
      [tryOnChange], [isEmpty]);
    - the placeholder extension ([getPlaceholderWidgetSpecs], [addDecoration],
      [placeholderNeeded], [initState], [applyState], and the props
      [attributes] and [decorations] of its plugin);
    - the image helpers ([getImageSize], [getImageSizeNew], [loadImage],
      [createImageNode]).

    Third-party libraries (prosemirror-model, prosemirror-view,
    prosemirror-utils) are embedded as far as the code above reads them.
    JavaScript numbers that hold document positions and sizes are embedded as
    [nat]: they are integers far below 2^53 there. *)

From Stdlib Require Import DecimalString DecimalNat.
From Stdlib Require DecimalFacts.
From stdpp Require Import gmap strings list fin_maps sorting.

(** * prosemirror-model: node types and document trees *)

Module PM.

(** A [PluginKey] is an object compared by reference; its unique key string
    stands for the reference. *)
Definition PluginKey := string.

(** [NodeSpec.placeholder], as declared at the end of the placeholder
    extension.  The [content] field is read by [getPlaceholderContent] only
    and is left to that function. *)
Record PlaceholderSpec := {
  customPlugin : option PluginKey;
  alwaysVisible : bool   (* [undefined] reads as [false] *)
}.

Record NodeSpec := { placeholder : option PlaceholderSpec }.

Record NodeType := {
  name : string;
  isText : bool;
  isLeaf : bool;
  spec : NodeSpec
}.

#[warning="-register-all"]
Inductive Node := mkNode {
  type : NodeType;
  content : list Node;
  text : string
}.

Definition childCount (n : Node) : nat := length (content n).

(** [Fragment.firstChild]: [content.length ? content[0] : null]. *)
Definition firstChild (n : Node) : option Node := head (content n).

(** [Node.nodeSize]: the text length for a text node, 1 for another leaf,
    [2 + content.size] otherwise. *)
Fixpoint nodeSize (n : Node) : nat :=
  match n with
  | mkNode t c s =>
      if isText t then String.length s
      else if isLeaf t then 1
      else 2 + list_sum (map nodeSize c)
  end.

(** [Fragment.size]. *)
Definition Fragment_size (c : list Node) : nat := list_sum (map nodeSize c).

#[global] Instance PlaceholderSpec_eq_dec : EqDecision PlaceholderSpec.
Proof. solve_decision. Defined.
#[global] Instance NodeSpec_eq_dec : EqDecision NodeSpec.
Proof. solve_decision. Defined.
#[global] Instance NodeType_eq_dec : EqDecision NodeType.
Proof. solve_decision. Defined.

(** [node.eq(other)]: the same markup (here the type), the same text and
    equal children, one by one. *)
Fixpoint Node_eq (a b : Node) : bool :=
  match a, b with
  | mkNode ta ca sa, mkNode tb cb sb =>
      bool_decide (ta = tb) && String.eqb sa sb
      && (fix children_eq (xs ys : list Node) : bool :=
            match xs, ys with
            | [], [] => true
            | x :: xs', y :: ys' => Node_eq x y && children_eq xs' ys'
            | _, _ => false
            end) ca cb
  end.

(** One call of the callback of [Node.descendants]: the node, its position
    and its parent. *)
Record Visit := { v_node : Node; v_pos : nat; v_parent : Node }.

(** [node.nodesBetween(0, node.content.size, f, startPos)] for a callback
    [f] that never returns [false]: the calls of [f], in order.
    [Fragment.nodesBetween] runs [for (i = 0, pos = 0; pos < to; i++)], calls
    [f] on a child when [end > from] and descends when the child's
    [content.size] is not 0. *)
Fixpoint nodesBetween (n : Node) (startPos : nat) : list Visit :=
  match n with
  | mkNode _ c _ =>
      let to := Fragment_size c in
      (fix loop (cs : list Node) (pos : nat) : list Visit :=
         match cs with
         | [] => []
         | child :: rest =>
             if pos <? to then
               let end_ := pos + nodeSize child in
               (if 0 <? end_ then
                  {| v_node := child; v_pos := startPos + pos; v_parent := n |}
                  :: (if Fragment_size (content child) =? 0 then []
                      else nodesBetween child (startPos + pos + 1))
                else [])
               ++ loop rest end_
             else []
         end) c 0
  end.

(** [node.descendants(f)] is [node.nodesBetween(0, node.content.size, f)]. *)
Definition descendants (n : Node) : list Visit := nodesBetween n 0.

End PM.

(** * prosemirror-state and prosemirror-view, as far as the sources use them *)

Module PMState.
Import PM.

(** One level of [ResolvedPos.path], which stores the triples
    [node, index, offset] flat. *)
Record PathEntry := { pe_node : Node; pe_index : nat; pe_offset : nat }.

Record ResolvedPos := { rp_pos : nat; rp_path : list PathEntry }.

(** [depth = path.length / 3 - 1]. *)
Definition rp_depth (rp : ResolvedPos) : nat := length (rp_path rp) - 1.

(** [$pos.node(d) = path[d * 3]]. *)
Definition rp_node (rp : ResolvedPos) (d : nat) : option Node :=
  pe_node <$> rp_path rp !! d.

(** [$pos.before(d) = path[d * 3 - 1]] for [1 <= d <= depth]. *)
Definition rp_before (rp : ResolvedPos) (d : nat) : nat :=
  default 0 (pe_offset <$> rp_path rp !! (d - 1)).

(** [$pos.start(d) = d == 0 ? 0 : path[d * 3 - 1] + 1]. *)
Definition rp_start (rp : ResolvedPos) (d : nat) : nat :=
  match d with 0 => 0 | _ => rp_before rp d + 1 end.

(** A selection: [$from], and [$cursor] (a [TextSelection] has one when it
    is empty). *)
Record Selection := {
  sel_from : ResolvedPos;
  sel_cursor : option ResolvedPos
}.

(** [schema.nodes]: an object from type names to node types, in insertion
    order. *)
Record Schema := { schema_nodes : list (string * NodeType) }.

(** The [spec] of a decoration owned by a custom placeholder plugin; the
    placeholder extension reads its [pos] only. *)
Record CustomSpec := { cs_pos : nat }.

Record EditorState := {
  doc : Node;
  selection : Selection;
  schema : Schema;
  (** [key.getState(state)] for the plugin keys that own a [DecorationSet];
      the set is given by the specs that [find] enumerates. *)
  getState : PluginKey -> option (list CustomSpec)
}.

(** [mapping.mapResult(pos, assoc)]. *)
Record MapResult := { mr_pos : nat; mr_deleted : bool }.

Record Transaction := {
  (** [tr.mapping.mapResult(pos, 1)]: a widget without [side] maps with
      [assoc = 1]. *)
  tr_mapResult : nat -> MapResult;
  (** [tr.before]: the document that the transaction was made for. *)
  tr_before : Node;
  tr_doc : Node;
  docChanged : bool
}.

End PMState.

(** * prosemirror-utils *)

Module PMUtils.
Import PM PMState.

(** [findChildren(node, predicate)]: [flatten(node)] collects every call of
    [node.descendants], then filters by the predicate on the node. *)
Definition findChildren (node : Node) (predicate : Node -> bool) : list Visit :=
  filter (fun v => predicate (v_node v) = true) (descendants node).

Record ParentNode := {
  pn_pos : nat; pn_start : nat; pn_depth : nat; pn_node : Node
}.

(** [for (let i = $pos.depth; i > 0; i--) { const node = $pos.node(i);
    if (predicate(node)) return {pos: $pos.before(i), start: $pos.start(i),
    depth: i, node} }]. *)
Fixpoint findParent_from (rp : ResolvedPos) (predicate : Node -> bool)
    (i : nat) : option ParentNode :=
  match i with
  | 0 => None
  | S j =>
      match rp_node rp i with
      | Some node =>
          if predicate node
          then Some {| pn_pos := rp_before rp i; pn_start := rp_start rp i;
                       pn_depth := i; pn_node := node |}
          else findParent_from rp predicate j
      | None => findParent_from rp predicate j
      end
  end.

Definition findParentNodeClosestToPos (rp : ResolvedPos)
    (predicate : Node -> bool) : option ParentNode :=
  findParent_from rp predicate (rp_depth rp).

End PMUtils.

(** * The placeholder extension *)

Module Placeholder.
Import PM PMState PMUtils.

(** The element that [createPlaceholder] builds: a [div] holding a cursor
    [span] and a text [span].  Each [document.createElement] yields a new
    object; the three references are numbers taken from an allocation
    counter. *)
Record PlaceholderDOM := {
  dom_ref : nat;
  dom_focus : bool;          (* [className = b({focus})] *)
  dom_cursor_ref : nat;
  dom_text_ref : nat;
  dom_textContent : string
}.

(** [spec: {focus}] of a placeholder widget. *)
Record FocusSpec := { focus : bool }.

(** [type WidgetSpec = {pos, toDOM, spec?}]; [addDecoration], its only
    producer, always sets [spec]. *)
Record WidgetSpec := {
  pos : nat;
  toDOM : PlaceholderDOM;
  wspec : FocusSpec
}.

(** prosemirror-view: a widget decoration is [new Decoration(pos, pos,
    new WidgetType(toDOM, spec))].  [DecorationSet.find] and
    [DecorationSet.map] hand out fresh [Decoration] wrappers around the
    same [WidgetType]; what persists, and what the view compares to reuse
    a rendered widget, is the widget type: the [toDOM] reference and the
    spec.  [Decoration.eq] is equality of [from], [to] and that. *)
Record Decoration := {
  from : nat;
  to : nat;
  d_toDOM : PlaceholderDOM;
  d_spec : FocusSpec
}.

Definition Decoration_widget (pos : nat) (toDOM : PlaceholderDOM)
    (spec : FocusSpec) : Decoration :=
  {| from := pos; to := pos; d_toDOM := toDOM; d_spec := spec |}.

#[global] Instance PlaceholderDOM_eq_dec : EqDecision PlaceholderDOM.
Proof. solve_decision. Defined.
#[global] Instance FocusSpec_eq_dec : EqDecision FocusSpec.
Proof. solve_decision. Defined.
#[global] Instance Decoration_eq_dec : EqDecision Decoration.
Proof. solve_decision. Defined.

(** A [DecorationSet] is given by the decorations that [find()]
    enumerates, in the order of the enumeration. *)
Definition DecorationSet := list Decoration.

Definition DecorationSet_create (_doc : Node) (decorations : list Decoration)
    : DecorationSet := decorations.

(** [set.find(start, end)]: the decorations with [from <= end] and
    [to >= start]. *)
Definition DecorationSet_find (set : DecorationSet) (start end_ : nat)
    : list Decoration :=
  filter (fun d => from d <= end_ /\ start <= to d) set.

(** [set.find()]. *)
Definition DecorationSet_find_all (set : DecorationSet) : list Decoration := set.

(** [set.map(mapping, doc)]: a widget whose position was deleted is
    dropped, another one moves to the mapped position and keeps its widget
    type. *)
Definition Decoration_map (mapResult : nat -> MapResult) (d : Decoration)
    : option Decoration :=
  let r := mapResult (from d) in
  if mr_deleted r then None
  else Some {| from := mr_pos r; to := mr_pos r;
               d_toDOM := d_toDOM d; d_spec := d_spec d |}.

Definition DecorationSet_map (set : DecorationSet)
    (mapResult : nat -> MapResult) (_doc : Node) : DecorationSet :=
  omap (Decoration_map mapResult) set.

(** [set.remove(decorations)]: drops the members that are [eq] to one of
    [decorations]. *)
Definition DecorationSet_remove (set : DecorationSet)
    (decorations : list Decoration) : DecorationSet :=
  filter (fun d => d ∉ decorations) set.

(** [set.add(doc, decorations)]. *)
Definition DecorationSet_add (set : DecorationSet) (_doc : Node)
    (decorations : list Decoration) : DecorationSet :=
  set ++ decorations.

(** [type WidgetsMap = Record<number, WidgetSpec | PluginKey>]. *)
Abbreviation WidgetsMap := (gmap nat (WidgetSpec + PluginKey)).

(** [Object.values] of an object with integer keys enumerates in ascending
    key order. *)
Definition key_le (a b : nat * (WidgetSpec + PluginKey)) : Prop := a.1 <= b.1.

#[global] Instance key_le_dec : RelDecision key_le.
Proof. intros a b. unfold key_le. apply _. Defined.

Definition Object_values (m : WidgetsMap) : list (WidgetSpec + PluginKey) :=
  (merge_sort key_le (map_to_list m)).*2.

(** The helpers that the extension imports from [utils/nodes],
    [utils/placeholder] and [utils/selection]; these files are not among
    the sources. *)
Class Utils := {
  isNodeEmpty : Node -> bool;
  (** [getPlaceholderContent(node, parent)]; [None] is [null]. *)
  getPlaceholderContent : Node -> option Node -> option string;
  isTextSelection : Selection -> bool
}.

(** The state that [getPlaceholderWidgetSpecs] threads through its
    callbacks: the widgets map, [globalState.hasFocus], and the allocation
    counter of the DOM. *)
Record DecoState := {
  widgetsMap : WidgetsMap;
  hasFocus : bool;
  heap : nat
}.

(** Every widget spec of the map sits under its own position. *)
Definition keyed (m : WidgetsMap) : Prop :=
  forall k w, m !! k = Some (inl w) -> pos w = k.

(** Every DOM element of the widget specs was created by this run: its
    reference is not below the allocation counter at the start. *)
Definition fresh (h0 : nat) (st : DecoState) : Prop :=
  h0 <= heap st
  /\ forall k w, widgetsMap st !! k = Some (inl w) ->
       h0 <= dom_ref (toDOM w) /\ dom_ref (toDOM w) < heap st.

Section WithUtils.
Context {utils : Utils}.

(** [getPlaceholderPluginKeys]: the [customPlugin] of every node type of
    the schema that has one. *)
Definition getPlaceholderPluginKeys (schema : Schema) : list PluginKey :=
  omap (fun '(_, nt) =>
          match placeholder (spec nt) with
          | Some ps => customPlugin ps
          | None => None
          end) (schema_nodes schema).

(** [createPlaceholder]: [null] when the content is falsy ([null] or the
    empty string), else three new elements. *)
Definition createPlaceholder (node : Node) (parent : option Node)
    (focus : bool) (heap : nat) : option PlaceholderDOM * nat :=
  match getPlaceholderContent node parent with
  | None => (None, heap)
  | Some content =>
      if decide (content = ""%string) then (None, heap)
      else (Some {| dom_ref := heap; dom_focus := focus;
                    dom_cursor_ref := heap + 1; dom_text_ref := heap + 2;
                    dom_textContent := content |}, heap + 3)
  end.

Definition has_alwaysVisible (n : Node) : bool :=
  match placeholder (spec (type n)) with
  | Some ps => alwaysVisible ps
  | None => false
  end.

(** [isNodeEmpty(node) && !childrenWithPlaceholderVisible.length]. *)
Definition placeholderNeeded (node : Node) : bool :=
  let childrenWithPlaceholderVisible := findChildren node has_alwaysVisible in
  isNodeEmpty node
  && negb (bool_decide (length childrenWithPlaceholderVisible ≠ 0)).

Definition addDecoration (st : DecoState) (node : Node) (pos : nat)
    (parent : option Node) (cursorPos : option nat) : DecoState :=
  let placeholderSpec := placeholder (spec (type node)) in
  let decorationPosition := pos + childCount node + 1 in
  match placeholderSpec with
  | None => st
  | Some placeholderSpec =>
      if bool_decide (is_Some (widgetsMap st !! decorationPosition)) then st
      else
        match customPlugin placeholderSpec with
        | Some key =>
            {| widgetsMap := <[decorationPosition := inr key]> (widgetsMap st);
               hasFocus := hasFocus st; heap := heap st |}
        | None =>
            let focus := bool_decide (cursorPos = Some decorationPosition) in
            match createPlaceholder node parent focus (heap st) with
            | (None, heap') =>
                {| widgetsMap := widgetsMap st; hasFocus := hasFocus st;
                   heap := heap' |}
            | (Some placeholderDOM, heap') =>
                {| widgetsMap :=
                     <[decorationPosition :=
                         inl {| pos := decorationPosition;
                                toDOM := placeholderDOM;
                                wspec := {| focus := focus |} |}]>
                       (widgetsMap st);
                   hasFocus := if focus then true else hasFocus st;
                   heap := heap' |}
            end
        end
  end.

(** The callback of the first loop: [f.getState(state)?.find(undefined,
    undefined, (spec) => { widgetsMap[spec.pos] = f; return false })]. *)
Definition recordCustom (state : EditorState) (m : WidgetsMap)
    (f : PluginKey) : WidgetsMap :=
  match getState state f with
  | Some specs => foldl (fun m spec => <[cs_pos spec := inr f]> m) m specs
  | None => m
  end.

(** [decorate]: the callback given to [state.doc.descendants]. *)
Definition decorate (cursorPos : option nat) (st : DecoState) (v : Visit)
    : DecoState :=
  let node := v_node v in
  match placeholder (spec (type node)) with
  | Some placeholderSpec =>
      if alwaysVisible placeholderSpec && placeholderNeeded node
      then addDecoration st node (v_pos v) (Some (v_parent v)) cursorPos
      else st
  | None => st
  end.

(** The last step: the placeholder at the cursor's closest ancestor that
    has one, unless it is always visible. *)
Definition decorateCursorParent (state : EditorState)
    (cursorPos : option nat) (st : DecoState) : DecoState :=
  let parentNode :=
    findParentNodeClosestToPos (sel_from (selection state))
      (fun node => bool_decide (is_Some (placeholder (spec (type node))))) in
  match parentNode with
  | Some parentNode =>
      match placeholder (spec (type (pn_node parentNode))) with
      | Some placeholderSpec =>
          if placeholderNeeded (pn_node parentNode)
             && negb (alwaysVisible placeholderSpec)
          then
            let parent :=
              if bool_decide (0 < pn_depth parentNode)
              then rp_node (sel_from (selection state)) (pn_depth parentNode - 1)
              else None in
            addDecoration st (pn_node parentNode) (pn_pos parentNode)
              parent cursorPos
          else st
      | None => st
      end
  | None => st
  end.

(** The widgets map at the end of [getPlaceholderWidgetSpecs]. *)
Definition placeholderDecoState (state : EditorState) (heap0 : nat) : DecoState :=
  let cursorPos :=
    if isTextSelection (selection state)
    then rp_pos <$> sel_cursor (selection state)
    else None in
  let m0 := foldl (recordCustom state) ∅ (getPlaceholderPluginKeys (schema state)) in
  let st0 := {| widgetsMap := m0; hasFocus := false; heap := heap0 |} in
  let st1 := foldl (decorate cursorPos) st0 (descendants (doc state)) in
  decorateCursorParent state cursorPos st1.

(** [Object.values(widgetsMap).filter((d) => !(d instanceof PluginKey))]. *)
Definition widgetSpecs_of (m : WidgetsMap) : list WidgetSpec :=
  omap (fun v => match v with inl w => Some w | inr _ => None end)
       (Object_values m).

(** [getPlaceholderWidgetSpecs]: [{widgetSpecs, hasFocus}], and the
    allocation counter after the call. *)
Definition getPlaceholderWidgetSpecs (state : EditorState) (heap0 : nat)
    : list WidgetSpec * bool * nat :=
  let st := placeholderDecoState state heap0 in
  (widgetSpecs_of (widgetsMap st), hasFocus st, heap st).

Record PlaceholderPluginState := {
  decorationSet : DecorationSet;
  ps_hasFocus : bool
}.

Definition initState (state : EditorState) (heap0 : nat)
    : PlaceholderPluginState * nat :=
  let '(widgetSpecs, hasFocus, heap1) := getPlaceholderWidgetSpecs state heap0 in
  let decorationSet :=
    DecorationSet_create (doc state)
      ((fun widget => Decoration_widget (pos widget) (toDOM widget) (wspec widget))
         <$> widgetSpecs) in
  ({| decorationSet := decorationSet; ps_hasFocus := hasFocus |}, heap1).

(** [decorationsThatDidNotChange]: the [reduce] over [widgetSpecs]. *)
Definition decorationsThatDidNotChange (oldMappedSet : DecorationSet)
    (widgetSpecs : list WidgetSpec) : list Decoration :=
  foldl (fun a w =>
           let deco := DecorationSet_find oldMappedSet (pos w) (pos w) in
           match deco with
           | d0 :: _ =>
               if decide (d_spec d0 = wspec w) then a ++ deco else a
           | [] => a
           end) [] widgetSpecs.

(** The decoration and the widget spec have the same position and the same
    payload: what the diff of [applyState] compares. *)
Definition same_widget (d : Decoration) (w : WidgetSpec) : Prop :=
  from d = pos w /\ d_spec d = wspec w.

(** The previous decoration set, remapped through the transaction. *)
Definition oldMappedSet_of (tr : Transaction) (oldPluginState : PlaceholderPluginState)
    : DecorationSet :=
  DecorationSet_map (decorationSet oldPluginState) (tr_mapResult tr) (tr_doc tr).

Definition applyState (tr : Transaction) (oldPluginState : PlaceholderPluginState)
    (_oldState newState : EditorState) (heap0 : nat)
    : PlaceholderPluginState * nat :=
  let '(widgetSpecs, hasFocus, heap1) := getPlaceholderWidgetSpecs newState heap0 in
  let decorationSet := decorationSet oldPluginState in
  let oldMappedSet := DecorationSet_map decorationSet (tr_mapResult tr) (tr_doc tr) in
  let decorationsThatDidNotChange :=
    decorationsThatDidNotChange oldMappedSet widgetSpecs in
  let newAddedDecorations :=
    filter (fun w => pos w ∉ (from <$> decorationsThatDidNotChange)) widgetSpecs in
  let notRelevantDecorations :=
    DecorationSet_remove oldMappedSet decorationsThatDidNotChange in
  let newSet := oldMappedSet in
  let newSet :=
    if bool_decide (length (DecorationSet_find_all notRelevantDecorations) ≠ 0)
    then DecorationSet_remove newSet (DecorationSet_find_all notRelevantDecorations)
    else newSet in
  let newSet :=
    if bool_decide (length newAddedDecorations ≠ 0)
    then DecorationSet_add newSet (tr_doc tr)
           ((fun widget =>
               Decoration_widget (pos widget) (toDOM widget) (wspec widget))
            <$> newAddedDecorations)
    else newSet in
  ({| decorationSet := newSet; ps_hasFocus := hasFocus |}, heap1).

End WithUtils.

End Placeholder.

(** * The placeholder plugin: props and placement sites *)

Module PlaceholderPlugin.
Import PM PMState PMUtils Placeholder.

(** [props.attributes(state)]: [{class: 'g-md-editor-hidecursor'}] when the
    state of the plugin has [hasFocus], else [{}].  The state of the plugin
    is what [pluginKey.getState(state)] returns. *)
Definition attributes (ps : PlaceholderPluginState) : gmap string string :=
  if ps_hasFocus ps
  then {[ "class"%string := "g-md-editor-hidecursor"%string ]}
  else ∅.

(** [props.decorations(state)]. *)
Definition decorations (ps : PlaceholderPluginState) : DecorationSet :=
  decorationSet ps.

Section WithUtils.
Context {utils : Utils}.

(** [cursorPos] of [getPlaceholderWidgetSpecs]:
    [isTextSelection(selection) ? selection.$cursor?.pos : null]. *)
Definition cursorPos_of (state : EditorState) : option nat :=
  if isTextSelection (selection state)
  then rp_pos <$> sel_cursor (selection state)
  else None.

(** The widgets map after the loop over the custom placeholder plugins. *)
Definition customMap (state : EditorState) : WidgetsMap :=
  foldl (recordCustom state) ∅ (getPlaceholderPluginKeys (schema state)).

(** The two places where [getPlaceholderWidgetSpecs] calls
    [addDecoration]: in [decorate], for a node of the walk over the document
    whose placeholder is always visible, and after the walk, for the closest
    ancestor of the cursor that has a placeholder, when that one is not
    always visible. *)
Definition walk_site (state : EditorState) (node : Node) (p0 : nat)
    (parent : option Node) (ps : PlaceholderSpec) : Prop :=
  exists v, v ∈ descendants (doc state)
            /\ v_node v = node /\ v_pos v = p0 /\ parent = Some (v_parent v)
            /\ alwaysVisible ps = true.

Definition cursor_site (state : EditorState) (node : Node) (p0 : nat)
    (parent : option Node) (ps : PlaceholderSpec) : Prop :=
  exists pn,
    findParentNodeClosestToPos (sel_from (selection state))
      (fun n => bool_decide (is_Some (placeholder (spec (type n))))) = Some pn
    /\ pn_node pn = node /\ pn_pos pn = p0
    /\ parent = (if bool_decide (0 < pn_depth pn)
                 then rp_node (sel_from (selection state)) (pn_depth pn - 1)
                 else None)
    /\ alwaysVisible ps = false.

Definition placement_site (state : EditorState) (node : Node) (p0 : nat)
    (parent : option Node) (ps : PlaceholderSpec) : Prop :=
  walk_site state node p0 parent ps \/ cursor_site state node p0 parent ps.

(** The element that [createPlaceholder] builds at allocation counter [h]. *)
Definition placeholder_element (h : nat) (focus : bool) (content : string)
    : PlaceholderDOM :=
  {| dom_ref := h; dom_focus := focus; dom_cursor_ref := h + 1;
     dom_text_ref := h + 2; dom_textContent := content |}.

End WithUtils.

(** A widgets-map entry without the references of its elements. *)
Definition erase (v : WidgetSpec + PluginKey)
    : (nat * FocusSpec * string * bool) + PluginKey :=
  match v with
  | inl w => inl (pos w, wspec w, dom_textContent (toDOM w), dom_focus (toDOM w))
  | inr key => inr key
  end.

(** Two states of the computation that differ in element references
    only. *)
Definition sim (st1 st2 : DecoState) : Prop :=
  hasFocus st1 = hasFocus st2
  /\ erase <$> widgetsMap st1 = erase <$> widgetsMap st2.

End PlaceholderPlugin.

(** * The composition engine ([ExtensionsManager.process]) *)

Module ExtensionsManager.

(** Modelled from the spec: [core/ExtensionsManager],
    [core/SchemaDynamicModifier], [core/markdown/MarkdownParser],
    [core/markdown/MarkdownSerializerDynamicModifier] and
    [core/utils/dynamicModifiers] are missing from the sources, [Editor.ts]
    only calls them; this module follows sections 3, 4.1 and 4.4 of the
    specification.  [Family]: the families of keys that are kept unique.
    Serializer rules stand under node and mark type names and are kept
    unique with them.  Actions and node and mark views are collected in the
    same way and are left out. *)
Inductive Family := NodeTypeName | MarkTypeName | ParserRuleKey | SerializerRuleKey.

(** Modelled from the spec: the composition-time error, missing with
    [core/ExtensionsManager]; it names the family, the key and both
    extensions. *)
Inductive CompositionError :=
  NameCollision (family : Family) (key : string) (earlier later : string).

(** Modelled from the spec: the priority tiers of plugins, missing with
    [core/ExtensionsManager]. *)
Inductive Priority := Highest | Normal | Lowest.

#[global] Instance Priority_eq_dec : EqDecision Priority.
Proof. solve_decision. Defined.

Section Registry.
(** What an extension contributes: a type spec (the attribute set of a
    node or mark type), a parser token handler, a serializer handler, a
    plugin factory.  [ParserOptions] is what the caller hands on to the
    tokenizer (preset, raw markup, auto-links, tree transformers). *)
Context {TypeSpec ParserHandler SerializerHandler PluginFactory : Type}.
Context {ParserOptions : Type}.

(** Modelled from the spec: the builder of [core/ExtensionsManager] is
    missing; these are the calls an extension makes on it ("define node type", "define mark type", "add parser rule for
    token X", "add serializer rule for node/mark type Y", "add plugin
    factory"); [override] is the explicit override marker. *)
Inductive BuilderCall :=
| DefineNode (name : string) (spec : TypeSpec) (override : bool)
| DefineMark (name : string) (spec : TypeSpec) (override : bool)
| AddParserRule (token : string) (rule : ParserHandler) (override : bool)
| AddSerializerRule (name : string) (rule : SerializerHandler) (override : bool)
| AddPlugin (priority : Priority) (plugin : PluginFactory).

(** Modelled from the spec: an extension contribution, a named unit; the
    type [Extension] of [core/types/extension] is missing. *)
Record Extension := { ext_name : string; ext_calls : list BuilderCall }.

(** Modelled from the spec: the ordered mappings of the missing builder,
    from keys to the contributing extension and the contributed value. *)
Definition Registry (V : Type) := list (string * (string * V)).

Definition reg_lookup {V} (key : string) (reg : Registry V) : option (string * V) :=
  match list_find (fun e => e.1 = key) reg with
  | Some (_, e) => Some e.2
  | None => None
  end.

(** Replaces the value under [key] where it stands: the order of the
    mapping does not change. *)
Definition reg_replace {V} (key : string) (entry : string * V) (reg : Registry V)
    : Registry V :=
  (fun e => if decide (e.1 = key) then (key, entry) else e) <$> reg.

(** Modelled from the spec: the name-collision policy of the missing
    builder.  A new key is
    appended; a later contribution marked as override replaces the
    earlier one; any other duplicate is a composition-time error. *)
Definition define {V} (family : Family) (reg : Registry V) (ext key : string)
    (value : V) (override : bool) : CompositionError + Registry V :=
  match reg_lookup key reg with
  | None => inr (reg ++ [(key, (ext, value))])
  | Some (owner, _) =>
      if override then inr (reg_replace key (ext, value) reg)
      else inl (NameCollision family key owner ext)
  end.

(** Modelled from the spec: the state of the missing builder while
    extensions run. *)
Record Builder := {
  b_nodes : Registry TypeSpec;
  b_marks : Registry TypeSpec;
  b_parser : Registry ParserHandler;
  b_serializer : Registry SerializerHandler;
  b_plugins : list (Priority * PluginFactory)
}.

Definition empty_builder : Builder :=
  {| b_nodes := []; b_marks := []; b_parser := []; b_serializer := [];
     b_plugins := [] |}.

(** Modelled from the spec: one call on the missing builder, made by the
    extension [ext]. *)
Definition run_call (ext : string) (b : Builder) (c : BuilderCall)
    : CompositionError + Builder :=
  match c with
  | DefineNode name spec override =>
      match define NodeTypeName (b_nodes b) ext name spec override with
      | inl e => inl e
      | inr r => inr {| b_nodes := r; b_marks := b_marks b; b_parser := b_parser b;
                        b_serializer := b_serializer b; b_plugins := b_plugins b |}
      end
  | DefineMark name spec override =>
      match define MarkTypeName (b_marks b) ext name spec override with
      | inl e => inl e
      | inr r => inr {| b_nodes := b_nodes b; b_marks := r; b_parser := b_parser b;
                        b_serializer := b_serializer b; b_plugins := b_plugins b |}
      end
  | AddParserRule token rule override =>
      match define ParserRuleKey (b_parser b) ext token rule override with
      | inl e => inl e
      | inr r => inr {| b_nodes := b_nodes b; b_marks := b_marks b; b_parser := r;
                        b_serializer := b_serializer b; b_plugins := b_plugins b |}
      end
  | AddSerializerRule name rule override =>
      match define SerializerRuleKey (b_serializer b) ext name rule override with
      | inl e => inl e
      | inr r => inr {| b_nodes := b_nodes b; b_marks := b_marks b;
                        b_parser := b_parser b; b_serializer := r;
                        b_plugins := b_plugins b |}
      end
  | AddPlugin priority plugin =>
      inr {| b_nodes := b_nodes b; b_marks := b_marks b; b_parser := b_parser b;
             b_serializer := b_serializer b;
             b_plugins := b_plugins b ++ [(priority, plugin)] |}
  end.

(** Modelled from the spec: the calls of one extension on the missing
    builder, in order; the first error ends the composition. *)
Fixpoint run_calls (ext : string) (b : Builder) (cs : list BuilderCall)
    : CompositionError + Builder :=
  match cs with
  | [] => inr b
  | c :: cs' =>
      match run_call ext b c with
      | inl e => inl e
      | inr b' => run_calls ext b' cs'
      end
  end.

(** Modelled from the spec: the pass of the missing
    [ExtensionsManager] over the extensions, in the order given. *)
Fixpoint run_extensions (b : Builder) (exts : list Extension)
    : CompositionError + Builder :=
  match exts with
  | [] => inr b
  | x :: exts' =>
      match run_calls (ext_name x) b (ext_calls x) with
      | inl e => inl e
      | inr b' => run_extensions b' exts'
      end
  end.

(** Modelled from the spec: the type [DynamicModifiers] of
    [core/types/dynamicModifiers] is missing; one dynamic-modifier config of
    the list given at construction is a patch function under a handler key of one of the
    three patchable families. *)
Inductive DynamicModifiers :=
| SchemaModifier (key : string) (patch : TypeSpec -> TypeSpec)
| ParserModifier (key : string) (patch : ParserHandler -> ParserHandler)
| SerializerModifier (key : string) (patch : SerializerHandler -> SerializerHandler).

(** Modelled from the spec: the config that the missing
    [convertDynamicModifiersConfigs] builds, one mapping from keys to patch
    functions per family. *)
Record DynamicModifiersConfig := {
  cfg_schema : list (string * (TypeSpec -> TypeSpec));
  cfg_parser : list (string * (ParserHandler -> ParserHandler));
  cfg_serializer : list (string * (SerializerHandler -> SerializerHandler))
}.

(** Modelled from the spec: [convertDynamicModifiersConfigs] of
    [core/utils/dynamicModifiers] is missing; it sorts the configs of the
    list into the three families. *)
Definition convertDynamicModifiersConfigs (modifiers : list DynamicModifiers)
    : DynamicModifiersConfig :=
  {| cfg_schema :=
       omap (fun m => match m with SchemaModifier k f => Some (k, f) | _ => None end)
            modifiers;
     cfg_parser :=
       omap (fun m => match m with ParserModifier k f => Some (k, f) | _ => None end)
            modifiers;
     cfg_serializer :=
       omap (fun m => match m with SerializerModifier k f => Some (k, f) | _ => None end)
            modifiers |}.

(** Modelled from the spec: the classes [SchemaDynamicModifier],
    [MarkdownParserDynamicModifier] and [MarkdownSerializerDynamicModifier]
    are missing; the three objects hold their part of the config. *)
Record DynamicModifierSet := {
  dm_schema : list (string * (TypeSpec -> TypeSpec));
  dm_parser : list (string * (ParserHandler -> ParserHandler));
  dm_serializer : list (string * (SerializerHandler -> SerializerHandler))
}.

(** Modelled from the spec: the resolved handler for a key, in the
    missing modifier classes.  A patch
    under the key receives the base handler; a key without a patch keeps
    its handler. *)
Definition resolve {V} (patches : list (string * (V -> V))) (key : string)
    (base : V) : V :=
  match list_find (fun p => p.1 = key) patches with
  | Some (_, (_, patch)) => patch base
  | None => base
  end.

(** Modelled from the spec: re-resolving one family, in the missing
    [ExtensionsManager].  No entry is added,
    none is dropped, the order stays; a patch whose key has no handler
    is never looked up. *)
Definition apply_modifier {V} (patches : list (string * (V -> V)))
    (reg : Registry V) : Registry V :=
  (fun e => (e.1, (e.2.1, resolve patches e.1 e.2.2))) <$> reg.

(** Modelled from the spec: the schema, the parser and the serializer that
    the missing [ExtensionsManager] resolves, given by their ordered
    mappings. *)
Record Schema := {
  schema_nodes : Registry TypeSpec;
  schema_marks : Registry TypeSpec
}.
Record Parser := {
  parser_rules : Registry ParserHandler;
  parser_options : ParserOptions
}.
Record Serializer := { serializer_rules : Registry SerializerHandler }.

(** Modelled from the spec: what the missing [ExtensionsManager.process]
    returns, as far as the constructor of the editor reads it. *)
Record Composition := {
  schema : Schema;
  markupParser : Parser;
  serializer : Serializer;
  plugins : list PluginFactory
}.

(** Modelled from the spec: in the missing [ExtensionsManager] plugins
    are stable-sorted by tier, declaration order second. *)
Definition sort_plugins (ps : list (Priority * PluginFactory)) : list PluginFactory :=
  (filter (fun p => p.1 = Highest) ps).*2
  ++ (filter (fun p => p.1 = Normal) ps).*2
  ++ (filter (fun p => p.1 = Lowest) ps).*2.

(** Modelled from the spec: the end of the missing
    [ExtensionsManager.process]: without modifiers the mappings of the
    builder, with modifiers the re-resolved ones. *)
Definition finish (b : Builder) (options : ParserOptions)
    (dynamicModifiers : option DynamicModifierSet) : Composition :=
  match dynamicModifiers with
  | None =>
      {| schema := {| schema_nodes := b_nodes b; schema_marks := b_marks b |};
         markupParser := {| parser_rules := b_parser b;
                            parser_options := options |};
         serializer := {| serializer_rules := b_serializer b |};
         plugins := sort_plugins (b_plugins b) |}
  | Some dm =>
      {| schema := {| schema_nodes := apply_modifier (dm_schema dm) (b_nodes b);
                      schema_marks := apply_modifier (dm_schema dm) (b_marks b) |};
         markupParser := {| parser_rules := apply_modifier (dm_parser dm) (b_parser b);
                            parser_options := options |};
         serializer :=
           {| serializer_rules := apply_modifier (dm_serializer dm) (b_serializer b) |};
         plugins := sort_plugins (b_plugins b) |}
  end.

(** Modelled from the spec: [ExtensionsManager.process(extensions,
    {dynamicModifiers, ...}, logger)] is missing: the composition pass, then
    the modifiers. *)
Definition process (extensions : list Extension) (options : ParserOptions)
    (dynamicModifiers : option DynamicModifierSet)
    : CompositionError + Composition :=
  match run_extensions empty_builder extensions with
  | inl e => inl e
  | inr b => inr (finish b options dynamicModifiers)
  end.

(** What a call contributes: a key of a family, with or without the
    override marker. *)
Definition contributes (family : Family) (key : string) (override : bool)
    (c : BuilderCall) : Prop :=
  match c, family with
  | DefineNode name _ o, NodeTypeName => name = key /\ o = override
  | DefineMark name _ o, MarkTypeName => name = key /\ o = override
  | AddParserRule token _ o, ParserRuleKey => token = key /\ o = override
  | AddSerializerRule name _ o, SerializerRuleKey => name = key /\ o = override
  | _, _ => False
  end.

Definition ext_contributes (family : Family) (key : string) (override : bool)
    (x : Extension) : Prop :=
  exists c, c ∈ ext_calls x /\ contributes family key override c.

(** The calls of the extensions in the order in which the pass makes
    them, each with the extension that makes it. *)
Fixpoint all_calls (exts : list Extension) : list (Extension * BuilderCall) :=
  match exts with
  | [] => []
  | x :: exts' => ((fun c => (x, c)) <$> ext_calls x) ++ all_calls exts'
  end.

(** The pass over a sequence of calls. *)
Fixpoint run_flat (b : Builder) (calls : list (Extension * BuilderCall))
    : CompositionError + Builder :=
  match calls with
  | [] => inr b
  | (x, c) :: calls' =>
      match run_call (ext_name x) b c with
      | inl e => inl e
      | inr b' => run_flat b' calls'
      end
  end.

(** The first collision of a sequence of calls, between [earlier] and
    [later] on [key]: the call [n], of [later], contributes the key without
    override; the key was contributed before, the last time by the call
    [m], of [earlier] (the owner of the key when [later] comes); and no
    call before [n] contributes without override a key that a call before
    it contributes. *)
Definition first_collision (calls : list (Extension * BuilderCall))
    (family : Family) (key : string) (earlier later : Extension) : Prop :=
  exists m n c0 c ov0,
    m < n
    /\ calls !! m = Some (earlier, c0) /\ contributes family key ov0 c0
    /\ calls !! n = Some (later, c) /\ contributes family key false c
    /\ (forall m' y c' ov', m < m' -> m' < n -> calls !! m' = Some (y, c') ->
          ~ contributes family key ov' c')
    /\ (forall i j y c' z c'' f k ov, i < j -> j < n ->
          calls !! j = Some (y, c') -> contributes f k false c' ->
          calls !! i = Some (z, c'') -> ~ contributes f k ov c'').

(** The keys of a family in the builder, each with the extension it came
    from, and the keys alone. *)
Definition owners (family : Family) (b : Builder) : list (string * string) :=
  match family with
  | NodeTypeName => (fun e => (e.1, e.2.1)) <$> b_nodes b
  | MarkTypeName => (fun e => (e.1, e.2.1)) <$> b_marks b
  | ParserRuleKey => (fun e => (e.1, e.2.1)) <$> b_parser b
  | SerializerRuleKey => (fun e => (e.1, e.2.1)) <$> b_serializer b
  end.

Definition keys (family : Family) (b : Builder) : list string :=
  (owners family b).*1.

End Registry.

Arguments BuilderCall : clear implicits.
Arguments Extension : clear implicits.
Arguments Builder : clear implicits.
Arguments DynamicModifiers : clear implicits.
Arguments DynamicModifiersConfig : clear implicits.
Arguments DynamicModifierSet : clear implicits.
Arguments Schema : clear implicits.
Arguments Parser : clear implicits.
Arguments Serializer : clear implicits.
Arguments Composition : clear implicits.

End ExtensionsManager.

(** * [WysiwygEditor] ([src/core/Editor.ts]) *)

Module Editor.
Import PM PMState.
Export ExtensionsManager.

(** [doc.childCount === 1 && doc.firstChild?.type.name === 'paragraph' &&
    doc.firstChild.childCount === 0]; the last conjunct is reached only
    with a first child. *)
Definition isEmpty_doc (doc : Node) : bool :=
  (childCount doc =? 1)
  && match firstChild doc with
     | Some c => String.eqb (name (type c)) "paragraph"%string
     | None => false
     end
  && match firstChild doc with
     | Some c => childCount c =? 0
     | None => false
     end.

(** The shape that the specification gives for an empty document: exactly one child, a paragraph without
    children. *)
Definition single_empty_paragraph (d : Node) : Prop :=
  exists p, content d = [p] /\ name (type p) = "paragraph"%string /\ content p = [].

(** [mdOpts: {html: allowHTML, linkify, breaks: true, preset: mdPreset}],
    [linkifyTlds] and [pmTransformers], as the constructor hands them to
    [ExtensionsManager.process]. *)
Record MdOpts := {
  html : option bool;
  linkify : option bool;
  breaks : bool;
  preset : option string
}.

Record ParserOptions {TransformFn : Type} := {
  mdOpts : MdOpts;
  linkifyTlds : option (list string);
  pmTransformers : option (list TransformFn)
}.
Arguments ParserOptions : clear implicits.

Section WithEnv.
(** [Err]: the values that a callback may throw; [U]: the state of the
    caller that its callbacks read and write; [L]: the state of the
    logger. *)
Context {Err U L : Type}.
Context {TypeSpec ParserHandler SerializerHandler PluginFactory TransformFn : Type}.

Inductive Outcome (A : Type) :=
| Returned (a : A)
| Thrown (e : Err).
Arguments Returned {A} a.
Arguments Thrown {A} e.

(** Which of the two options a callback was given as; only the trace
    reads it. *)
Inductive CallbackKind := ChangeCallback | DocChangeCallback.

(** What a dispatch does, in order. *)
Inductive Event :=
| EvUpdateState (newState : EditorState)
| EvCallback (kind : CallbackKind)
| EvConsoleError (err : Err)
| EvMetrics (tr : Transaction).

Record World := {
  view_state : EditorState;   (* [this.#view.state] *)
  trace : list Event;
  user : U;
  logger : L
}.

(** Code that reads and writes the world and returns or throws. *)
Definition M (A : Type) := World -> Outcome A * World.

Definition retM {A} (a : A) : M A := fun w => (Returned a, w).

(** Sequencing: a throw ends the rest. *)
Definition bindM {A B} (m : M A) (k : A -> M B) : M B :=
  fun w =>
    match m w with
    | (Returned a, w') => k a w'
    | (Thrown e, w') => (Thrown e, w')
    end.

Notation "'do' x <- m ; k" := (bindM m (fun x => k))
  (at level 10, x name, m at level 100, k at level 200).
Notation "'run' m ; k" := (bindM m (fun _ => k))
  (at level 10, m at level 100, k at level 200).

(** [try { body } catch (err) { handler(err) }]. *)
Definition try_catch {A} (body : M A) (handler : Err -> M A) : M A :=
  fun w =>
    match body w with
    | (Returned a, w') => (Returned a, w')
    | (Thrown e, w') => handler e w'
    end.

Definition emit (ev : Event) : M unit :=
  fun w => (Returned tt,
            {| view_state := view_state w; trace := trace w ++ [ev];
               user := user w; logger := logger w |}).

(** [type OnChange = (editor: WysiwygEditor) => void]: the callback sees
    the editor, acts on the caller's state, and returns or throws.  It
    does not dispatch a transaction of its own. *)
Definition OnChange := EditorState -> U -> Outcome unit * U.

(** What the editor takes from prosemirror-state and from files that are
    not among the sources. *)
Class Env := {
  (** [EditorState.create({schema, doc, plugins})]. *)
  EditorState_create :
    Schema TypeSpec -> Node -> list PluginFactory -> EditorState;
  (** [state.apply(tr)]: the new state, or what it throws (a [RangeError]
      for a transaction that was made for another document, or what the
      [apply] of a plugin throws). *)
  EditorState_apply : EditorState -> Transaction -> Outcome EditorState;
  (** [parser.parse(markup)]. *)
  Parser_parse :
    Parser ParserHandler (ParserOptions TransformFn) -> string -> Node;
  (** [LoggerFacet.of(logger)]. *)
  LoggerFacet_of : PluginFactory;
  (** [logTransactionMetrics(tr, logger)]. *)
  logTransactionMetrics : Transaction -> L -> Outcome unit * L
}.

Context {env : Env}.

(** [cb(this)]. *)
Definition invoke (kind : CallbackKind) (cb : OnChange) : M unit :=
  fun w =>
    let '(r, u') := cb (view_state w) (user w) in
    (r, {| view_state := view_state w;
           trace := trace w ++ [EvCallback kind];
           user := u'; logger := logger w |}).

(** [console.error(err)]. *)
Definition console_error (err : Err) : M unit := emit (EvConsoleError err).

(** [private tryOnChange(cb?: OnChange)]. *)
Definition tryOnChange (kind : CallbackKind) (cb : option OnChange) : M unit :=
  match cb with
  | Some cb => try_catch (invoke kind cb) console_error
  | None => retM tt
  end.

(** [this.state.apply(tr)]. *)
Definition state_apply (tr : Transaction) : M EditorState :=
  fun w => (EditorState_apply (view_state w) tr, w).

(** [this.updateState(newState)]. *)
Definition updateState (newState : EditorState) : M unit :=
  fun w => (Returned tt,
            {| view_state := newState;
               trace := trace w ++ [EvUpdateState newState];
               user := user w; logger := logger w |}).

(** [logTransactionMetrics(tr, logger)], on the logger of the world. *)
Definition run_logTransactionMetrics (tr : Transaction) : M unit :=
  fun w =>
    let '(r, l') := logTransactionMetrics tr (logger w) in
    (r, {| view_state := view_state w; trace := trace w ++ [EvMetrics tr];
           user := user w; logger := l' |}).

(** [dispatchTransaction(tr)] of the view that the constructor builds;
    [onChange] and [onDocChange] are the options that [thisOnChange] and
    [thisOnDocChange] close over. *)
Definition dispatchTransaction (onChange onDocChange : option OnChange)
    (tr : Transaction) : M unit :=
  let thisOnChange := tryOnChange ChangeCallback onChange in
  let thisOnDocChange := tryOnChange DocChangeCallback onDocChange in
  do newState <- state_apply tr;
  run updateState newState;
  run thisOnChange;
  run (if docChanged tr then thisOnDocChange else retM tt);
  run_logTransactionMetrics tr.

(** [type WysiwygEditorOptions]; [None] is an option that was not given.
    [extensions] is one function on the builder in the source; the ordered
    list of contributions of the specification stands for what it does
    there.  [domElem], [escapeConfig] and [logger] take no part in what
    follows and are left out. *)
Record WysiwygEditorOptions := {
  initialContent : option string;                 (* default [''] *)
  extensions : option (list (Extension TypeSpec ParserHandler SerializerHandler PluginFactory));
                                                  (* default: no extension *)
  allowHTML : option bool;
  mdPreset : option string;
  opt_linkify : option bool;
  opt_pmTransformers : option (list TransformFn);
  opt_linkifyTlds : option (list string);
  onChange : option OnChange;
  onDocChange : option OnChange;
  modifiers : option (list (DynamicModifiers TypeSpec ParserHandler SerializerHandler))
}.

(** The editor after construction: the state of its view and the private
    fields [#serializer] and [#parser]; the callbacks live in the
    [dispatchTransaction] of the view. *)
Record WysiwygEditor := {
  ed_state : EditorState;
  ed_schema : Schema TypeSpec;
  ed_plugins : list PluginFactory;
  ed_serializer : Serializer SerializerHandler;
  ed_parser : Parser ParserHandler (ParserOptions TransformFn);
  ed_onChange : option OnChange;
  ed_onDocChange : option OnChange
}.

(** The constructor.  An array is truthy in JavaScript, the empty one
    too: [modifiers ? convert(modifiers) : undefined] converts every list
    that is given.  An error of [ExtensionsManager.process] leaves the
    constructor as it is thrown. *)
Definition constructor (o : WysiwygEditorOptions)
    : CompositionError + WysiwygEditor :=
  let dynamicModifiersConfig :=
    match modifiers o with
    | Some modifiers => Some (convertDynamicModifiersConfigs modifiers)
    | None => None
    end in
  let dynamicModifiers :=
    match dynamicModifiersConfig with
    | Some config =>
        Some {| dm_schema := cfg_schema config;
                dm_parser := cfg_parser config;
                dm_serializer := cfg_serializer config |}
    | None => None
    end in
  match process (default [] (extensions o))
          {| mdOpts := {| html := allowHTML o; linkify := opt_linkify o;
                          breaks := true; preset := mdPreset o |};
             linkifyTlds := opt_linkifyTlds o;
             pmTransformers := opt_pmTransformers o |}
          dynamicModifiers with
  | inl e => inl e
  | inr c =>
      let plugins := LoggerFacet_of :: plugins c in
      let state :=
        EditorState_create (schema c)
          (Parser_parse (markupParser c) (default ""%string (initialContent o)))
          plugins in
      inr {| ed_state := state; ed_schema := schema c; ed_plugins := plugins;
             ed_serializer := serializer c; ed_parser := markupParser c;
             ed_onChange := onChange o; ed_onDocChange := onDocChange o |}
  end.

(** The caller's state after [tryOnChange(cb)] ran on it. *)
Definition user_after (cb : option OnChange) (st : EditorState) (u : U) : U :=
  match cb with
  | Some cb => (cb st u).2
  | None => u
  end.

(** The events of [tryOnChange(cb)]: nothing without a callback, else the
    call, followed by [console.error] when the call threw. *)
Definition callback_events (kind : CallbackKind) (cb : option OnChange)
    (st : EditorState) (u : U) : list Event :=
  match cb with
  | Some cb =>
      EvCallback kind ::
      match (cb st u).1 with
      | Thrown e => [EvConsoleError e]
      | Returned _ => []
      end
  | None => []
  end.

(** The events of one dispatch, in order; none when [state.apply]
    throws. *)
Definition dispatch_events (onChange onDocChange : option OnChange)
    (tr : Transaction) (w : World) : list Event :=
  match EditorState_apply (view_state w) tr with
  | Returned st =>
      [EvUpdateState st]
      ++ callback_events ChangeCallback onChange st (user w)
      ++ (if docChanged tr
          then callback_events DocChangeCallback onDocChange st
                 (user_after onChange st (user w))
          else [])
      ++ [EvMetrics tr]
  | Thrown _ => []
  end.

Definition is_callback (kind : CallbackKind) (ev : Event) : bool :=
  match ev with
  | EvCallback k =>
      match kind, k with
      | ChangeCallback, ChangeCallback => true
      | DocChangeCallback, DocChangeCallback => true
      | _, _ => false
      end
  | _ => false
  end.

(** How often the callback of a kind was called. *)
Definition calls (kind : CallbackKind) (evs : list Event) : nat :=
  length (List.filter (is_callback kind) evs).

(** Every call of the document-change callback comes after a call of the
    change callback. *)
Definition change_before_docChange (evs : list Event) : Prop :=
  forall i, is_callback DocChangeCallback <$> evs !! i = Some true ->
    exists j, j < i /\ is_callback ChangeCallback <$> evs !! j = Some true.

(** The events that a dispatch appended to the trace of [w]. *)
Definition new_events (w : World) (r : Outcome unit * World) : list Event :=
  drop (length (trace w)) (trace r.2).

(** The options with another [modifiers]. *)
Definition set_modifiers
    (m : option (list (DynamicModifiers TypeSpec ParserHandler SerializerHandler)))
    (o : WysiwygEditorOptions) : WysiwygEditorOptions :=
  {| initialContent := initialContent o; extensions := extensions o;
     allowHTML := allowHTML o; mdPreset := mdPreset o;
     opt_linkify := opt_linkify o; opt_pmTransformers := opt_pmTransformers o;
     opt_linkifyTlds := opt_linkifyTlds o; onChange := onChange o;
     onDocChange := onDocChange o; modifiers := m |}.

(** [isEmpty()], on the state of the view. *)
Definition isEmpty (state : EditorState) : bool := isEmpty_doc (doc state).

(** Modelled from the spec: [core/ContentHandler] is missing.  [clear],
    [replace], [prepend] and [append] are one full-document-replace
    transaction each, whose new tree the parser makes; this and the next
    three definitions give the documents of those transactions. *)
Definition clear_doc (parse : string -> Node) : Node := parse ""%string.

(** Modelled from the spec: the document after [replace(newMarkup)] of the
    missing [core/ContentHandler]. *)
Definition replace_doc (parse : string -> Node) (newMarkup : string) : Node :=
  parse newMarkup.

(** Modelled from the spec: the document after [prepend(markup)] of the
    missing [core/ContentHandler]: the parsed blocks, then the old ones. *)
Definition prepend_doc (parse : string -> Node) (doc : Node) (markup : string)
    : Node :=
  mkNode (type doc) (content (parse markup) ++ content doc) (text doc).

(** Modelled from the spec: the document after [append(markup)] of the
    missing [core/ContentHandler]: the old blocks, then the parsed ones. *)
Definition append_doc (parse : string -> Node) (doc : Node) (markup : string)
    : Node :=
  mkNode (type doc) (content doc ++ content (parse markup)) (text doc).

End WithEnv.

Arguments Outcome : clear implicits.
Arguments Returned {Err A} a.
Arguments Thrown {Err A} e.
Arguments EvUpdateState {Err} newState.
Arguments EvCallback {Err} kind.
Arguments EvConsoleError {Err} err.
Arguments EvMetrics {Err} tr.
Arguments Event : clear implicits.
Arguments World : clear implicits.
Arguments Env : clear implicits.
Arguments WysiwygEditorOptions : clear implicits.
Arguments WysiwygEditor : clear implicits.

End Editor.

(** * Image helpers *)

Module ImageUtils.

Record HTMLImageElement := { width : nat; height : nat }.

(** [String(n)] for a non-negative integer: its decimal digits. *)
Definition String_of_nat (n : nat) : string :=
  NilZero.string_of_uint (Nat.to_uint n).

(** Reading a decimal string back, to state bounds on what [String]
    rendered. *)
Definition nat_of_String (s : string) : option nat :=
  Nat.of_uint <$> NilZero.uint_of_string s.

(** The object [{height: string}] that [getImageSize] returns. *)
Record ImageSize := { size_height : string }.

Section GetImageSize.
(** [IMG_MAX_HEIGHT] is imported from [./const], which is not among the
    sources: a parameter. *)
Variable IMG_MAX_HEIGHT : nat.

Definition getImageSize (img : HTMLImageElement) : ImageSize :=
  {| size_height := String_of_nat (Nat.min IMG_MAX_HEIGHT (height img)) |}.

End GetImageSize.

End ImageUtils.

(** * The image helpers: [loadImage], [getImageSizeNew], [createImageNode] *)

Module ImageNode.
Import PM ImageUtils.

(** [UploadSuccessItem]: [{result: {url, name?}, file}]. *)
Record UploadResult := { url : string; result_name : option string }.

Record UploadSuccessItem (File : Type) := { result : UploadResult; file : File }.
Arguments result {File} _.
Arguments file {File} _.

Record CreateImageNodeOptions := {
  needDimensions : bool;
  enableNewImageSizeCalculation : option bool   (* [undefined] is falsy *)
}.

(** A [Record<string, string>]. *)
Abbreviation Attrs := (gmap string string).

(** [Object.assign(target, source)]: the properties of the source are
    written over those of the target. *)
Definition Object_assign (target source : Attrs) : Attrs := source ∪ target.

(** A promise, by how it ends; [Pending] is one that is never settled. *)
Inductive Promise (Err A : Type) :=
| Resolved (a : A)
| Rejected (e : Err)
| Pending.
Arguments Resolved {Err A} a.
Arguments Rejected {Err A} e.
Arguments Pending {Err A}.

(** [promise.then(f)] for an [f] that returns. *)
Definition Promise_then {Err A B : Type} (p : Promise Err A) (f : A -> B) :
    Promise Err B :=
  match p with
  | Resolved a => Resolved (f a)
  | Rejected e => Rejected e
  | Pending => Pending
  end.

(** [imgType.create(attrs)]: the node that prosemirror-model builds from a
    type and attributes, given by the two; the call is taken to return. *)
Inductive Created := Create (imgType : NodeType) (attrs : Attrs).

(** What the sources import from files that are not among them, and what
    the browser decides.
    - [file_name]: [file.name];
    - [image_load]: whether the [img] element whose [src] is the object URL
      of the file fires [load] (the element is then given), fires [error]
      (with the error that [onerror] gets as its fifth argument), or neither;
    - [IMG_MAX_HEIGHT], of [./const];
    - [Src], [Alt]: the keys [ImgSizeAttr.Src] and [ImgSizeAttr.Alt];
    - [getProportionalSize], of [../../../utils], by its arguments [width],
      [height] and [imgMaxHeight]; [Num] are its numbers and
      [String_of_num] is [String] on them. *)
Class Env (Err File Num : Type) := {
  file_name : File -> string;
  image_load : File -> option (Err + HTMLImageElement);
  IMG_MAX_HEIGHT : nat;
  Src : string;
  Alt : string;
  getProportionalSize : nat -> nat -> nat -> Num * Num;
  String_of_num : Num -> string
}.

Section WithEnv.
Context {Err File Num : Type}.
Context {env : Env Err File Num}.

(** What the functions do besides returning: the object URLs made and
    revoked, and the errors given to [globalLogger.error] and to
    [logger.error]; the two loggers are taken to return. *)
Inductive Event :=
| EvCreateObjectURL (f : File)
| EvRevokeObjectURL (f : File)
| EvGlobalLoggerError (e : Err)
| EvLoggerError (e : Err).

(** [loadImage(imgFile)]: the promise resolves in [onload], after the
    object URL was revoked, and rejects in [onerror]. *)
Definition loadImage (imgFile : File) :
    list Event * Promise Err HTMLImageElement :=
  match image_load imgFile with
  | Some (inr img) =>
      ([EvCreateObjectURL imgFile; EvRevokeObjectURL imgFile], Resolved img)
  | Some (inl error) => ([EvCreateObjectURL imgFile], Rejected error)
  | None => ([EvCreateObjectURL imgFile], Pending)
  end.

(** The own properties of the object that [getImageSize] returns. *)
Definition ImageSize_entries (s : ImageSize) : Attrs :=
  {[ "height"%string := size_height s ]}.

(** [getImageSizeNew({width, height})], as the object
    [{width: String(size.width), height: String(size.height)}]. *)
Definition getImageSizeNew (img : HTMLImageElement) : Attrs :=
  let size := getProportionalSize (width img) (height img) IMG_MAX_HEIGHT in
  <[ "height"%string := String_of_num size.2 ]>
    {[ "width"%string := String_of_num size.1 ]}.

(** [createImageNode(imgType, opts, logger)({result, file})]: what it does
    and the promise that the [async] function returns. *)
Definition createImageNode (imgType : NodeType) (opts : CreateImageNodeOptions)
    (item : UploadSuccessItem File) : list Event * Promise Err Created :=
  let attrs : Attrs :=
    <[ Alt := default (file_name (file item)) (result_name (result item)) ]>
      (<[ Src := url (result item) ]> ∅) in
  if needDimensions opts then
    let '(evs, loaded) := loadImage (file item) in
    match Promise_then loaded
            (if default false (enableNewImageSizeCalculation opts)
             then getImageSizeNew
             else fun img => ImageSize_entries (getImageSize IMG_MAX_HEIGHT img))
    with
    | Resolved sizes =>
        (evs, Resolved (Create imgType (Object_assign attrs sizes)))
    | Rejected err =>
        (evs ++ [EvGlobalLoggerError err; EvLoggerError err],
         Resolved (Create imgType attrs))
    | Pending => (evs, Pending)
    end
  else ([], Resolved (Create imgType attrs)).

(** The attributes that the function starts from. *)
Definition base_attrs (item : UploadSuccessItem File) : Attrs :=
  <[ Alt := default (file_name (file item)) (result_name (result item)) ]>
    (<[ Src := url (result item) ]> ∅).

(** The keys [Src] and [Alt] differ, and neither is a size key. *)
Definition keys_distinct : Prop :=
  Src <> Alt
  /\ Src <> "height"%string /\ Src <> "width"%string
  /\ Alt <> "height"%string /\ Alt <> "width"%string.

End WithEnv.

Arguments Event : clear implicits.

End ImageNode.

(** * Concrete documents, states and callbacks *)

Module Examples.
Import PM PMState Editor.

Definition plainSpec : NodeSpec := {| placeholder := None |}.

Definition docType : NodeType :=
  {| name := "doc"; isText := false; isLeaf := false; spec := plainSpec |}.

Definition paragraphType : NodeType :=
  {| name := "paragraph"; isText := false; isLeaf := false; spec := plainSpec |}.

Definition textType : NodeType :=
  {| name := "text"; isText := true; isLeaf := true; spec := plainSpec |}.

Definition paragraph (children : list Node) : Node :=
  mkNode paragraphType children "".

Definition textNode (s : string) : Node := mkNode textType [] s.

Definition docOf (blocks : list Node) : Node := mkNode docType blocks "".

(** A parser to run the editor with: the markup becomes the text of one
    paragraph, the empty markup an empty paragraph. *)
Definition line_parse (s : string) : Node :=
  docOf [paragraph (if decide (s = ""%string) then [] else [textNode s])].

Definition plainSchema : PMState.Schema :=
  {| PMState.schema_nodes :=
       [("doc"%string, docType); ("paragraph"%string, paragraphType);
        ("text"%string, textType)] |}.

(** A state with the selection at the start of the document. *)
Definition state_of (d : Node) : EditorState :=
  {| doc := d;
     selection :=
       {| sel_from := {| rp_pos := 0;
                         rp_path := [{| pe_node := d; pe_index := 0; pe_offset := 0 |}] |};
          sel_cursor := None |};
     PMState.schema := plainSchema;
     getState := fun _ => None |}.

(** [state.apply(tr)] without plugins: a [RangeError] for a transaction
    that was made for another document, else the state with the document
    of the transaction. *)
Definition apply_checked (st : EditorState) (tr : Transaction)
    : Outcome string EditorState :=
  if Node_eq (tr_before tr) (doc st)
  then Returned (state_of (tr_doc tr))
  else Thrown "Applying a mismatched transaction"%string.

(** An environment to run the editor in: a logger that keeps the
    transactions it was told about. *)
Definition example_env : Env string (list Transaction) unit unit unit unit :=
  {| EditorState_create := fun _ d _ => state_of d;
     EditorState_apply := apply_checked;
     Parser_parse := fun _ markup => line_parse markup;
     LoggerFacet_of := tt;
     logTransactionMetrics := fun tr l => (Returned tt, l ++ [tr]) |}.

(** A callback that counts its calls and returns, and one that throws. *)
Definition cb_count : @OnChange string nat := fun _ u => (Returned tt, S u).
Definition cb_throw : @OnChange string nat := fun _ u => (Thrown "boom"%string, S u).

(** Typing [x] into the empty document. *)
Definition tr_type_x : Transaction :=
  {| tr_mapResult := fun p => {| mr_pos := if p <? 1 then p else p + 1;
                                 mr_deleted := false |};
     tr_before := docOf [paragraph []];
     tr_doc := docOf [paragraph [textNode "x"]];
     docChanged := true |}.

(** A transaction that only moves the selection. *)
Definition tr_select : Transaction :=
  {| tr_mapResult := fun p => {| mr_pos := p; mr_deleted := false |};
     tr_before := docOf [paragraph []];
     tr_doc := docOf [paragraph []];
     docChanged := false |}.

Definition world0 : World string nat (list Transaction) :=
  {| view_state := state_of (docOf [paragraph []]); trace := []; user := 0;
     logger := [] |}.

(** No extension, no initial content, no callback. *)
Definition options0 : WysiwygEditorOptions string nat unit unit unit unit unit :=
  {| initialContent := None; extensions := None; allowHTML := None;
     mdPreset := None; opt_linkify := None; opt_pmTransformers := None;
     opt_linkifyTlds := None; onChange := None; onDocChange := None;
     modifiers := None |}.

(** Two extensions that both define the node type [paragraph]; in
    [exts_override] the second one carries the override marker. *)
Definition ext_base : Extension unit unit unit unit :=
  {| ext_name := "base";
     ext_calls := [DefineNode "doc" tt false; DefineNode "paragraph" tt false;
                   AddParserRule "paragraph_open" tt false] |}.

Definition ext_other (override : bool) : Extension unit unit unit unit :=
  {| ext_name := "other";
     ext_calls := [DefineNode "heading" tt false;
                   DefineNode "paragraph" tt override] |}.

Definition options_with (exts : list (Extension unit unit unit unit))
    : WysiwygEditorOptions string nat unit unit unit unit unit :=
  {| initialContent := None; extensions := Some exts; allowHTML := None;
     mdPreset := None; opt_linkify := None; opt_pmTransformers := None;
     opt_linkifyTlds := None; onChange := None; onDocChange := None;
     modifiers := None |}.

(** A note block whose title has an always-visible placeholder, as the
    note extension of the editor declares it; the note itself has a
    placeholder at the cursor. *)
Definition alwaysSpec : NodeSpec :=
  {| placeholder := Some {| customPlugin := None; alwaysVisible := true |} |}.

Definition cursorSpec : NodeSpec :=
  {| placeholder := Some {| customPlugin := None; alwaysVisible := false |} |}.

Definition noteTitleType : NodeType :=
  {| name := "yfm_note_title"; isText := false; isLeaf := false; spec := alwaysSpec |}.

Definition noteType : NodeType :=
  {| name := "yfm_note"; isText := false; isLeaf := false; spec := cursorSpec |}.

Definition noteTitle : Node := mkNode noteTitleType [] "".

Definition note : Node := mkNode noteType [noteTitle; paragraph []] "".

Definition noteDoc : Node := docOf [paragraph [textNode "ab"]; note].

(** The helpers of [utils]: a node is empty when it holds no text; the
    content of a placeholder is the name of the node type. *)
Definition example_utils : Placeholder.Utils :=
  {| Placeholder.isNodeEmpty :=
       fun n => forallb (fun v => negb (isText (type (v_node v)))) (descendants n);
     Placeholder.getPlaceholderContent := fun n _ => Some (name (type n));
     Placeholder.isTextSelection := fun sel => bool_decide (is_Some (sel_cursor sel)) |}.

(** [noteDoc] with the cursor in the first paragraph, after [a]. *)
Definition noteState : EditorState :=
  let rp := {| rp_pos := 2;
               rp_path := [{| pe_node := noteDoc; pe_index := 0; pe_offset := 0 |};
                           {| pe_node := paragraph [textNode "ab"]; pe_index := 0;
                              pe_offset := 1 |}] |} in
  {| doc := noteDoc;
     selection := {| sel_from := rp; sel_cursor := Some rp |};
     PMState.schema :=
       {| PMState.schema_nodes :=
            [("doc"%string, docType); ("paragraph"%string, paragraphType);
             ("text"%string, textType); ("yfm_note"%string, noteType);
             ("yfm_note_title"%string, noteTitleType)] |};
     getState := fun _ => None |}.

(** Two blocks: a paragraph with text and a note title that is empty, and
    the same after [b] was typed at the end of the paragraph. *)
Definition twoBlocks (s : string) : Node :=
  docOf [paragraph [textNode s]; noteTitle].

Definition cursor_in_first (s : string) : Selection :=
  let rp := {| rp_pos := 1 + String.length s;
               rp_path := [{| pe_node := twoBlocks s; pe_index := 0; pe_offset := 0 |};
                           {| pe_node := paragraph [textNode s]; pe_index := 0;
                              pe_offset := 1 + String.length s |}] |} in
  {| sel_from := rp; sel_cursor := Some rp |}.

Definition twoBlocksState (s : string) : EditorState :=
  {| doc := twoBlocks s;
     selection := cursor_in_first s;
     PMState.schema := PMState.schema noteState;
     getState := fun _ => None |}.

(** Typing [b] at position 2 of [twoBlocks "a"]: positions from 2 on move
    by one. *)
Definition tr_type_b : Transaction :=
  {| tr_mapResult := fun p => {| mr_pos := if p <? 2 then p else p + 1;
                                 mr_deleted := false |};
     tr_before := twoBlocks "a";
     tr_doc := twoBlocks "ab";
     docChanged := true |}.

End Examples.

(** * More examples: placeholders at the cursor, custom placeholder plugins,
      uploads *)

Module MoreExamples.
Import PM PMState Examples.

(** [twoBlocks s] with the cursor in the empty note title, which is where
    its placeholder sits. *)
Definition cursor_in_title (s : string) : Selection :=
  let rp := {| rp_pos := 3 + String.length s;
               rp_path := [{| pe_node := twoBlocks s; pe_index := 1;
                              pe_offset := 2 + String.length s |};
                           {| pe_node := noteTitle; pe_index := 0;
                              pe_offset := 3 + String.length s |}] |} in
  {| sel_from := rp; sel_cursor := Some rp |}.

Definition titleFocusState (s : string) : EditorState :=
  {| doc := twoBlocks s;
     selection := cursor_in_title s;
     PMState.schema := PMState.schema noteState;
     getState := fun _ => None |}.

(** The widget of an empty note title at a position, with the element
    created at an allocation counter. *)
Definition title_widget (p h : nat) (f : bool) : Placeholder.WidgetSpec :=
  {| Placeholder.pos := p;
     Placeholder.toDOM := PlaceholderPlugin.placeholder_element h f "yfm_note_title";
     Placeholder.wspec := {| Placeholder.focus := f |} |}.

(** Moving the cursor without changing the document [twoBlocks "ab"]. *)
Definition tr_move : Transaction :=
  {| tr_mapResult := fun p => {| mr_pos := p; mr_deleted := false |};
     tr_before := twoBlocks "ab";
     tr_doc := twoBlocks "ab";
     docChanged := false |}.

(** Two empty note titles in a row. *)
Definition twoTitles : Node := docOf [noteTitle; noteTitle].

(** A block type whose placeholder is drawn by a plugin of its own. *)
Definition customKey : PluginKey := "custom_placeholder"%string.

Definition customType : NodeType :=
  {| name := "custom_block"; isText := false; isLeaf := false;
     spec := {| placeholder :=
                  Some {| customPlugin := Some customKey;
                          alwaysVisible := false |} |} |}.

(** [twoTitles] with the selection at the start; the custom plugin has a
    decoration at the positions [custom]. *)
Definition twoTitlesState (custom : list nat) : EditorState :=
  {| doc := twoTitles;
     selection := selection (state_of twoTitles);
     PMState.schema :=
       {| PMState.schema_nodes :=
            [("doc"%string, docType); ("yfm_note_title"%string, noteTitleType);
             ("custom_block"%string, customType)] |};
     getState := fun key =>
       if decide (key = customKey)
       then Some ((fun p => {| cs_pos := p |}) <$> custom)
       else None |}.

(** A note that holds one empty paragraph, with the cursor in the
    paragraph. *)
Definition emptyNote : Node := mkNode noteType [paragraph []] "".

Definition emptyNoteDoc : Node := docOf [emptyNote].

Definition emptyNoteState : EditorState :=
  let rp := {| rp_pos := 2;
               rp_path := [{| pe_node := emptyNoteDoc; pe_index := 0; pe_offset := 0 |};
                           {| pe_node := emptyNote; pe_index := 0; pe_offset := 1 |};
                           {| pe_node := paragraph []; pe_index := 0;
                              pe_offset := 2 |}] |} in
  {| doc := emptyNoteDoc;
     selection := {| sel_from := rp; sel_cursor := Some rp |};
     PMState.schema := PMState.schema noteState;
     getState := fun _ => None |}.

(** Moving the selection in the document that [tr_type_x] leaves. *)
Definition tr_select_x : Transaction :=
  {| tr_mapResult := fun p => {| mr_pos := p; mr_deleted := false |};
     tr_before := tr_doc tr_type_x;
     tr_doc := tr_doc tr_type_x;
     docChanged := false |}.

(** An environment whose metrics logging throws. *)
Definition throwing_env : Editor.Env string (list Transaction) unit unit unit unit :=
  {| Editor.EditorState_create := fun _ d _ => state_of d;
     Editor.EditorState_apply := apply_checked;
     Editor.Parser_parse := fun _ markup => line_parse markup;
     Editor.LoggerFacet_of := tt;
     Editor.logTransactionMetrics := fun tr l => (Editor.Thrown "metrics"%string, l) |}.

(** Uploaded files: a file carries what the browser makes of it. *)
Record ExFile := {
  ex_name : string;
  ex_image : option (string + ImageUtils.HTMLImageElement)
}.

Definition image_env : ImageNode.Env string ExFile nat :=
  {| ImageNode.file_name := ex_name;
     ImageNode.image_load := ex_image;
     ImageNode.IMG_MAX_HEIGHT := 600;
     ImageNode.Src := "src";
     ImageNode.Alt := "alt";
     ImageNode.getProportionalSize := fun w h m =>
       if h <=? m then (w, h) else (w * m / h, m);
     ImageNode.String_of_num := ImageUtils.String_of_nat |}.

Definition imageType : NodeType :=
  {| name := "image"; isText := false; isLeaf := true; spec := plainSpec |}.

Definition tallImage : ImageUtils.HTMLImageElement :=
  {| ImageUtils.width := 800; ImageUtils.height := 1200 |}.

Definition upload (alt : option string) (img : option (string + ImageUtils.HTMLImageElement))
    : ImageNode.UploadSuccessItem ExFile :=
  {| ImageNode.result := {| ImageNode.url := "/files/cat.png";
                            ImageNode.result_name := alt |};
     ImageNode.file := {| ex_name := "cat.png"; ex_image := img |} |}.

Definition withSizes (new : option bool) : ImageNode.CreateImageNodeOptions :=
  {| ImageNode.needDimensions := true;
     ImageNode.enableNewImageSizeCalculation := new |}.

Definition withoutSizes : ImageNode.CreateImageNodeOptions :=
  {| ImageNode.needDimensions := false;
     ImageNode.enableNewImageSizeCalculation := None |}.

End MoreExamples.

(** * Properties of the composition engine *)

Module ExtensionsManagerProofs.
Import ExtensionsManager.

Section Composition.
Context {TypeSpec ParserHandler SerializerHandler PluginFactory ParserOptions : Type}.

Abbreviation Extension := (Extension TypeSpec ParserHandler SerializerHandler PluginFactory).
Abbreviation BuilderCall := (BuilderCall TypeSpec ParserHandler SerializerHandler PluginFactory).
Abbreviation Builder := (Builder TypeSpec ParserHandler SerializerHandler PluginFactory).

(** Membership in a list that is given by its head, its tail or its two
    parts. *)
Local Ltac list_in :=
  solve [ by left | by right
        | by (apply elem_of_app; left)
        | by (apply elem_of_app; right; left) ].

Lemma reg_lookup_Some {V} (key : string) (reg : Registry V) (o : string) (v : V) :
  reg_lookup key reg = Some (o, v) -> (key, (o, v)) ∈ reg.
Proof.
  unfold reg_lookup.
  destruct (list_find _ reg) as [[i e]|] eqn:E; [| discriminate].
  intros [= He]. apply list_find_Some in E as (Hi & Hk & _).
  apply list_elem_of_lookup. exists i.
  destruct e as [k ov]; simpl in *. subst. exact Hi.
Qed.

Lemma reg_lookup_None {V} (key : string) (reg : Registry V) :
  reg_lookup key reg = None <-> key ∉ reg.*1.
Proof.
  unfold reg_lookup.
  destruct (list_find _ reg) as [[i e]|] eqn:E.
  - split; [discriminate |]. intros Hn. exfalso. apply Hn.
    apply list_find_Some in E as (Hi & Hk & _).
    apply list_elem_of_fmap. exists e. split; [done |].
    apply list_elem_of_lookup. eauto.
  - split; [| done]. intros _ Hin.
    apply list_elem_of_fmap in Hin as (e & -> & He).
    apply list_find_None in E. rewrite Forall_forall in E.
    by apply (E e He).
Qed.

Lemma reg_replace_keys {V} (key : string) (entry : string * V) (reg : Registry V) :
  (reg_replace key entry reg).*1 = reg.*1.
Proof.
  unfold reg_replace. rewrite <- list_fmap_compose.
  apply list_fmap_ext. intros i e _. simpl. by case_decide.
Qed.

Lemma reg_replace_elem {V} (key : string) (entry : string * V) (reg : Registry V) e :
  e ∈ reg_replace key entry reg -> e ∈ reg \/ e = (key, entry).
Proof.
  unfold reg_replace. intros He.
  apply list_elem_of_fmap in He as (e0 & -> & He0).
  case_decide; auto.
Qed.

(** What [define] does: an error exactly for a key that is there and a
    contribution that is not an override; else the key is there afterwards,
    no key is lost, and a new owner is the extension at hand. *)
Lemma define_spec {V} (family : Family) (reg : Registry V) (ext key : string)
    (value : V) (override : bool) :
  match define family reg ext key value override with
  | inl e =>
      override = false
      /\ exists owner, (key, owner) ∈ ((fun e => (e.1, e.2.1)) <$> reg)
                       /\ e = NameCollision family key owner ext
  | inr reg' =>
      (key ∈ reg.*1 -> override = true)
      /\ key ∈ reg'.*1
      /\ (forall k, k ∈ reg.*1 -> k ∈ reg'.*1)
      /\ (forall k o, (k, o) ∈ ((fun e => (e.1, e.2.1)) <$> reg') ->
            (k, o) ∈ ((fun e => (e.1, e.2.1)) <$> reg) \/ (k = key /\ o = ext))
  end.
Proof.
  unfold define.
  destruct (reg_lookup key reg) as [[owner v]|] eqn:E.
  - apply reg_lookup_Some in E.
    destruct override.
    + split; [done |]. rewrite reg_replace_keys.
      split; [apply list_elem_of_fmap; exists (key, (owner, v)); done |].
      split; [done |].
      intros k o Hin. apply list_elem_of_fmap in Hin as (e & [= -> ->] & He).
      apply reg_replace_elem in He as [He | ->]; [left | right; done].
      apply list_elem_of_fmap. by exists e.
    + split; [done |]. exists owner. split; [| done].
      apply list_elem_of_fmap. by exists (key, (owner, v)).
  - apply reg_lookup_None in E.
    split; [done |]. rewrite fmap_app.
    split; [list_in |]. split; [intros k' Hk'; list_in |].
    intros k o Hin. rewrite fmap_app in Hin. simpl in Hin.
    apply elem_of_app in Hin as [Hin | Hin]; [by left | right].
    apply list_elem_of_singleton in Hin. by injection Hin.
Qed.

Lemma owners_keys {V} (reg : Registry V) :
  ((fun e => (e.1, e.2.1)) <$> reg).*1 = reg.*1.
Proof. rewrite <- list_fmap_compose. by apply list_fmap_ext. Qed.

(** One call: an error names a key that the call contributes without
    override and its owner in the builder; else no key is lost, a
    contributed key is there afterwards, and it was new or the call an
    override. *)
Lemma run_call_spec (ext : string) (b : Builder) (c : BuilderCall) :
  match run_call ext b c with
  | inl e =>
      exists family key owner,
        e = NameCollision family key owner ext
        /\ contributes family key false c
        /\ (key, owner) ∈ owners family b
  | inr b' =>
      (forall family k, k ∈ keys family b -> k ∈ keys family b')
      /\ (forall family key o, contributes family key o c ->
            key ∈ keys family b' /\ (key ∈ keys family b -> o = true))
      /\ (forall family k o, (k, o) ∈ owners family b' ->
            (k, o) ∈ owners family b
            \/ (o = ext /\ exists ov, contributes family k ov c))
  end.
Proof.
  unfold keys.
  destruct c as [n sp ov | n sp ov | n r ov | n r ov | pr pl]; simpl.
  - pose proof (define_spec NodeTypeName (b_nodes b) ext n sp ov) as Hd.
    destruct (define _ _ _ _ _ _) as [e|reg']; simpl.
    + destruct Hd as (-> & owner & Hin & ->). by exists NodeTypeName, n, owner.
    + destruct Hd as (Hov & Hkey & Hmono & Hown). rewrite <- !owners_keys in *.
      split; [intros [] k; simpl; auto |].
      split; [intros [] key o; simpl; try done; intros [<- <-]; auto |].
      intros [] k o; simpl; auto. intros Hin.
      destruct (Hown k o Hin) as [|[-> ->]]; [by left | right].
      split; [done |]. by exists ov.
  - pose proof (define_spec MarkTypeName (b_marks b) ext n sp ov) as Hd.
    destruct (define _ _ _ _ _ _) as [e|reg']; simpl.
    + destruct Hd as (-> & owner & Hin & ->). by exists MarkTypeName, n, owner.
    + destruct Hd as (Hov & Hkey & Hmono & Hown). rewrite <- !owners_keys in *.
      split; [intros [] k; simpl; auto |].
      split; [intros [] key o; simpl; try done; intros [<- <-]; auto |].
      intros [] k o; simpl; auto. intros Hin.
      destruct (Hown k o Hin) as [|[-> ->]]; [by left | right].
      split; [done |]. by exists ov.
  - pose proof (define_spec ParserRuleKey (b_parser b) ext n r ov) as Hd.
    destruct (define _ _ _ _ _ _) as [e|reg']; simpl.
    + destruct Hd as (-> & owner & Hin & ->). by exists ParserRuleKey, n, owner.
    + destruct Hd as (Hov & Hkey & Hmono & Hown). rewrite <- !owners_keys in *.
      split; [intros [] k; simpl; auto |].
      split; [intros [] key o; simpl; try done; intros [<- <-]; auto |].
      intros [] k o; simpl; auto. intros Hin.
      destruct (Hown k o Hin) as [|[-> ->]]; [by left | right].
      split; [done |]. by exists ov.
  - pose proof (define_spec SerializerRuleKey (b_serializer b) ext n r ov) as Hd.
    destruct (define _ _ _ _ _ _) as [e|reg']; simpl.
    + destruct Hd as (-> & owner & Hin & ->). by exists SerializerRuleKey, n, owner.
    + destruct Hd as (Hov & Hkey & Hmono & Hown). rewrite <- !owners_keys in *.
      split; [intros [] k; simpl; auto |].
      split; [intros [] key o; simpl; try done; intros [<- <-]; auto |].
      intros [] k o; simpl; auto. intros Hin.
      destruct (Hown k o Hin) as [|[-> ->]]; [by left | right].
      split; [done |]. by exists ov.
  - split; [intros [] k; simpl; auto |].
    split; [intros [] key o; simpl; done |].
    intros [] k o; simpl; auto.
Qed.

(** The calls of one extension. *)
Lemma run_calls_spec (ext : string) (cs : list BuilderCall) (b : Builder) :
  match run_calls ext b cs with
  | inl e =>
      exists family key owner c,
        e = NameCollision family key owner ext
        /\ c ∈ cs /\ contributes family key false c
        /\ ((key, owner) ∈ owners family b
            \/ (owner = ext /\ exists c' ov, c' ∈ cs /\ contributes family key ov c'))
  | inr b' =>
      (forall family k, k ∈ keys family b -> k ∈ keys family b')
      /\ (forall family key o c, c ∈ cs -> contributes family key o c ->
            key ∈ keys family b')
      /\ (forall family key c, c ∈ cs -> contributes family key false c ->
            key ∉ keys family b)
      /\ (forall family k o, (k, o) ∈ owners family b' ->
            (k, o) ∈ owners family b
            \/ (o = ext /\ exists c ov, c ∈ cs /\ contributes family k ov c))
  end.
Proof.
  revert b. induction cs as [|c cs IH]; intros b; simpl.
  - repeat split; auto; intros; set_solver.
  - pose proof (run_call_spec ext b c) as Hc.
    destruct (run_call ext b c) as [e|b1].
    + destruct Hc as (family & key & owner & -> & Hcon & Hown).
      exists family, key, owner, c. repeat split; auto. set_solver.
    + destruct Hc as (Hmono1 & Hkey1 & Hown1).
      specialize (IH b1). destruct (run_calls ext b1 cs) as [e|b'].
      * destruct IH as (family & key & owner & c' & -> & Hin & Hcon & Hown).
        exists family, key, owner, c'. split; [done |].
        split; [list_in |]. split; [done |].
        destruct Hown as [Hown | (-> & c2 & ov & Hin2 & Hcon2)].
        -- destruct (Hown1 _ _ _ Hown) as [|(-> & ov & Hcon1)]; [by left | right].
           split; [done |]. exists c, ov. split; [list_in | done].
        -- right. split; [done |]. exists c2, ov. split; [list_in | done].
      * destruct IH as (Hmono & Hkey & Hfresh & Hown).
        split; [intros family k Hk; apply Hmono, Hmono1, Hk |].
        split.
        { intros family key o c' Hin Hcon.
          apply elem_of_cons in Hin as [-> | Hin].
          - apply Hmono. by apply (Hkey1 family key o).
          - by apply (Hkey family key o c'). }
        split.
        { intros family key c' Hin Hcon Hk.
          apply elem_of_cons in Hin as [-> | Hin].
          - by destruct (Hkey1 family key false Hcon) as [_ Hov]; specialize (Hov Hk).
          - apply (Hfresh family key c' Hin Hcon). by apply Hmono1. }
        intros family k o Hin.
        destruct (Hown _ _ _ Hin) as [Hin1 | (-> & c2 & ov & Hin2 & Hcon2)].
        -- destruct (Hown1 _ _ _ Hin1) as [|(-> & ov & Hcon1)]; [by left | right].
           split; [done |]. exists c, ov. split; [list_in | done].
        -- right. split; [done |]. exists c2, ov. split; [list_in | done].
Qed.

(** The whole pass.  An error names a key, an extension of the list that
    contributes it without override, and the owner of the key: an entry of
    the builder at the start or an extension of the list. *)
Lemma run_extensions_spec (exts : list Extension) (b : Builder) :
  match run_extensions b exts with
  | inl e =>
      exists family key owner x,
        e = NameCollision family key owner (ext_name x)
        /\ x ∈ exts /\ ext_contributes family key false x
        /\ ((key, owner) ∈ owners family b
            \/ exists x' ov, x' ∈ exts /\ ext_name x' = owner
                             /\ ext_contributes family key ov x')
  | inr b' =>
      (forall family k, k ∈ keys family b -> k ∈ keys family b')
      /\ (forall family key x, x ∈ exts -> ext_contributes family key false x ->
            key ∉ keys family b)
      /\ (forall family key i j xi xj ov,
            i < j -> exts !! i = Some xi -> exts !! j = Some xj ->
            ext_contributes family key ov xi ->
            ext_contributes family key false xj -> False)
  end.
Proof.
  revert b. induction exts as [|x exts IH]; intros b; simpl.
  - repeat split; auto; intros; set_solver.
  - pose proof (run_calls_spec (ext_name x) (ext_calls x) b) as Hx.
    destruct (run_calls (ext_name x) b (ext_calls x)) as [e|b1].
    + destruct Hx as (family & key & owner & c & -> & Hin & Hcon & Hown).
      exists family, key, owner, x. split; [done |]. split; [list_in |].
      split; [by exists c |].
      destruct Hown as [|(-> & c' & ov & Hin' & Hcon')]; [by left | right].
      exists x, ov. split; [list_in |]. split; [done |]. by exists c'.
    + destruct Hx as (Hmono1 & Hkey1 & Hfresh1 & Hown1).
      specialize (IH b1). destruct (run_extensions b1 exts) as [e|b'].
      * destruct IH as (family & key & owner & x2 & -> & Hin & Hcon & Hown).
        exists family, key, owner, x2. split; [done |]. split; [list_in |].
        split; [done |].
        destruct Hown as [Hown | (x' & ov & Hin' & Hname & Hcon')].
        -- destruct (Hown1 _ _ _ Hown) as [|(-> & c & ov & Hinc & Hconc)];
             [by left | right].
           exists x, ov. split; [list_in |]. split; [done |]. by exists c.
        -- right. exists x', ov. split; [list_in | done].
      * destruct IH as (Hmono & Hfresh & Hpair).
        split; [intros family k Hk; apply Hmono, Hmono1, Hk |].
        split.
        { intros family key x' Hin Hcon Hk.
          apply elem_of_cons in Hin as [-> | Hin].
          - destruct Hcon as (c & Hc & Hcon). by apply (Hfresh1 family key c).
          - apply (Hfresh family key x' Hin Hcon). by apply Hmono1. }
        intros family key i j xi xj ov Hij Hi Hj Hci Hcj.
        destruct j as [|j]; [lia |]. simpl in Hj.
        destruct i as [|i]; simpl in Hi.
        -- injection Hi as ->. destruct Hci as (c & Hc & Hcon).
           apply (Hfresh family key xj); [by eapply list_elem_of_lookup_2 | done |].
           by apply (Hkey1 family key ov c).
        -- apply (Hpair family key i j xi xj ov); auto. lia.
Qed.

(** ** The first collision *)

Lemma define_owner {V} (family : Family) (reg reg' : Registry V) (ext key : string)
    (value : V) (override : bool) :
  define family reg ext key value override = inr reg' ->
  forall k o, (k, o) ∈ ((fun e => (e.1, e.2.1)) <$> reg') ->
    (k <> key /\ (k, o) ∈ ((fun e => (e.1, e.2.1)) <$> reg))
    \/ (k = key /\ o = ext).
Proof.
  unfold define.
  destruct (reg_lookup key reg) as [[owner v]|] eqn:E.
  - destruct override; [| discriminate]. intros [= <-] k o Hin.
    apply list_elem_of_fmap in Hin as (e & Heq & He).
    unfold reg_replace in He. apply list_elem_of_fmap in He as (e0 & -> & He0).
    destruct (decide (e0.1 = key)) as [Hk | Hk]; simpl in Heq.
    + right. by injection Heq as -> ->.
    + left. injection Heq as -> ->. split; [done |].
      apply list_elem_of_fmap. by exists e0.
  - apply reg_lookup_None in E. intros [= <-] k o Hin.
    rewrite fmap_app in Hin. apply elem_of_app in Hin as [Hin | Hin].
    + left. split; [| done]. intros ->. apply E.
      rewrite <- owners_keys. apply list_elem_of_fmap. by exists (key, o).
    + right. apply list_elem_of_singleton in Hin. by injection Hin as -> ->.
Qed.

(** After a call that returned, an owner of the builder is an owner from
    before, of a key that the call does not contribute, or the extension
    at hand, for a key that the call contributes. *)
Lemma run_call_owner (ext : string) (b b' : Builder) (c : BuilderCall) :
  run_call ext b c = inr b' ->
  forall family k o, (k, o) ∈ owners family b' ->
    ((k, o) ∈ owners family b /\ forall ov, ~ contributes family k ov c)
    \/ (o = ext /\ exists ov, contributes family k ov c).
Proof.
  assert (forall {V} (fam : Family) (reg reg' : Registry V) n (sp : V) ov k o,
            define fam reg ext n sp ov = inr reg' ->
            (k, o) ∈ ((fun e => (e.1, e.2.1)) <$> reg') ->
            ((k, o) ∈ ((fun e => (e.1, e.2.1)) <$> reg) /\ n <> k)
            \/ (o = ext /\ n = k)) as Hdef.
  { intros V fam reg reg' n sp ov k o Hd Hin.
    destruct (define_owner _ _ _ _ _ _ _ Hd k o Hin) as [[Hk Ho] | [-> ->]];
      [left | right]; by split. }
  destruct c as [n sp ov | n sp ov | n r ov | n r ov | pr pl]; simpl.
  - destruct (define _ _ _ _ _ _) as [e|reg'] eqn:Hd; [discriminate |].
    intros [= <-] [] k o; simpl; intros Hin;
      try (left; split; [done | by intros ov' []]).
    destruct (Hdef _ _ _ _ _ _ _ k o Hd Hin) as [[Ho Hk] | [-> ->]].
    + left. split; [done |]. by intros ov' [? _].
    + right. split; [done |]. by exists ov.
  - destruct (define _ _ _ _ _ _) as [e|reg'] eqn:Hd; [discriminate |].
    intros [= <-] [] k o; simpl; intros Hin;
      try (left; split; [done | by intros ov' []]).
    destruct (Hdef _ _ _ _ _ _ _ k o Hd Hin) as [[Ho Hk] | [-> ->]].
    + left. split; [done |]. by intros ov' [? _].
    + right. split; [done |]. by exists ov.
  - destruct (define _ _ _ _ _ _) as [e|reg'] eqn:Hd; [discriminate |].
    intros [= <-] [] k o; simpl; intros Hin;
      try (left; split; [done | by intros ov' []]).
    destruct (Hdef _ _ _ _ _ _ _ k o Hd Hin) as [[Ho Hk] | [-> ->]].
    + left. split; [done |]. by intros ov' [? _].
    + right. split; [done |]. by exists ov.
  - destruct (define _ _ _ _ _ _) as [e|reg'] eqn:Hd; [discriminate |].
    intros [= <-] [] k o; simpl; intros Hin;
      try (left; split; [done | by intros ov' []]).
    destruct (Hdef _ _ _ _ _ _ _ k o Hd Hin) as [[Ho Hk] | [-> ->]].
    + left. split; [done |]. by intros ov' [? _].
    + right. split; [done |]. by exists ov.
  - intros [= <-] [] k o; simpl; intros Hin; left; (split; [done | by intros ov' []]).
Qed.

Lemma run_flat_app (b : Builder) (l1 l2 : list (Extension * BuilderCall)) :
  run_flat b (l1 ++ l2)
  = match run_flat b l1 with
    | inl e => inl e
    | inr b' => run_flat b' l2
    end.
Proof.
  revert b. induction l1 as [|[x c] l1 IH]; intros b; simpl; [done |].
  destruct (run_call (ext_name x) b c) as [e|b1]; [done | apply IH].
Qed.

Lemma run_calls_flat (x : Extension) (cs : list BuilderCall) (b : Builder) :
  run_calls (ext_name x) b cs = run_flat b ((fun c => (x, c)) <$> cs).
Proof.
  revert b. induction cs as [|c cs IH]; intros b; simpl; [done |].
  destruct (run_call (ext_name x) b c) as [e|b1]; [done | apply IH].
Qed.

(** The pass over the extensions is the pass over their calls. *)
Lemma run_extensions_flat (exts : list Extension) (b : Builder) :
  run_extensions b exts = run_flat b (all_calls exts).
Proof.
  revert b. induction exts as [|x exts IH]; intros b; simpl; [done |].
  rewrite run_flat_app, <- run_calls_flat.
  destruct (run_calls (ext_name x) b (ext_calls x)) as [e|b1]; [done | apply IH].
Qed.

(** A call of [all_calls] is a call of its extension, which is in the
    list. *)
Lemma all_calls_lookup (exts : list Extension) (m : nat) (x : Extension)
    (c : BuilderCall) :
  all_calls exts !! m = Some (x, c) ->
  c ∈ ext_calls x /\ exists a, exts !! a = Some x.
Proof.
  revert m. induction exts as [|x0 exts IH]; intros m; simpl; [done |].
  intros Hm. apply lookup_app_Some in Hm as [Hm | [_ Hm]].
  - apply list_lookup_fmap_Some in Hm as (c' & [= -> ->] & Hc).
    split; [by eapply list_elem_of_lookup_2 |]. by exists 0.
  - destruct (IH _ Hm) as [Hc [a Ha]]. split; [done |]. by exists (S a).
Qed.

(** [all_calls] keeps the order of the extensions. *)
Lemma all_calls_order (exts : list Extension) (m n : nat)
    (xa xb : Extension) (ca cb : BuilderCall) :
  m < n ->
  all_calls exts !! m = Some (xa, ca) -> all_calls exts !! n = Some (xb, cb) ->
  exists a b, a <= b /\ exts !! a = Some xa /\ exts !! b = Some xb.
Proof.
  revert m n. induction exts as [|x0 exts IH]; intros m n Hmn; simpl; [done |].
  intros Hm Hn.
  apply lookup_app_Some in Hm as [Hm | [Hlm Hm]];
    apply lookup_app_Some in Hn as [Hn | [Hln Hn]].
  - apply list_lookup_fmap_Some in Hm as (c1 & [= -> ->] & _).
    apply list_lookup_fmap_Some in Hn as (c2 & [= -> ->] & _).
    exists 0, 0. done.
  - apply list_lookup_fmap_Some in Hm as (c1 & [= -> ->] & _).
    destruct (all_calls_lookup _ _ _ _ Hn) as [_ [b Hb]].
    exists 0, (S b). split; [lia | done].
  - apply lookup_lt_Some in Hn. lia.
  - assert (m - length ((fun c => (x0, c)) <$> ext_calls x0)
            < n - length ((fun c => (x0, c)) <$> ext_calls x0)) as Hlt by lia.
    destruct (IH _ _ Hlt Hm Hn) as (a & b & Hab & Ha & Hb).
    exists (S a), (S b). split; [lia | done].
Qed.

(** What the pass over a sequence of calls has done when it returns, and
    which error it ends in.  When it returns, every owner in the builder
    is the extension of the last call that contributes the key, every key
    that a call contributes is in the builder, and no call met a key that
    was there without override.  An error is the first collision. *)
Lemma run_flat_spec (l : list (Extension * BuilderCall)) :
  match run_flat empty_builder l with
  | inr b =>
      (forall family k o, (k, o) ∈ owners family b ->
         exists m x c0 ov0,
           l !! m = Some (x, c0) /\ ext_name x = o
           /\ contributes family k ov0 c0
           /\ forall m' y c' ov', m < m' -> l !! m' = Some (y, c') ->
                ~ contributes family k ov' c')
      /\ (forall family k ov i y c', l !! i = Some (y, c') ->
            contributes family k ov c' -> k ∈ keys family b)
      /\ (forall i j y c' z c'' f k ov, i < j ->
            l !! j = Some (y, c') -> contributes f k false c' ->
            l !! i = Some (z, c'') -> ~ contributes f k ov c'')
  | inl e =>
      exists family key earlier later,
        e = NameCollision family key (ext_name earlier) (ext_name later)
        /\ first_collision l family key earlier later
  end.
Proof.
  induction l as [|[x c] l IH] using rev_ind.
  - simpl. split; [| split].
    + intros [] k o Hin; simpl in Hin; by apply elem_of_nil in Hin.
    + intros family k ov i y c' Hi. by rewrite lookup_nil in Hi.
    + intros i j y c' z c'' f k ov _ Hj. by rewrite lookup_nil in Hj.
  - rewrite run_flat_app. simpl.
    destruct (run_flat empty_builder l) as [e|b].
    + destruct IH as (family & key & earlier & later & -> & Hfirst).
      exists family, key, earlier, later. split; [done |].
      destruct Hfirst as (m & n & c0 & c1 & ov0 & Hmn & Hm & Hc0 & Hn & Hc1 & Hlast & Hcf).
      pose proof (lookup_lt_Some _ _ _ Hn) as Hlen.
      exists m, n, c0, c1, ov0. split; [done |].
      split; [by rewrite lookup_app_l by lia |]. split; [done |].
      split; [by rewrite lookup_app_l by lia |]. split; [done |]. split.
      * intros m' y c' ov' Hlt1 Hlt2 Hm'.
        rewrite lookup_app_l in Hm' by lia. by eapply Hlast.
      * intros i j y c' z c'' f k ov Hij Hjn Hj Hcj Hi.
        rewrite lookup_app_l in Hj by lia. rewrite lookup_app_l in Hi by lia.
        exact (Hcf i j y c' z c'' f k ov Hij Hjn Hj Hcj Hi).
    + destruct IH as (Hinv & Hkeys & Hcf).
      pose proof (run_call_spec (ext_name x) b c) as Hspec.
      destruct (run_call (ext_name x) b c) as [e|b'] eqn:Hrun.
      * destruct Hspec as (family & key & owner & -> & Hcon & Hown).
        destruct (Hinv _ _ _ Hown) as (m & x0 & c0 & ov0 & Hm & <- & Hc0 & Hlast).
        pose proof (lookup_lt_Some _ _ _ Hm) as Hlen.
        exists family, key, x0, x. split; [done |].
        exists m, (length l), c0, c, ov0. split; [done |].
        split; [by rewrite lookup_app_l by lia |]. split; [done |].
        split; [by apply list_lookup_middle |]. split; [done |]. split.
        -- intros m' y c' ov' Hlt1 Hlt2 Hm'.
           rewrite lookup_app_l in Hm' by lia. by eapply Hlast.
        -- intros i j y c' z c'' f k ov Hij Hjn Hj Hcj Hi.
           rewrite lookup_app_l in Hj by lia. rewrite lookup_app_l in Hi by lia.
           exact (Hcf i j y c' z c'' f k ov Hij Hj Hcj Hi).
      * destruct Hspec as (Hmono & Hnew & _).
        split; [| split].
        -- intros family k o Hin.
           destruct (run_call_owner _ _ _ _ Hrun family k o Hin)
             as [[Hold Hnot] | [-> [ov Hcon]]].
           ++ destruct (Hinv _ _ _ Hold) as (m & x0 & c0 & ov0 & Hm & Hname & Hc0 & Hlast).
              pose proof (lookup_lt_Some _ _ _ Hm) as Hlen.
              exists m, x0, c0, ov0.
              split; [by rewrite lookup_app_l by lia |]. split; [done |].
              split; [done |]. intros m' y c' ov' Hlt Hm'.
              apply lookup_app_Some in Hm' as [Hm' | [Hge Hm']]; [by eapply Hlast |].
              apply list_lookup_singleton_Some in Hm' as [_ [= <- <-]]. apply Hnot.
           ++ exists (length l), x, c, ov.
              split; [by apply list_lookup_middle |]. split; [done |].
              split; [done |]. intros m' y c' ov' Hlt Hm'.
              apply lookup_lt_Some in Hm'. rewrite length_app in Hm'. simpl in Hm'. lia.
        -- intros family k ov i y c' Hi Hcon.
           apply lookup_app_Some in Hi as [Hi | [Hge Hi]].
           ++ apply Hmono. by eapply Hkeys.
           ++ apply list_lookup_singleton_Some in Hi as [_ [= <- <-]].
              by apply (Hnew family k ov).
        -- intros i j y c' z c'' f k ov Hij Hj Hcj Hi Hci.
           apply lookup_app_Some in Hj as [Hj | [Hge Hj]].
           ++ pose proof (lookup_lt_Some _ _ _ Hj) as Hlen.
              rewrite lookup_app_l in Hi by lia.
              exact (Hcf i j y c' z c'' f k ov Hij Hj Hcj Hi Hci).
           ++ apply list_lookup_singleton_Some in Hj as [Hj0 [= <- <-]].
              rewrite lookup_app_l in Hi by lia.
              destruct (Hnew f k false Hcj) as [_ Hov].
              by specialize (Hov (Hkeys _ _ _ _ _ _ Hi Hci)).
Qed.

(** A call contributes one key of one family. *)
Lemma contributes_functional (c : BuilderCall) (f f' : Family) (k k' : string)
    (ov ov' : bool) :
  contributes f k ov c -> contributes f' k' ov' c -> f = f' /\ k = k'.
Proof.
  destruct c, f, f'; simpl; try done; by intros [<- _] [<- _].
Qed.

(** A sequence of calls has one first collision at most: the family, the
    key and the two extensions are determined. *)
Lemma first_collision_unique (l : list (Extension * BuilderCall))
    (f f' : Family) (k k' : string) (e e' x x' : Extension) :
  first_collision l f k e x -> first_collision l f' k' e' x' ->
  f = f' /\ k = k' /\ e = e' /\ x = x'.
Proof.
  intros (m & n & c0 & c & ov0 & Hmn & Hm & Hc0 & Hn & Hc & Hlast & Hcf)
         (m' & n' & c0' & c' & ov0' & Hmn' & Hm' & Hc0' & Hn' & Hc' & Hlast' & Hcf').
  assert (n = n') as <-.
  { destruct (Nat.lt_total n n') as [Hlt | [Heq | Hlt]]; [| done |].
    - destruct (Hcf' m n x c e c0 f k ov0 Hmn Hlt Hn Hc Hm Hc0).
    - destruct (Hcf m' n' x' c' e' c0' f' k' ov0' Hmn' Hlt Hn' Hc' Hm' Hc0'). }
  rewrite Hn in Hn'. injection Hn' as <- <-.
  destruct (contributes_functional c f f' k k' false false Hc Hc') as [<- <-].
  assert (m = m') as <-.
  { destruct (Nat.lt_total m m') as [Hlt | [Heq | Hlt]]; [| done |].
    - destruct (Hlast m' e' c0' ov0' Hlt Hmn' Hm' Hc0').
    - destruct (Hlast' m e c0 ov0 Hlt Hmn Hm Hc0). }
  rewrite Hm in Hm'. by injection Hm' as <- _.
Qed.

(** Two extensions that define the same node-type name, the later one
    without the override marker: the composition ends in an error, and the
    error is the first collision of the calls of the extensions; the two
    extensions that it names contribute the key, the second one without
    override, and stand in the list in this order. *)
Lemma process_duplicate_node_name (exts : list Extension)
    (options : ParserOptions)
    (dynamicModifiers : option (DynamicModifierSet TypeSpec ParserHandler SerializerHandler))
    (i j : nat) (xi xj : Extension) (name : string) (ov : bool) :
  i < j -> exts !! i = Some xi -> exts !! j = Some xj ->
  ext_contributes NodeTypeName name ov xi ->
  ext_contributes NodeTypeName name false xj ->
  exists family key earlier later,
    process exts options dynamicModifiers
      = inl (NameCollision family key (ext_name earlier) (ext_name later))
    /\ earlier ∈ exts /\ later ∈ exts
    /\ (exists o, ext_contributes family key o earlier)
    /\ ext_contributes family key false later
    /\ first_collision (all_calls exts) family key earlier later
    /\ exists a b, a <= b /\ exts !! a = Some earlier /\ exts !! b = Some later.
Proof.
  intros Hij Hi Hj Hci Hcj. unfold process.
  pose proof (run_extensions_spec exts empty_builder) as Hrun.
  pose proof (run_flat_spec (all_calls exts)) as Hflat.
  rewrite <- run_extensions_flat in Hflat.
  destruct (run_extensions empty_builder exts) as [e|b].
  - destruct Hflat as (family & key & earlier & later & -> & Hfirst).
    exists family, key, earlier, later. split; [done |].
    pose proof Hfirst as
      (m & n & c0 & c & ov0 & Hmn & Hm & Hc0 & Hn & Hc & _ & _).
    destruct (all_calls_lookup _ _ _ _ Hm) as [Hin0 [a0 Ha0]].
    destruct (all_calls_lookup _ _ _ _ Hn) as [Hin1 [b0 Hb0]].
    split; [by eapply list_elem_of_lookup_2 |].
    split; [by eapply list_elem_of_lookup_2 |].
    split; [exists ov0, c0; by split |].
    split; [exists c; by split |].
    split; [done |].
    by apply (all_calls_order exts m n earlier later c0 c).
  - destruct Hrun as (_ & _ & Hpair).
    destruct (Hpair NodeTypeName name i j xi xj ov Hij Hi Hj Hci Hcj).
Qed.

(** Without a patch every handler resolves to itself. *)
Lemma apply_modifier_nil {V} (reg : Registry V) : apply_modifier [] reg = reg.
Proof.
  unfold apply_modifier. induction reg as [|[k [o v]] reg IH]; [done |].
  rewrite fmap_cons, IH. reflexivity.
Qed.

(** Modifiers keep the keys of a family and their order. *)
Lemma apply_modifier_keys {V} (patches : list (string * (V -> V))) (reg : Registry V) :
  (apply_modifier patches reg).*1 = reg.*1.
Proof.
  unfold apply_modifier. rewrite <- list_fmap_compose. by apply list_fmap_ext.
Qed.

Lemma process_empty_modifiers (exts : list Extension) (options : ParserOptions) :
  process exts options
    (Some {| dm_schema := []; dm_parser := []; dm_serializer := [] |})
  = process exts options None.
Proof.
  unfold process. destruct (run_extensions empty_builder exts) as [e|b]; [done |].
  unfold finish. simpl. rewrite !apply_modifier_nil. reflexivity.
Qed.

End Composition.

End ExtensionsManagerProofs.

(** * Properties of the placeholder extension *)

Module PlaceholderProofs.
Import PM PMState PMUtils Placeholder.

Section WithUtils.
Context {utils : Utils}.

Lemma addDecoration_preserves (st : DecoState) (node : Node) (p0 : nat)
    (parent : option Node) (cursorPos : option nat) (p : nat)
    (v : WidgetSpec + PluginKey) :
  widgetsMap st !! p = Some v ->
  widgetsMap (addDecoration st node p0 parent cursorPos) !! p = Some v.
Proof.
  intros Hp. unfold addDecoration.
  destruct (placeholder (spec (type node))) as [ps|]; [| done].
  case_bool_decide as Hocc; [done |].
  assert (p0 + childCount node + 1 <> p) as Hne.
  { intros <-. apply Hocc. by exists v. }
  destruct (customPlugin ps) as [key|]; simpl.
  - by rewrite lookup_insert_ne.
  - destruct (createPlaceholder _ _ _ _) as [[dom|] heap']; simpl; [| done].
    by rewrite lookup_insert_ne.
Qed.

Lemma addDecoration_keyed (st : DecoState) (node : Node) (p0 : nat)
    (parent : option Node) (cursorPos : option nat) :
  keyed (widgetsMap st) ->
  keyed (widgetsMap (addDecoration st node p0 parent cursorPos)).
Proof.
  intros Hk. unfold addDecoration.
  destruct (placeholder (spec (type node))) as [ps|]; [| done].
  case_bool_decide as Hocc; [done |].
  destruct (customPlugin ps) as [key|]; simpl.
  - intros k w. rewrite lookup_insert. case_decide; [done | apply Hk].
  - destruct (createPlaceholder _ _ _ _) as [[dom|] heap']; simpl; [| done].
    intros k w. rewrite lookup_insert. case_decide as Hd; [| apply Hk].
    intros Heq. injection Heq as Heq. by rewrite <- Heq.
Qed.

Lemma recordCustom_keyed (state : EditorState) (m : WidgetsMap) (f : PluginKey) :
  keyed m -> keyed (recordCustom state m f).
Proof.
  unfold recordCustom. destruct (getState state f) as [specs|]; [| done].
  revert m. induction specs as [|sp specs IH]; intros m Hk; simpl; [done |].
  apply IH. intros k w. rewrite lookup_insert. case_decide; [done | apply Hk].
Qed.

Lemma decorate_keyed (cursorPos : option nat) (st : DecoState) (v : Visit) :
  keyed (widgetsMap st) -> keyed (widgetsMap (decorate cursorPos st v)).
Proof.
  intros Hk. unfold decorate.
  destruct (placeholder (spec (type (v_node v)))) as [ps|]; [| done].
  destruct (alwaysVisible ps && placeholderNeeded (v_node v)); [| done].
  by apply addDecoration_keyed.
Qed.

Lemma decorateCursorParent_keyed (state : EditorState) (cursorPos : option nat)
    (st : DecoState) :
  keyed (widgetsMap st) ->
  keyed (widgetsMap (decorateCursorParent state cursorPos st)).
Proof.
  intros Hk. unfold decorateCursorParent.
  destruct (findParentNodeClosestToPos _ _) as [pn|]; [| done].
  destruct (placeholder (spec (type (pn_node pn)))) as [ps|]; [| done].
  destruct (placeholderNeeded (pn_node pn) && negb (alwaysVisible ps)); [| done].
  by apply addDecoration_keyed.
Qed.

Lemma placeholderDecoState_keyed (state : EditorState) (heap0 : nat) :
  keyed (widgetsMap (placeholderDecoState state heap0)).
Proof.
  unfold placeholderDecoState. apply decorateCursorParent_keyed.
  match goal with
  | |- keyed (widgetsMap (foldl _ ?st0 ?vs)) =>
      assert (keyed (widgetsMap st0)) as Hk0; [| generalize Hk0; generalize st0; generalize vs]
  end.
  - simpl. generalize (getPlaceholderPluginKeys (schema state)).
    intros keys.
    assert (keyed (∅ : WidgetsMap)) as He by (intros k w; by rewrite lookup_empty).
    revert He. generalize (∅ : WidgetsMap).
    induction keys as [|f keys IH]; intros m Hm; simpl; [done |].
    apply IH. by apply recordCustom_keyed.
  - intros vs. induction vs as [|v vs IH]; intros st Hk; simpl; [done |].
    apply IH. by apply decorate_keyed.
Qed.

Lemma widgetSpecs_NoDup_aux (l : list (nat * (WidgetSpec + PluginKey))) :
  NoDup l.*1 ->
  (forall k w, (k, inl w) ∈ l -> pos w = k) ->
  NoDup (pos <$> omap (fun v => match v with inl w => Some w | inr _ => None end) l.*2).
Proof.
  induction l as [|[k v] l IH]; intros Hnd Hk; simpl; [constructor |].
  rewrite fmap_cons in Hnd. apply NoDup_cons in Hnd as [Hnotin Hnd].
  assert (NoDup (pos <$> omap (fun v => match v with inl w => Some w | inr _ => None end)
                   l.*2)) as IH'.
  { apply IH; [done |]. intros k' w' Hin. apply Hk. by right. }
  destruct v as [w|key]; simpl; [| done].
  apply NoDup_cons. split; [| done].
  intros Hin. apply list_elem_of_fmap in Hin as (w' & Hpos & Hw').
  apply list_elem_of_omap in Hw' as (v' & Hv' & Hsel).
  destruct v' as [w''|]; [| done]. injection Hsel as ->.
  apply list_elem_of_fmap in Hv' as ([k' v'] & Hv & Hkv). simpl in Hv. subst v'.
  apply Hnotin. simpl.
  assert (pos w = k) as <- by (apply Hk; by left).
  assert (pos w' = k') as Hk' by (apply Hk; by right).
  rewrite Hpos, Hk'. apply list_elem_of_fmap. by exists (k', inl w').
Qed.

Lemma widgetSpecs_of_NoDup (m : WidgetsMap) :
  keyed m -> NoDup (pos <$> widgetSpecs_of m).
Proof.
  intros Hk. unfold widgetSpecs_of, Object_values.
  apply widgetSpecs_NoDup_aux.
  - rewrite merge_sort_Permutation. apply NoDup_fst_map_to_list.
  - intros k w Hin. apply Hk.
    rewrite merge_sort_Permutation in Hin.
    by apply elem_of_map_to_list in Hin.
Qed.

Lemma widgetSpecs_of_elem (m : WidgetsMap) (w : WidgetSpec) :
  w ∈ widgetSpecs_of m <-> exists k, m !! k = Some (inl w).
Proof.
  unfold widgetSpecs_of, Object_values. rewrite list_elem_of_omap. split.
  - intros (v & Hv & Hsel). destruct v as [w'|]; [| done]. injection Hsel as ->.
    apply list_elem_of_fmap in Hv as ([k v] & Hv & Hkv). simpl in Hv. subst v.
    rewrite merge_sort_Permutation in Hkv. exists k.
    by apply elem_of_map_to_list in Hkv.
  - intros (k & Hk). exists (inl w). split; [| done].
    apply list_elem_of_fmap. exists (k, inl w). split; [done |].
    rewrite merge_sort_Permutation. by apply elem_of_map_to_list.
Qed.

(** A descendant whose placeholder is always visible takes the
    placeholder of the node away. *)
Lemma placeholderNeeded_child (node : Node) (child : Visit) :
  child ∈ descendants node ->
  has_alwaysVisible (v_node child) = true ->
  placeholderNeeded node = false.
Proof.
  intros Hin Hav. unfold placeholderNeeded.
  apply andb_false_iff. right. apply negb_false_iff, bool_decide_eq_true.
  assert (child ∈ findChildren node has_alwaysVisible) as Hc.
  { unfold findChildren. apply list_elem_of_filter. done. }
  intros Hlen. apply length_zero_iff_nil in Hlen. rewrite Hlen in Hc.
  by apply elem_of_nil in Hc.
Qed.

Lemma decorate_suppressed (cursorPos : option nat) (st : DecoState) (v child : Visit) :
  child ∈ descendants (v_node v) ->
  has_alwaysVisible (v_node child) = true ->
  decorate cursorPos st v = st.
Proof.
  intros Hin Hav. unfold decorate.
  destruct (placeholder (spec (type (v_node v)))) as [ps|]; [| done].
  rewrite (placeholderNeeded_child _ child Hin Hav), andb_false_r. done.
Qed.

Lemma decorateCursorParent_suppressed (state : EditorState)
    (cursorPos : option nat) (st : DecoState) (pn : ParentNode) (child : Visit) :
  findParentNodeClosestToPos (sel_from (selection state))
    (fun node => bool_decide (is_Some (placeholder (spec (type node))))) = Some pn ->
  child ∈ descendants (pn_node pn) ->
  has_alwaysVisible (v_node child) = true ->
  decorateCursorParent state cursorPos st = st.
Proof.
  intros Hpn Hin Hav. unfold decorateCursorParent. rewrite Hpn.
  destruct (placeholder (spec (type (pn_node pn)))) as [ps|]; [| done].
  rewrite (placeholderNeeded_child _ child Hin Hav). done.
Qed.

(** An always-visible placeholder that is needed is placed at its
    position when the position is free and there is a content. *)
Lemma decorate_places (cursorPos : option nat) (st : DecoState) (v : Visit)
    (ps : PlaceholderSpec) (c : string) :
  placeholder (spec (type (v_node v))) = Some ps ->
  alwaysVisible ps = true -> customPlugin ps = None ->
  placeholderNeeded (v_node v) = true ->
  widgetsMap st !! (v_pos v + childCount (v_node v) + 1) = None ->
  getPlaceholderContent (v_node v) (Some (v_parent v)) = Some c -> c <> ""%string ->
  exists w,
    widgetsMap (decorate cursorPos st v) !! (v_pos v + childCount (v_node v) + 1)
      = Some (inl w)
    /\ pos w = v_pos v + childCount (v_node v) + 1
    /\ dom_textContent (toDOM w) = c.
Proof.
  intros Hps Hav Hcp Hneed Hfree Hcontent Hc.
  unfold decorate. rewrite Hps, Hav, Hneed. simpl.
  unfold addDecoration. rewrite Hps, Hcp.
  rewrite bool_decide_eq_false_2; [| rewrite Hfree; by intros [? ?]].
  unfold createPlaceholder. rewrite Hcontent.
  destruct (decide (c = ""%string)); [done |]. simpl.
  eexists. rewrite lookup_insert_eq. split; [done |]. split; done.
Qed.

(** ** The diff of [applyState] *)

Lemma filter_ext_elem {A} (P Q : A -> Prop) `{forall x, Decision (P x)}
    `{forall x, Decision (Q x)} (l : list A) :
  (forall x, x ∈ l -> (P x <-> Q x)) -> filter P l = filter Q l.
Proof.
  induction l as [|x l IH]; intros Hpq; [done |].
  rewrite !filter_cons.
  assert (P x <-> Q x) as Hx by (apply Hpq; by left).
  rewrite IH by (intros y Hy; apply Hpq; by right).
  destruct (decide (P x)), (decide (Q x)); tauto.
Qed.

Lemma filter_all {A} (P : A -> Prop) `{forall x, Decision (P x)} (l : list A) :
  (forall x, x ∈ l -> P x) -> filter P l = l.
Proof.
  induction l as [|x l IH]; intros Hp; [done |].
  rewrite filter_cons_True by (apply Hp; by left).
  rewrite IH; [done |]. intros y Hy. apply Hp. by right.
Qed.

Lemma NoDup_fmap_eq {A B} (f : A -> B) (l : list A) (x y : A) :
  NoDup (f <$> l) -> x ∈ l -> y ∈ l -> f x = f y -> x = y.
Proof.
  induction l as [|a l IH]; intros Hnd Hx Hy Hf; [by apply elem_of_nil in Hx |].
  rewrite fmap_cons in Hnd. apply NoDup_cons in Hnd as [Ha Hnd].
  apply elem_of_cons in Hx as [-> | Hx]; apply elem_of_cons in Hy as [-> | Hy].
  - done.
  - exfalso. apply Ha. rewrite Hf. by apply list_elem_of_fmap_2.
  - exfalso. apply Ha. rewrite <- Hf. by apply list_elem_of_fmap_2.
  - by apply IH.
Qed.

(** Remapped decorations are widgets: [from = to]. *)
Lemma DecorationSet_map_widget (set : DecorationSet) (mapResult : nat -> MapResult)
    (doc : Node) (d : Decoration) :
  d ∈ DecorationSet_map set mapResult doc -> from d = to d.
Proof.
  unfold DecorationSet_map. rewrite list_elem_of_omap.
  intros (d0 & _ & Hd). unfold Decoration_map in Hd.
  destruct (mr_deleted _); [done |]. by injection Hd as <-.
Qed.

Lemma DecorationSet_map_elem (set : DecorationSet) (mapResult : nat -> MapResult)
    (doc : Node) (d : Decoration) :
  d ∈ set -> mr_deleted (mapResult (from d)) = false ->
  {| from := mr_pos (mapResult (from d)); to := mr_pos (mapResult (from d));
     d_toDOM := d_toDOM d; d_spec := d_spec d |}
    ∈ DecorationSet_map set mapResult doc.
Proof.
  intros Hd Hdel. unfold DecorationSet_map. apply list_elem_of_omap.
  exists d. split; [done |]. unfold Decoration_map. by rewrite Hdel.
Qed.

Lemma DecorationSet_find_elem (set : DecorationSet) (p : nat) (d : Decoration) :
  (forall x, x ∈ set -> from x = to x) ->
  d ∈ DecorationSet_find set p p <-> d ∈ set /\ from d = p.
Proof.
  intros Hw. unfold DecorationSet_find. rewrite list_elem_of_filter. split.
  - intros [[H1 H2] Hd]. split; [done |]. rewrite <- (Hw d Hd) in H2. lia.
  - intros [Hd <-]. split; [| done]. rewrite <- (Hw d Hd). lia.
Qed.

(** What the [reduce] collects, whatever it started from. *)
Lemma decorationsThatDidNotChange_elem (set : DecorationSet) (ws : list WidgetSpec)
    (d : Decoration) :
  d ∈ decorationsThatDidNotChange set ws <->
  exists w d0 rest,
    w ∈ ws /\ DecorationSet_find set (pos w) (pos w) = d0 :: rest
    /\ d_spec d0 = wspec w /\ d ∈ d0 :: rest.
Proof.
  unfold decorationsThatDidNotChange.
  match goal with |- d ∈ foldl ?f [] ws <-> ?R =>
    assert (forall acc, d ∈ foldl f acc ws <-> d ∈ acc \/ R) as Hgen
  end.
  { induction ws as [|w ws IH]; intros acc; simpl.
    - split; [by left |]. intros [|(w & d0 & rest & Hw & _)]; [done |].
      by apply elem_of_nil in Hw.
    - rewrite IH. clear IH.
      destruct (DecorationSet_find set (pos w) (pos w)) as [|d0 rest] eqn:Hfind.
      + split.
        * intros [|(w' & d0 & rest & Hw' & Hrest)]; [by left | right].
          exists w', d0, rest. split; [by right | done].
        * intros [|(w' & d0 & rest & Hw' & Hf & Hrest)]; [by left | right].
          apply elem_of_cons in Hw' as [-> | Hw']; [congruence |].
          by exists w', d0, rest.
      + destruct (decide (d_spec d0 = wspec w)) as [Heq | Hne].
        * split.
          -- intros [Hacc | (w' & d1 & rest' & Hw' & Hrest)].
             ++ apply elem_of_app in Hacc as [|Hin]; [by left | right].
                exists w, d0, rest. split; [by left | done].
             ++ right. exists w', d1, rest'. split; [by right | done].
          -- intros [|(w' & d1 & rest' & Hw' & Hf & Hs & Hin)].
             ++ left. apply elem_of_app. by left.
             ++ apply elem_of_cons in Hw' as [-> | Hw'].
                ** left. apply elem_of_app. right. congruence.
                ** right. by exists w', d1, rest'.
        * split.
          -- intros [|(w' & d1 & rest' & Hw' & Hrest)]; [by left | right].
             exists w', d1, rest'. split; [by right | done].
          -- intros [|(w' & d1 & rest' & Hw' & Hf & Hs & Hin)]; [by left | right].
             apply elem_of_cons in Hw' as [-> | Hw']; [congruence |].
             by exists w', d1, rest'. }
  rewrite Hgen. split; [intros [Hnil|]; [by apply elem_of_nil in Hnil | done] | by right].
Qed.

(** With at most one decoration per position, the decorations that did not
    change are those of the set that some desired widget equals in position
    and payload. *)
Lemma decorationsThatDidNotChange_NoDup (set : DecorationSet) (ws : list WidgetSpec)
    (d : Decoration) :
  NoDup (from <$> set) ->
  (forall x, x ∈ set -> from x = to x) ->
  d ∈ decorationsThatDidNotChange set ws <->
  d ∈ set /\ exists w, w ∈ ws /\ same_widget d w.
Proof.
  intros Hnd Hwid. rewrite decorationsThatDidNotChange_elem. split.
  - intros (w & d0 & rest & Hw & Hfind & Hspec & Hd).
    rewrite <- Hfind in Hd.
    assert (d0 ∈ DecorationSet_find set (pos w) (pos w)) as Hd0
      by (rewrite Hfind; by left).
    apply DecorationSet_find_elem in Hd as [Hd Hp]; [| done].
    apply DecorationSet_find_elem in Hd0 as [Hd0 Hp0]; [| done].
    assert (d0 = d) as ->
      by (apply (NoDup_fmap_eq from set d0 d Hnd Hd0 Hd); congruence).
    split; [done |]. by exists w.
  - intros (Hd & w & Hw & Hp & Hspec).
    assert (d ∈ DecorationSet_find set (pos w) (pos w)) as Hin
      by (by apply DecorationSet_find_elem).
    destruct (DecorationSet_find set (pos w) (pos w)) as [|d0 rest] eqn:Hfind;
      [by apply elem_of_nil in Hin |].
    assert (d0 ∈ DecorationSet_find set (pos w) (pos w)) as Hd0
      by (rewrite Hfind; by left).
    apply DecorationSet_find_elem in Hd0 as [Hd0 Hp0]; [| done].
    assert (d0 = d) as ->
      by (apply (NoDup_fmap_eq from set d0 d Hnd Hd0 Hd); congruence).
    by exists w, d, rest.
Qed.

(** The new set of [applyState]: the remapped decorations that did not
    change, in their order, then the widgets that are new. *)
Lemma applyState_decorationSet (tr : Transaction) (ps : PlaceholderPluginState)
    (oldState newState : EditorState) (heap0 : nat) :
  let ws := (getPlaceholderWidgetSpecs newState heap0).1.1 in
  let old := oldMappedSet_of tr ps in
  let unchanged := decorationsThatDidNotChange old ws in
  decorationSet (applyState tr ps oldState newState heap0).1
  = filter (fun d => d ∈ unchanged) old
    ++ ((fun w => Decoration_widget (pos w) (toDOM w) (wspec w))
        <$> filter (fun w => pos w ∉ (from <$> unchanged)) ws).
Proof.
  intros ws old unchanged. unfold applyState.
  subst ws. destruct (getPlaceholderWidgetSpecs newState heap0) as [[ws hf] h1].
  simpl in *. fold (oldMappedSet_of tr ps). fold old. fold unchanged.
  unfold DecorationSet_find_all, DecorationSet_add, DecorationSet_remove.
  match goal with
  | |- context [(if ?c then ?a else old) ++ _] =>
      assert ((if c then a else old) = filter (fun d => d ∈ unchanged) old) as ->
  end.
  { case_bool_decide as Hlen.
    - apply filter_ext_elem. intros x Hx. rewrite list_elem_of_filter.
      destruct (decide (x ∈ unchanged)); tauto.
    - assert (filter (fun d => d ∉ unchanged) old = []) as Hnil.
      { apply length_zero_iff_nil. destruct (length _); [done |]. by destruct Hlen. }
      symmetry. apply filter_all. intros x Hx.
      destruct (decide (x ∈ unchanged)) as [|Hn]; [done |].
      exfalso. eapply (filter_nil_not_elem_of _ _ x Hnil); done. }
  case_bool_decide as Hlen; [done |].
  assert (filter (fun w => pos w ∉ (from <$> unchanged)) ws = []) as ->.
  { apply length_zero_iff_nil. destruct (length _); [done |]. by destruct Hlen. }
  by rewrite app_nil_r.
Qed.

Lemma addDecoration_fresh (h0 : nat) (st : DecoState) (node : Node) (p0 : nat)
    (parent : option Node) (cursorPos : option nat) :
  fresh h0 st -> fresh h0 (addDecoration st node p0 parent cursorPos).
Proof.
  intros [Hh Hf]. unfold addDecoration.
  destruct (placeholder (spec (type node))) as [ps|]; [| done].
  case_bool_decide as Hocc; [done |].
  destruct (customPlugin ps) as [key|]; simpl.
  - split; [done |]. simpl. intros k w. rewrite lookup_insert.
    case_decide; [done | apply Hf].
  - unfold createPlaceholder.
    destruct (getPlaceholderContent node parent) as [c|]; [| done].
    destruct (decide (c = ""%string)); [done |]. simpl.
    split; simpl; [lia |]. intros k w. rewrite lookup_insert.
    case_decide.
    + intros Heq. injection Heq as <-. simpl. lia.
    + intros Hk. destruct (Hf k w Hk). lia.
Qed.

Lemma placeholderDecoState_fresh (state : EditorState) (heap0 : nat) :
  fresh heap0 (placeholderDecoState state heap0).
Proof.
  unfold placeholderDecoState.
  match goal with
  | |- fresh _ (decorateCursorParent _ _ (foldl _ ?st0 ?vs)) =>
      assert (fresh heap0 st0) as H0;
      [| assert (fresh heap0 (foldl (decorate
           (if isTextSelection (selection state)
            then rp_pos <$> sel_cursor (selection state) else None)) st0 vs)) as H1]
  end.
  - split; simpl; [done |].
    generalize (getPlaceholderPluginKeys (schema state)). intros keys.
    assert (forall k w, (∅ : WidgetsMap) !! k <> Some (inl w)) as He
      by (intros k w; by rewrite lookup_empty).
    revert He. generalize (∅ : WidgetsMap).
    induction keys as [|f keys IH]; intros m Hm k w Hk; simpl in Hk;
      [by destruct (Hm k w) |].
    eapply IH; [| exact Hk]. clear -Hm. unfold recordCustom.
    destruct (getState state f) as [specs|]; [| done].
    revert m Hm. induction specs as [|sp specs IH]; intros m Hm; simpl; [done |].
    apply IH. intros k w. rewrite lookup_insert. case_decide; [done | apply Hm].
  - revert H0.
    match goal with |- fresh _ ?st0 -> fresh _ (foldl ?f ?st0 ?vs) =>
      generalize st0; generalize vs end.
    intros vs. induction vs as [|v vs IH]; intros st Hst; simpl; [done |].
    apply IH. unfold decorate.
    destruct (placeholder (spec (type (v_node v)))) as [ps|]; [| done].
    destruct (alwaysVisible ps && placeholderNeeded (v_node v)); [| done].
    by apply addDecoration_fresh.
  - unfold decorateCursorParent.
    destruct (findParentNodeClosestToPos _ _) as [pn|]; [| done].
    destruct (placeholder (spec (type (pn_node pn)))) as [ps|]; [| done].
    destruct (placeholderNeeded (pn_node pn) && negb (alwaysVisible ps)); [| done].
    by apply addDecoration_fresh.
Qed.

Lemma getPlaceholderWidgetSpecs_fresh (state : EditorState) (heap0 : nat)
    (w : WidgetSpec) :
  w ∈ (getPlaceholderWidgetSpecs state heap0).1.1 -> heap0 <= dom_ref (toDOM w).
Proof.
  unfold getPlaceholderWidgetSpecs. simpl. rewrite widgetSpecs_of_elem.
  intros (k & Hk).
  by destruct (proj2 (placeholderDecoState_fresh state heap0) k w Hk).
Qed.

(** A mapping that sends the surviving positions of the set to different
    positions keeps "at most one decoration per position". *)
Lemma DecorationSet_map_NoDup (set : DecorationSet) (mapResult : nat -> MapResult)
    (doc : Node) :
  NoDup (from <$> set) ->
  (forall x y, x ∈ set -> y ∈ set ->
     mr_deleted (mapResult (from x)) = false ->
     mr_deleted (mapResult (from y)) = false ->
     mr_pos (mapResult (from x)) = mr_pos (mapResult (from y)) ->
     from x = from y) ->
  NoDup (from <$> DecorationSet_map set mapResult doc).
Proof.
  unfold DecorationSet_map.
  induction set as [|d set IH]; intros Hnd Hinj; [constructor |].
  rewrite fmap_cons in Hnd. apply NoDup_cons in Hnd as [Hd Hnd].
  assert (NoDup (from <$> omap (Decoration_map mapResult) set)) as IH'.
  { apply IH; [done |]. intros x y Hx Hy. apply Hinj; by right. }
  simpl. unfold Decoration_map at 1.
  destruct (mr_deleted (mapResult (from d))) eqn:Hdel; [done |].
  rewrite fmap_cons. apply NoDup_cons. split; [| done]. simpl.
  intros Hin. apply list_elem_of_fmap in Hin as (y' & Hp & Hy').
  apply list_elem_of_omap in Hy' as (y & Hy & Hmap).
  unfold Decoration_map in Hmap.
  destruct (mr_deleted (mapResult (from y))) eqn:Hdely; [done |].
  injection Hmap as <-. simpl in Hp.
  apply Hd. rewrite (Hinj d y); [by apply list_elem_of_fmap_2 | by left | by right | done..].
Qed.

(** C5: [applyState] keeps every remapped decoration that a desired widget
    equals in position and payload, as the object it was: it is in the new
    set, it is the only decoration at its position, and the element that
    was created for the desired widget is not used.  Only remapped
    decorations that no desired widget equals are removed, only desired
    widgets that no remapped decoration equals are added, and the new set
    again has at most one decoration per position.  This is for a remapped
    set with at most one decoration per position. *)
Theorem applyState_decoration_stable (tr : Transaction) (ps : PlaceholderPluginState)
    (oldState newState : EditorState) (heap0 : nat) :
  let ws := (getPlaceholderWidgetSpecs newState heap0).1.1 in
  let old := oldMappedSet_of tr ps in
  let new := decorationSet (applyState tr ps oldState newState heap0).1 in
  NoDup (from <$> old) ->
  (forall d : Decoration,
      d ∈ decorationSet ps ->
      mr_deleted (tr_mapResult tr (from d)) = false ->
      let d' := {| from := mr_pos (tr_mapResult tr (from d));
                   to := mr_pos (tr_mapResult tr (from d));
                   d_toDOM := d_toDOM d; d_spec := d_spec d |} in
      (exists w, w ∈ ws /\ same_widget d' w) ->
      d' ∈ new
      /\ (forall x, x ∈ new -> from x = from d' -> x = d')
      /\ (dom_ref (d_toDOM d) < heap0 -> forall w, w ∈ ws -> d_toDOM d' <> toDOM w))
  /\ (forall x, x ∈ old -> x ∉ new -> ~ exists w, w ∈ ws /\ same_widget x w)
  /\ (forall x, x ∈ new -> x ∉ old ->
        exists w, w ∈ ws
                  /\ x = Decoration_widget (pos w) (toDOM w) (wspec w)
                  /\ ~ exists y, y ∈ old /\ same_widget y w)
  /\ NoDup (from <$> new).
Proof.
  intros ws old new Hnd.
  assert (forall x, x ∈ old -> from x = to x) as Hwid.
  { intros x Hx. exact (DecorationSet_map_widget _ _ (tr_doc tr) x Hx). }
  pose proof (decorationsThatDidNotChange_NoDup old ws) as Hdnc.
  assert (forall x, x ∈ new <->
            (x ∈ old /\ x ∈ decorationsThatDidNotChange old ws)
            \/ exists w, w ∈ ws
                         /\ (pos w ∉ (from <$> decorationsThatDidNotChange old ws))
                         /\ x = Decoration_widget (pos w) (toDOM w) (wspec w)) as Hnew.
  { intros x. subst new. rewrite applyState_decorationSet.
    rewrite elem_of_app, list_elem_of_filter, list_elem_of_fmap.
    split; (intros [Hk | (w & H1 & H2)]; [left; tauto | right; exists w]).
    - apply list_elem_of_filter in H2. tauto.
    - split; [tauto |]. apply list_elem_of_filter. tauto. }
  assert (forall w, w ∈ ws ->
            pos w ∉ (from <$> decorationsThatDidNotChange old ws) <->
            ~ exists y, y ∈ old /\ same_widget y w) as Hadd.
  { intros w Hw. split.
    - intros Hnot (y & Hy & Hsame). apply Hnot.
      destruct Hsame as [Hp Hs]. rewrite <- Hp. apply list_elem_of_fmap_2.
      apply Hdnc; [done | done |]. split; [done |]. by exists w.
    - intros Hnot Hin. apply list_elem_of_fmap in Hin as (y & Hp & Hy).
      apply Hdnc in Hy as (Hy & w' & Hw' & Hp' & Hs'); [| done | done].
      assert (w' = w) as ->.
      { apply (NoDup_fmap_eq pos ws); [| done | done | congruence].
        subst ws. unfold getPlaceholderWidgetSpecs. simpl.
        apply widgetSpecs_of_NoDup, placeholderDecoState_keyed. }
      apply Hnot. exists y. split; [done |]. by split. }
  split; [| split; [| split]].
  - intros d Hd Hdel d' (w & Hw & Hsame).
    assert (d' ∈ old) as Hd' by (by apply DecorationSet_map_elem).
    assert (d' ∈ decorationsThatDidNotChange old ws) as Hkeep.
    { apply Hdnc; [done | done |]. split; [done |]. by exists w. }
    split; [apply Hnew; by left |]. split.
    + intros x Hx Hfrom. apply Hnew in Hx as [[Hx _] | (w' & Hw' & Hnot & ->)].
      * by apply (NoDup_fmap_eq from old).
      * exfalso. apply Hnot. simpl in Hfrom. rewrite Hfrom.
        by apply (list_elem_of_fmap_2 from _ d').
    + intros Hold w' Hw' Heq.
      apply getPlaceholderWidgetSpecs_fresh in Hw'.
      subst d'. simpl in Heq. rewrite Heq in Hold. lia.
  - intros x Hx Hnot (w & Hw & Hsame). apply Hnot, Hnew. left.
    split; [done |]. apply Hdnc; [done | done |]. split; [done |]. by exists w.
  - intros x Hx Hnot. apply Hnew in Hx as [[Hx _] | (w & Hw & Hpos & ->)]; [done |].
    exists w. split; [done |]. split; [done |]. by apply Hadd.
  - subst new. rewrite applyState_decorationSet. fold ws. fold old.
    rewrite fmap_app. apply NoDup_app. split; [| split].
    + eapply sublist_NoDup; [exact Hnd |]. apply fmap_sublist, sublist_filter.
    + intros p Hp Hp'.
      apply list_elem_of_fmap in Hp as (x & -> & Hx).
      apply list_elem_of_filter in Hx as [Hx _].
      apply list_elem_of_fmap in Hp' as (y & Hy & Hy').
      apply list_elem_of_fmap in Hy' as (w & -> & Hw).
      apply list_elem_of_filter in Hw as [Hw _]. simpl in Hy.
      apply Hw. rewrite <- Hy. by apply list_elem_of_fmap_2.
    + rewrite <- list_fmap_compose.
      rewrite (list_fmap_ext _ pos) by done.
      eapply sublist_NoDup; [| apply fmap_sublist, sublist_filter].
      subst ws. unfold getPlaceholderWidgetSpecs. simpl.
      apply widgetSpecs_of_NoDup, placeholderDecoState_keyed.
Qed.

(** C6: the placeholder computation places at most one widget per position:
    the widget specs it returns, and so the decorations of [initState],
    have pairwise different positions, and [addDecoration] never replaces
    an entry of the widgets map.  A node with a descendant whose
    placeholder is always visible is not decorated, neither in the walk
    over the document nor as the ancestor of the cursor, while that
    descendant gets its widget when its position is free. *)
Theorem placeholder_placement :
  (forall (state : EditorState) (heap0 : nat),
      NoDup (pos <$> (getPlaceholderWidgetSpecs state heap0).1.1)
      /\ NoDup (from <$> decorationSet (initState state heap0).1))
  /\ (forall (st : DecoState) (node : Node) (p0 : nat) (parent : option Node)
        (cursorPos : option nat) (p : nat) (v : WidgetSpec + PluginKey),
        widgetsMap st !! p = Some v ->
        widgetsMap (addDecoration st node p0 parent cursorPos) !! p = Some v)
  /\ (forall (node : Node) (child : Visit),
        child ∈ descendants node ->
        has_alwaysVisible (v_node child) = true ->
        placeholderNeeded node = false
        /\ (forall cursorPos st p0 parent,
              decorate cursorPos st
                {| v_node := node; v_pos := p0; v_parent := parent |} = st)
        /\ (forall state cursorPos st pn,
              findParentNodeClosestToPos (sel_from (selection state))
                (fun n => bool_decide (is_Some (placeholder (spec (type n)))))
                = Some pn ->
              pn_node pn = node ->
              decorateCursorParent state cursorPos st = st))
  /\ (forall (cursorPos : option nat) (st : DecoState) (v : Visit)
        (ps : PlaceholderSpec) (c : string),
        placeholder (spec (type (v_node v))) = Some ps ->
        alwaysVisible ps = true -> customPlugin ps = None ->
        placeholderNeeded (v_node v) = true ->
        widgetsMap st !! (v_pos v + childCount (v_node v) + 1) = None ->
        getPlaceholderContent (v_node v) (Some (v_parent v)) = Some c ->
        c <> ""%string ->
        exists w,
          widgetsMap (decorate cursorPos st v) !! (v_pos v + childCount (v_node v) + 1)
            = Some (inl w)
          /\ pos w = v_pos v + childCount (v_node v) + 1
          /\ dom_textContent (toDOM w) = c).
Proof.
  split; [| split; [| split]].
  - intros state heap0.
    assert (NoDup (pos <$> (getPlaceholderWidgetSpecs state heap0).1.1)) as Hnd.
    { unfold getPlaceholderWidgetSpecs. simpl.
      apply widgetSpecs_of_NoDup, placeholderDecoState_keyed. }
    split; [done |].
    unfold initState.
    destruct (getPlaceholderWidgetSpecs state heap0) as [[ws hf] h1]. simpl in *.
    unfold DecorationSet_create. rewrite <- list_fmap_compose.
    erewrite list_fmap_ext; [exact Hnd | done].
  - apply addDecoration_preserves.
  - intros node child Hin Hav.
    split; [by eapply placeholderNeeded_child |]. split.
    + intros cursorPos st p0 parent. by eapply decorate_suppressed.
    + intros state cursorPos st pn Hpn <-.
      by eapply decorateCursorParent_suppressed.
  - apply decorate_places.
Qed.

End WithUtils.

(** The widgets of the note document: the title of the note gets its
    placeholder at position 6; the note, whose title has one, gets none. *)
Example noteState_widgets :
  getPlaceholderWidgetSpecs (utils := Examples.example_utils) Examples.noteState 10
  = ([{| pos := 6;
         toDOM := {| dom_ref := 10; dom_focus := false; dom_cursor_ref := 11;
                     dom_text_ref := 12; dom_textContent := "yfm_note_title" |};
         wspec := {| focus := false |} |}],
     false, 13).
Proof. vm_compute. reflexivity. Qed.

(** Typing into the first block: the placeholder of the second block moves
    from position 4 to 5 and keeps the element it was created with
    (reference 0); the element created for the new state (reference 3) is
    not used. *)
Example applyState_typing :
  let '(ps0, heap1) :=
    initState (utils := Examples.example_utils) (Examples.twoBlocksState "a") 0 in
  (decorationSet ps0, heap1,
   applyState (utils := Examples.example_utils) Examples.tr_type_b ps0
     (Examples.twoBlocksState "a") (Examples.twoBlocksState "ab") heap1)
  = ([{| from := 4; to := 4;
         d_toDOM := {| dom_ref := 0; dom_focus := false; dom_cursor_ref := 1;
                       dom_text_ref := 2; dom_textContent := "yfm_note_title" |};
         d_spec := {| focus := false |} |}],
     3,
     ({| decorationSet :=
           [{| from := 5; to := 5;
               d_toDOM := {| dom_ref := 0; dom_focus := false; dom_cursor_ref := 1;
                             dom_text_ref := 2; dom_textContent := "yfm_note_title" |};
               d_spec := {| focus := false |} |}];
         ps_hasFocus := false |}, 6)).
Proof. vm_compute. reflexivity. Qed.

Lemma applyState_decoration_stable_witness :
  let ps0 := (initState (utils := Examples.example_utils) (Examples.twoBlocksState "a") 0).1 in
  let d := {| from := 4; to := 4;
              d_toDOM := {| dom_ref := 0; dom_focus := false; dom_cursor_ref := 1;
                            dom_text_ref := 2; dom_textContent := "yfm_note_title" |};
              d_spec := {| focus := false |} |} in
  let new := decorationSet
               (applyState (utils := Examples.example_utils) Examples.tr_type_b ps0
                  (Examples.twoBlocksState "a") (Examples.twoBlocksState "ab") 3).1 in
  {| from := 5; to := 5; d_toDOM := d_toDOM d; d_spec := d_spec d |} ∈ new
  /\ forall x, x ∈ new -> from x = 5 -> d_toDOM x = d_toDOM d.
Proof.
  intros ps0 d new.
  destruct (applyState_decoration_stable (utils := Examples.example_utils)
              Examples.tr_type_b ps0
              (Examples.twoBlocksState "a") (Examples.twoBlocksState "ab") 3)
    as (Hstable & _).
  - vm_compute. apply NoDup_singleton.
  - destruct (Hstable d) as (Hin & Honly & _).
    + vm_compute. left.
    + reflexivity.
    + eexists. split; [vm_compute; left | split; reflexivity].
    + split; [exact Hin |].
      intros x Hx Hfrom. by rewrite (Honly x Hx Hfrom).
Defined.

Lemma placeholder_placement_witness :
  placeholderNeeded (utils := Examples.example_utils) Examples.note = false
  /\ exists w,
       widgetsMap
         (decorate (utils := Examples.example_utils) None
            {| widgetsMap := ∅; hasFocus := false; heap := 10 |}
            {| v_node := Examples.noteTitle; v_pos := 5; v_parent := Examples.note |})
         !! 6 = Some (inl w)
       /\ pos w = 6.
Proof.
  destruct (placeholder_placement (utils := Examples.example_utils))
    as (_ & _ & Hparent & Hchild).
  split.
  - apply (Hparent Examples.note
             {| v_node := Examples.noteTitle; v_pos := 0; v_parent := Examples.note |}).
    + vm_compute. left.
    + reflexivity.
  - destruct (Hchild None {| widgetsMap := ∅; hasFocus := false; heap := 10 |}
                {| v_node := Examples.noteTitle; v_pos := 5; v_parent := Examples.note |}
                {| customPlugin := None; alwaysVisible := true |}
                "yfm_note_title"%string) as (w & Hw & Hpos & _);
      try reflexivity; try done.
    exists w. split; done.
Defined.

End PlaceholderProofs.

(** * Properties of the image helpers *)

Module ImageUtilsProofs.
Import ImageUtils.

Lemma nat_of_String_of_nat (n : nat) : nat_of_String (String_of_nat n) = Some n.
Proof.
  unfold nat_of_String, String_of_nat.
  assert (Hnonnil : Nat.to_uint n <> Decimal.Nil).
  { pose proof (Unsigned.to_of (Nat.to_uint n)) as E.
    rewrite Unsigned.of_to in E. rewrite E.
    apply DecimalFacts.unorm_nonnil. }
  rewrite (NilZero.usu _ Hnonnil). simpl.
  f_equal. apply Unsigned.of_to.
Qed.

(** C10: [getImageSize] returns as height the decimal rendering of the
    minimum of [IMG_MAX_HEIGHT] and the height of the image; read back as a
    number it is that minimum, which never exceeds [IMG_MAX_HEIGHT] (nor
    the height of the image). *)
Theorem getImageSize_height_min (IMG_MAX_HEIGHT : nat) (img : HTMLImageElement) :
  size_height (getImageSize IMG_MAX_HEIGHT img)
    = String_of_nat (Nat.min IMG_MAX_HEIGHT (height img))
  /\ exists h : nat,
       nat_of_String (size_height (getImageSize IMG_MAX_HEIGHT img)) = Some h
       /\ h = Nat.min IMG_MAX_HEIGHT (height img)
       /\ h <= IMG_MAX_HEIGHT
       /\ h <= height img.
Proof.
  split; [reflexivity |].
  exists (Nat.min IMG_MAX_HEIGHT (height img)).
  unfold getImageSize; simpl.
  rewrite nat_of_String_of_nat.
  repeat split; lia.
Qed.

Example getImageSize_tall :
  getImageSize 600 {| width := 800; height := 1200 |} = {| size_height := "600" |}.
Proof. reflexivity. Qed.

Example getImageSize_small :
  getImageSize 600 {| width := 800; height := 42 |} = {| size_height := "42" |}.
Proof. reflexivity. Qed.

End ImageUtilsProofs.

(** * Properties of [WysiwygEditor]: dispatch and callbacks *)

Module EditorProofs.
Import PM PMState Editor.

Section Dispatch.
Context {Err U L : Type}.
Context {TypeSpec ParserHandler SerializerHandler PluginFactory TransformFn : Type}.
Context {env : Env Err L TypeSpec ParserHandler PluginFactory TransformFn}.

Abbreviation OnChange := (@OnChange Err U).
Abbreviation World := (World Err U L).
Abbreviation Event := (Event Err).

Lemma tryOnChange_run (kind : CallbackKind) (cb : option OnChange) (w : World) :
  tryOnChange kind cb w =
    (Returned tt,
     {| view_state := view_state w;
        trace := trace w ++ callback_events kind cb (view_state w) (user w);
        user := user_after cb (view_state w) (user w);
        logger := logger w |}).
Proof.
  destruct cb as [cb|]; simpl.
  - unfold try_catch, invoke, console_error, emit.
    destruct (cb (view_state w) (user w)) as [[[]|e] u'] eqn:E; simpl.
    + reflexivity.
    + rewrite <- app_assoc. reflexivity.
  - unfold retM. destruct w; simpl. rewrite app_nil_r. reflexivity.
Qed.

(** One dispatch, computed.  When [state.apply] returns, the state of the
    view is the applied one, the trace grows by [dispatch_events], and the
    outcome is that of [logTransactionMetrics]; when it throws, the dispatch
    throws the same and the world is as before. *)
Lemma dispatchTransaction_run (onChange onDocChange : option OnChange)
    (tr : Transaction) (w : World) :
  dispatchTransaction onChange onDocChange tr w =
    match EditorState_apply (view_state w) tr with
    | Returned st =>
        let u1 := user_after onChange st (user w) in
        let u2 := if docChanged tr then user_after onDocChange st u1 else u1 in
        ((logTransactionMetrics tr (logger w)).1,
         {| view_state := st;
            trace := trace w ++ dispatch_events onChange onDocChange tr w;
            user := u2;
            logger := (logTransactionMetrics tr (logger w)).2 |})
    | Thrown e => (Thrown e, w)
    end.
Proof.
  unfold dispatchTransaction, dispatch_events, state_apply, bindM at 1.
  destruct (EditorState_apply (view_state w) tr) as [st|e]; [| reflexivity].
  unfold bindM at 1. simpl.
  unfold bindM at 1. rewrite tryOnChange_run. simpl.
  unfold bindM, run_logTransactionMetrics.
  destruct (docChanged tr).
  - rewrite tryOnChange_run. simpl.
    destruct (logTransactionMetrics tr (logger w)) as [r l']. simpl.
    repeat rewrite <- app_assoc. reflexivity.
  - unfold retM. simpl.
    destruct (logTransactionMetrics tr (logger w)) as [r l']. simpl.
    repeat rewrite <- app_assoc. reflexivity.
Qed.

(** The events of a dispatch whose [state.apply] returned. *)
Lemma dispatch_events_returned (onChange onDocChange : option OnChange)
    (tr : Transaction) (w : World) (st : EditorState) :
  EditorState_apply (view_state w) tr = Returned st ->
  dispatch_events onChange onDocChange tr w
  = [EvUpdateState st]
    ++ callback_events ChangeCallback onChange st (user w)
    ++ (if docChanged tr
        then callback_events DocChangeCallback onDocChange st
               (user_after onChange st (user w))
        else [])
    ++ [EvMetrics tr].
Proof. intros Happly. unfold dispatch_events. by rewrite Happly. Qed.

(** C7: whatever the change and document-change callbacks do, a dispatch
    commits the new state first and runs to its last step: no exception of a
    callback leaves it (its outcome is that of the metrics logging alone),
    the state of the view is the applied state, and what a callback threw
    was given to [console.error].  This is for a transaction that
    [state.apply] accepts; when [state.apply] throws, which is before any
    callback is called, the dispatch throws the same and leaves the editor
    as it was. *)
Theorem dispatch_survives_callback_errors (onChange onDocChange : option OnChange)
    (tr : Transaction) (w : World) :
  let r := dispatchTransaction onChange onDocChange tr w in
  match EditorState_apply (view_state w) tr with
  | Returned st =>
      view_state r.2 = st
      /\ r.1 = (logTransactionMetrics tr (logger w)).1
      /\ exists evs,
           trace r.2 = trace w ++ EvUpdateState st :: evs ++ [EvMetrics tr]
           /\ (forall cb e, onChange = Some cb ->
                 (cb st (user w)).1 = Thrown e -> EvConsoleError e ∈ evs)
           /\ (forall cb e, onDocChange = Some cb -> docChanged tr = true ->
                 (cb st (user_after onChange st (user w))).1 = Thrown e ->
                 EvConsoleError e ∈ evs)
  | Thrown e => r = (Thrown e, w)
  end.
Proof.
  intros r. subst r. rewrite dispatchTransaction_run.
  destruct (EditorState_apply (view_state w) tr) as [st|e] eqn:Happly;
    [| reflexivity].
  rewrite (dispatch_events_returned _ _ _ _ st Happly). simpl.
  split; [reflexivity |]. split; [reflexivity |].
  eexists. split.
  - rewrite app_assoc. reflexivity.
  - split.
    + intros cb e -> Hthrow. apply elem_of_app. left.
      simpl. rewrite Hthrow. set_solver.
    + intros cb e -> -> Hthrow. apply elem_of_app. right.
      simpl. rewrite Hthrow. set_solver.
Qed.

(** C8: a dispatch whose transaction [state.apply] accepts calls the change
    callback that was given exactly once, whatever the transaction changed;
    it calls the document-change callback that was given if and only if
    [tr.docChanged], and then once.  The calls are real: the state of the
    caller after the dispatch is what one call of the change callback on
    the new state, followed exactly when [tr.docChanged] by one call of the
    document-change callback, makes of the caller's state at the dispatch.
    When [state.apply] throws, no callback is called. *)
Theorem callbacks_fire (onChange onDocChange : option OnChange)
    (tr : Transaction) (w : World) :
  let r := dispatchTransaction onChange onDocChange tr w in
  match EditorState_apply (view_state w) tr with
  | Returned st =>
      trace r.2 = trace w ++ new_events w r
      /\ (is_Some onChange -> calls ChangeCallback (new_events w r) = 1)
      /\ (is_Some onDocChange ->
            (0 < calls DocChangeCallback (new_events w r) <-> docChanged tr = true)
            /\ calls DocChangeCallback (new_events w r) <= 1)
      /\ user r.2
         = (let u1 := match onChange with
                      | Some cb => (cb st (user w)).2
                      | None => user w
                      end in
            if docChanged tr
            then match onDocChange with
                 | Some cb => (cb st u1).2
                 | None => u1
                 end
            else u1)
  | Thrown e =>
      r = (Thrown e, w)
      /\ calls ChangeCallback (new_events w r) = 0
      /\ calls DocChangeCallback (new_events w r) = 0
  end.
Proof.
  intros r. subst r. unfold new_events.
  rewrite dispatchTransaction_run.
  destruct (EditorState_apply (view_state w) tr) as [st|e] eqn:Happly.
  - rewrite (dispatch_events_returned _ _ _ _ st Happly). simpl.
    rewrite drop_app_length. split; [reflexivity |].
    unfold calls. simpl.
    split; [| split].
    + intros [cb ->]. simpl.
      destruct (cb _ _).1; destruct (docChanged tr); destruct onDocChange as [cb'|];
        simpl; try destruct (cb' _ _).1; reflexivity.
    + intros [cb' ->].
      destruct onChange as [cb|]; simpl; try destruct (cb _ _).1;
        destruct (docChanged tr); simpl; try destruct (cb' _ _).1; simpl;
        (split; [split; [done || lia | done || lia] | lia]).
    + reflexivity.
  - split; [reflexivity |]. simpl. by rewrite drop_all.
Qed.

(** C9, as amended: the events of a dispatch come in a fixed order: the
    commit of the new state, then the change callback if one was given,
    then the document-change callback (when the document changed and one
    was given), then the metrics.  So no callback runs before the commit,
    and when a change callback was given, every call of the
    document-change callback comes after the call of the change callback of
    the same dispatch.  A dispatch whose [state.apply] throws has no
    events. *)
Theorem dispatch_order (onChange onDocChange : option OnChange)
    (tr : Transaction) (w : World) :
  let r := dispatchTransaction onChange onDocChange tr w in
  new_events w r = dispatch_events onChange onDocChange tr w
  /\ (is_Some onChange -> change_before_docChange (new_events w r))
  /\ match EditorState_apply (view_state w) tr with
     | Returned st =>
         head (new_events w r) = Some (EvUpdateState st)
         /\ last (new_events w r) = Some (EvMetrics tr)
     | Thrown e => r = (Thrown e, w) /\ new_events w r = []
     end.
Proof.
  intros r. subst r. unfold new_events.
  rewrite dispatchTransaction_run.
  destruct (EditorState_apply (view_state w) tr) as [st|e] eqn:Happly.
  - rewrite (dispatch_events_returned _ _ _ _ st Happly). simpl.
    rewrite drop_app_length.
    split; [reflexivity |]. split.
    + intros [cb ->] i Hi. exists 1. simpl in *.
      split; [| reflexivity].
      destruct i as [|[|i]]; [discriminate | | lia].
      simpl in Hi. discriminate.
    + split; [reflexivity |].
      rewrite !app_comm_cons, !app_assoc. apply last_snoc.
  - unfold dispatch_events. rewrite Happly. simpl. rewrite drop_all.
    split; [reflexivity |]. split; [| done].
    intros _ i Hi. by rewrite lookup_nil in Hi.
Qed.

Lemma isEmpty_doc_iff (d : Node) :
  isEmpty_doc d = true <-> single_empty_paragraph d.
Proof.
  unfold isEmpty_doc, single_empty_paragraph, childCount, firstChild.
  destruct d as [t c s]; simpl.
  destruct c as [|p [|q c]]; simpl.
  - split; [discriminate | intros (p & Hp & _); discriminate].
  - rewrite !andb_true_iff, String.eqb_eq, Nat.eqb_eq, length_zero_iff_nil.
    split.
    + intros [Hn Hc]. exists p. auto.
    + intros (p' & Hp & Hn & Hc). injection Hp as <-. auto.
  - split; [discriminate | intros (p' & Hp & _); discriminate].
Qed.

(** C4: [isEmpty()] is true exactly when the document has one child, a
    paragraph without children.  So it is true right after a construction
    without initial content, false after [append("x")] and true again after
    [clear()], for a parser that turns the empty markup into one empty
    paragraph and ["x"] into at least one block. *)
Theorem isEmpty_spec :
  (forall st : EditorState, isEmpty st = true <-> single_empty_paragraph (doc st))
  /\ forall (o : WysiwygEditorOptions Err U TypeSpec ParserHandler SerializerHandler
                   PluginFactory TransformFn)
       (ed : WysiwygEditor Err U TypeSpec ParserHandler SerializerHandler
               PluginFactory TransformFn)
       (st1 st2 : EditorState),
      (forall s d ps, doc (EditorState_create s d ps) = d) ->
      default ""%string (initialContent o) = ""%string ->
      constructor o = inr ed ->
      single_empty_paragraph (Parser_parse (ed_parser ed) "") ->
      content (Parser_parse (ed_parser ed) "x") <> [] ->
      doc st1 = append_doc (Parser_parse (ed_parser ed)) (doc (ed_state ed)) "x" ->
      doc st2 = clear_doc (Parser_parse (ed_parser ed)) ->
      isEmpty (ed_state ed) = true
      /\ isEmpty st1 = false
      /\ isEmpty st2 = true.
Proof.
  split; [intros st; apply isEmpty_doc_iff |].
  intros o ed st1 st2 Hcreate Hinit Hctor Hempty Hx Hst1 Hst2.
  assert (Hdoc0 : doc (ed_state ed) = Parser_parse (ed_parser ed) "").
  { unfold constructor in Hctor. rewrite Hinit in Hctor.
    destruct (process _ _ _) as [e|c]; [discriminate |].
    injection Hctor as <-. simpl. apply Hcreate. }
  unfold isEmpty. rewrite Hst1, Hst2, Hdoc0. unfold clear_doc.
  split; [by apply isEmpty_doc_iff |].
  split; [| by apply isEmpty_doc_iff].
  apply not_true_is_false. rewrite isEmpty_doc_iff.
  intros (p & Hp & _). unfold append_doc in Hp. simpl in Hp.
  destruct Hempty as (p0 & Hp0 & _). rewrite Hp0 in Hp.
  destruct (content (Parser_parse (ed_parser ed) "x")); [done | discriminate].
Qed.

(** C2: when two extensions of the list define the same node-type name and
    the later one does not carry the override marker, the constructor of
    the editor ends in the error of [ExtensionsManager.process], whatever
    the other options.  The error is a name collision and names the two
    extensions in conflict: it is the first collision of the calls that the
    extensions make, in their order (there is one at most:
    [first_collision_unique]); [later] is the extension whose call
    contributes the key without override, and [earlier] is the owner of
    the key at that call, the extension that contributed it last before;
    [earlier] stands in the list at or before [later].  No editor is
    returned, so nothing was overridden silently. *)
Theorem duplicate_node_name_is_error
    (o : WysiwygEditorOptions Err U TypeSpec ParserHandler SerializerHandler
           PluginFactory TransformFn)
    (exts : list (Extension TypeSpec ParserHandler SerializerHandler PluginFactory))
    (i j : nat)
    (xi xj : Extension TypeSpec ParserHandler SerializerHandler PluginFactory)
    (name : string) (ov : bool) :
  extensions o = Some exts ->
  i < j -> exts !! i = Some xi -> exts !! j = Some xj ->
  ext_contributes NodeTypeName name ov xi ->
  ext_contributes NodeTypeName name false xj ->
  exists family key earlier later,
    constructor o = inl (NameCollision family key (ext_name earlier) (ext_name later))
    /\ earlier ∈ exts /\ later ∈ exts
    /\ (exists o', ext_contributes family key o' earlier)
    /\ ext_contributes family key false later
    /\ first_collision (all_calls exts) family key earlier later
    /\ exists a b, a <= b /\ exts !! a = Some earlier /\ exts !! b = Some later.
Proof.
  intros Hexts Hij Hi Hj Hci Hcj. unfold constructor. rewrite Hexts. simpl.
  match goal with
  | |- context [process exts ?po ?dm] =>
      destruct (ExtensionsManagerProofs.process_duplicate_node_name
                  exts po dm i j xi xj name ov Hij Hi Hj Hci Hcj)
        as (family & key & earlier & later & Hp & Hrest)
  end.
  exists family, key, earlier, later. rewrite Hp. done.
Qed.

(** C3: the constructor given the empty list of modifiers returns what it
    returns without the option: the same schema, parser and serializer, the
    same initial document, or the same error.  The empty list is converted
    all the same (an array is truthy), and the modifier objects it yields
    patch nothing.  Whatever the modifiers, they keep the keys of each
    family and their order. *)
Theorem empty_modifiers_same_editor :
  (forall o : WysiwygEditorOptions Err U TypeSpec ParserHandler SerializerHandler
                PluginFactory TransformFn,
      constructor (set_modifiers (Some []) o) = constructor (set_modifiers None o))
  /\ (forall (exts : list (Extension TypeSpec ParserHandler SerializerHandler PluginFactory))
        (options : ParserOptions TransformFn),
        let config := convertDynamicModifiersConfigs [] in
        process exts options
          (Some {| dm_schema := cfg_schema config; dm_parser := cfg_parser config;
                   dm_serializer := cfg_serializer config |})
        = process exts options None)
  /\ (forall (b : Builder TypeSpec ParserHandler SerializerHandler PluginFactory)
        (options : ParserOptions TransformFn)
        (dm : DynamicModifierSet TypeSpec ParserHandler SerializerHandler),
        let c := finish b options (Some dm) in
        let c0 := finish b options None in
        (schema_nodes (schema c)).*1 = (schema_nodes (schema c0)).*1
        /\ (schema_marks (schema c)).*1 = (schema_marks (schema c0)).*1
        /\ (parser_rules (markupParser c)).*1 = (parser_rules (markupParser c0)).*1
        /\ (serializer_rules (serializer c)).*1 = (serializer_rules (serializer c0)).*1).
Proof.
  split; [| split].
  - intros o. unfold constructor. simpl.
    rewrite ExtensionsManagerProofs.process_empty_modifiers. reflexivity.
  - intros exts options. simpl.
    apply ExtensionsManagerProofs.process_empty_modifiers.
  - intros b options dm. simpl.
    rewrite !ExtensionsManagerProofs.apply_modifier_keys. done.
Qed.

End Dispatch.

Example constructor_collision :
  constructor (env := Examples.example_env)
    (Examples.options_with [Examples.ext_base; Examples.ext_other false])
  = inl (NameCollision NodeTypeName "paragraph" "base" "other").
Proof. reflexivity. Qed.

Example constructor_override :
  exists ed,
    constructor (env := Examples.example_env)
      (Examples.options_with [Examples.ext_base; Examples.ext_other true]) = inr ed
    /\ schema_nodes (ed_schema ed)
       = [("doc"%string, ("base"%string, tt));
          ("paragraph"%string, ("other"%string, tt));
          ("heading"%string, ("other"%string, tt))].
Proof. eexists. split; reflexivity. Qed.

Lemma duplicate_node_name_is_error_witness :
  exists family key earlier later,
    constructor (env := Examples.example_env)
      (Examples.options_with [Examples.ext_base; Examples.ext_other false])
    = inl (NameCollision family key (ext_name earlier) (ext_name later))
    /\ earlier ∈ [Examples.ext_base; Examples.ext_other false]
    /\ later ∈ [Examples.ext_base; Examples.ext_other false]
    /\ first_collision
         (all_calls [Examples.ext_base; Examples.ext_other false])
         family key earlier later.
Proof.
  destruct (duplicate_node_name_is_error (env := Examples.example_env)
              (L := list Transaction)
              (Examples.options_with [Examples.ext_base; Examples.ext_other false])
              [Examples.ext_base; Examples.ext_other false]
              0 1 Examples.ext_base (Examples.ext_other false)
              "paragraph" false)
    as (family & key & earlier & later & Hc & He & Hl & _ & _ & Hfirst & _).
  - reflexivity.
  - lia.
  - reflexivity.
  - reflexivity.
  - exists (DefineNode "paragraph" tt false). split; [set_solver | done].
  - exists (DefineNode "paragraph" tt false). split; [set_solver | done].
  - exists family, key, earlier, later. done.
Defined.

Lemma isEmpty_spec_witness :
  exists ed,
    constructor (env := Examples.example_env) Examples.options0 = inr ed
    /\ isEmpty (ed_state ed) = true
    /\ isEmpty (Examples.state_of
                  (append_doc Examples.line_parse (doc (ed_state ed)) "x")) = false
    /\ isEmpty (Examples.state_of (clear_doc Examples.line_parse)) = true.
Proof.
  eexists. split; [reflexivity |].
  eapply (proj2 (isEmpty_spec (env := Examples.example_env) (L := list Transaction))
            Examples.options0).
  - reflexivity.
  - reflexivity.
  - reflexivity.
  - eexists. split; [reflexivity |]. split; reflexivity.
  - discriminate.
  - reflexivity.
  - reflexivity.
Defined.

(** A change callback that throws: the dispatch returns, the state is the
    new one, the error is logged and the document-change callback still
    runs. *)
Example dispatch_with_throwing_callback :
  dispatchTransaction (env := Examples.example_env)
    (Some Examples.cb_throw) (Some Examples.cb_count)
    Examples.tr_type_x Examples.world0
  = (Returned tt,
     {| view_state := Examples.state_of (tr_doc Examples.tr_type_x);
        trace := [EvUpdateState (Examples.state_of (tr_doc Examples.tr_type_x));
                  EvCallback ChangeCallback; EvConsoleError "boom"%string;
                  EvCallback DocChangeCallback; EvMetrics Examples.tr_type_x];
        user := 2;
        logger := [Examples.tr_type_x] |}).
Proof. reflexivity. Qed.

Lemma dispatch_survives_callback_errors_witness :
  let w := Examples.world0 in
  let st := Examples.state_of (tr_doc Examples.tr_type_x) in
  let r := dispatchTransaction (env := Examples.example_env)
             (Some Examples.cb_throw) (Some Examples.cb_throw)
             Examples.tr_type_x w in
  view_state r.2 = st
  /\ r.1 = Returned tt
  /\ exists evs,
       trace r.2 = trace w ++ EvUpdateState st :: evs ++ [EvMetrics Examples.tr_type_x]
       /\ EvConsoleError "boom"%string ∈ evs.
Proof.
  intros w st r.
  destruct (dispatch_survives_callback_errors (env := Examples.example_env)
              (Some Examples.cb_throw) (Some Examples.cb_throw)
              Examples.tr_type_x w) as (Hst & Hr & evs & Htr & Hc & Hd).
  split; [exact Hst |]. split; [exact Hr |].
  exists evs. split; [exact Htr |].
  apply (Hc Examples.cb_throw); reflexivity.
Defined.

Lemma callbacks_fire_witness :
  let w := Examples.world0 in
  let r := dispatchTransaction (env := Examples.example_env)
             (Some Examples.cb_count) (Some Examples.cb_count)
             Examples.tr_select w in
  calls ChangeCallback (new_events w r) = 1
  /\ ~ 0 < calls DocChangeCallback (new_events w r)
  /\ user r.2 = 1.
Proof.
  intros w r.
  destruct (callbacks_fire (env := Examples.example_env)
              (Some Examples.cb_count) (Some Examples.cb_count)
              Examples.tr_select w) as (_ & Hc & Hd & Hu).
  split; [| split].
  - apply Hc. eexists; reflexivity.
  - destruct Hd as [[Hd _] _]; [eexists; reflexivity |].
    intros Hpos. specialize (Hd Hpos). discriminate Hd.
  - exact Hu.
Defined.

Lemma dispatch_order_witness :
  let w := Examples.world0 in
  let r := dispatchTransaction (env := Examples.example_env)
             (Some Examples.cb_count) (Some Examples.cb_count)
             Examples.tr_type_x w in
  change_before_docChange (new_events w r).
Proof.
  intros w r.
  destruct (dispatch_order (env := Examples.example_env)
              (Some Examples.cb_count) (Some Examples.cb_count)
              Examples.tr_type_x w) as (_ & Horder & _).
  apply Horder. eexists; reflexivity.
Defined.

(** C9, as stated, fails when only a document-change callback is given
    (the two options are independent): [thisOnChange()] finds nothing to
    call, and the document-change callback is called all the same, with no
    call of a change callback before it. *)
Lemma docChange_without_change_counterexample :
  let w := Examples.world0 in
  let r := dispatchTransaction (env := Examples.example_env)
             None (Some Examples.cb_count) Examples.tr_type_x w in
  calls DocChangeCallback (new_events w r) = 1
  /\ calls ChangeCallback (new_events w r) = 0
  /\ ~ change_before_docChange (new_events w r).
Proof.
  intros w r. split; [reflexivity |]. split; [reflexivity |].
  intros Hc. destruct (Hc 1 eq_refl) as (j & Hj & Ej).
  destruct j as [|j]; [discriminate Ej | lia].
Qed.

End EditorProofs.

(** * More properties of the placeholder extension *)

Module PlaceholderMore.
Import PM PMState PMUtils Placeholder PlaceholderPlugin.

Section WithUtils.
Context {utils : Utils}.

(** What one call of [addDecoration] does for a node with a placeholder
    spec: nothing (the position is taken, or there is no content), or a
    custom plugin key at the free position, or a new widget there, built at
    the allocation counter. *)
Lemma addDecoration_cases (st : DecoState) (node : Node) (p0 : nat)
    (parent : option Node) (cursorPos : option nat) (ps : PlaceholderSpec) :
  placeholder (spec (type node)) = Some ps ->
  let dp := p0 + childCount node + 1 in
  let f := bool_decide (cursorPos = Some dp) in
  let st' := addDecoration st node p0 parent cursorPos in
  st' = st
  \/ (widgetsMap st !! dp = None
      /\ exists key, customPlugin ps = Some key
           /\ st' = {| widgetsMap := <[dp := inr key]> (widgetsMap st);
                       hasFocus := hasFocus st; heap := heap st |})
  \/ (widgetsMap st !! dp = None /\ customPlugin ps = None
      /\ exists c, getPlaceholderContent node parent = Some c /\ c <> ""%string
           /\ st' = {| widgetsMap :=
                         <[dp := inl {| pos := dp;
                                        toDOM := placeholder_element (heap st) f c;
                                        wspec := {| focus := f |} |}]>
                           (widgetsMap st);
                       hasFocus := if f then true else hasFocus st;
                       heap := heap st + 3 |}).
Proof.
  intros Hps dp f st'. subst st'. unfold addDecoration. rewrite Hps. fold dp.
  case_bool_decide as Hocc; [by left |].
  assert (widgetsMap st !! dp = None) as Hfree.
  { destruct (widgetsMap st !! dp) eqn:E; [| done]. destruct Hocc. by eexists. }
  destruct (customPlugin ps) as [key|] eqn:Hcp.
  - right. left. split; [done |]. by exists key.
  - unfold createPlaceholder.
    destruct (getPlaceholderContent node parent) as [c|] eqn:Hc;
      [| left; by destruct st].
    destruct (decide (c = ""%string)); [left; by destruct st |].
    right. right. split; [done |]. split; [done |]. exists c.
    split; [done |]. split; [done |]. reflexivity.
Qed.

(** After the loop over the custom plugins the map holds plugin keys
    only, one at every position that a decoration of such a plugin names. *)
Lemma customMap_inr (state : EditorState) (k : nat) (v : WidgetSpec + PluginKey) :
  customMap state !! k = Some v -> exists key, v = inr key.
Proof.
  unfold customMap.
  generalize (getPlaceholderPluginKeys (schema state)). intros keys.
  assert (forall k v, (∅ : WidgetsMap) !! k = Some v -> exists key, v = inr key) as He
    by (intros k' v'; by rewrite lookup_empty).
  revert He k v. generalize (∅ : WidgetsMap).
  induction keys as [|f keys IH]; intros m Hm k v; simpl; [apply Hm |].
  apply IH. clear k v. unfold recordCustom.
  destruct (getState state f) as [specs|]; [| done].
  revert m Hm. induction specs as [|sp specs IHs]; intros m Hm; simpl; [done |].
  apply IHs. intros k v. rewrite lookup_insert.
  case_decide; [intros [= <-]; by eexists | apply Hm].
Qed.

Lemma recordCustom_is_inr (state : EditorState) (m : WidgetsMap) (f : PluginKey)
    (p : nat) :
  (exists key, m !! p = Some (inr key)) ->
  exists key, recordCustom state m f !! p = Some (inr key).
Proof.
  unfold recordCustom. destruct (getState state f) as [specs|]; [| done].
  revert m. induction specs as [|sp specs IH]; intros m Hm; simpl; [done |].
  apply IH. rewrite lookup_insert. case_decide; [by eexists | done].
Qed.

Lemma recordCustom_records (state : EditorState) (m : WidgetsMap) (f : PluginKey)
    (specs : list CustomSpec) (sp : CustomSpec) :
  getState state f = Some specs -> sp ∈ specs ->
  exists key, recordCustom state m f !! cs_pos sp = Some (inr key).
Proof.
  intros Hst Hsp. unfold recordCustom. rewrite Hst. clear Hst.
  revert m. induction specs as [|sp' specs IH]; intros m; simpl;
    [by apply elem_of_nil in Hsp |].
  apply elem_of_cons in Hsp as [-> | Hsp]; [| by apply IH].
  clear IH.
  assert (exists key, <[cs_pos sp' := inr f]> m !! cs_pos sp' = Some (inr key)) as Hm
    by (rewrite lookup_insert_eq; by eexists).
  revert Hm. generalize (<[cs_pos sp' := inr f]> m).
  induction specs as [|sp2 specs IH]; intros m' Hm'; simpl; [done |].
  apply IH. rewrite lookup_insert. case_decide; [by eexists | done].
Qed.

Lemma customMap_records (state : EditorState) (f : PluginKey)
    (specs : list CustomSpec) (sp : CustomSpec) :
  f ∈ getPlaceholderPluginKeys (schema state) ->
  getState state f = Some specs -> sp ∈ specs ->
  exists key, customMap state !! cs_pos sp = Some (inr key).
Proof.
  intros Hf Hst Hsp. unfold customMap.
  revert Hf. generalize (getPlaceholderPluginKeys (schema state)).
  intros keys. generalize (∅ : WidgetsMap).
  induction keys as [|g keys IH]; intros m Hf; simpl;
    [by apply elem_of_nil in Hf |].
  apply elem_of_cons in Hf as [<- | Hf]; [| by apply IH].
  pose proof (recordCustom_records state m f specs sp Hst Hsp) as Hrec.
  revert Hrec. generalize (recordCustom state m f). clear.
  induction keys as [|g keys IH]; intros m Hm; simpl; [done |].
  apply IH. by apply recordCustom_is_inr.
Qed.

(** A property of the widgets map, the focus flag and the allocation
    counter that holds after the loop over the custom plugins and that every
    call of [addDecoration] at a placement site keeps, holds at the end of
    [getPlaceholderWidgetSpecs]. *)
Lemma placeholderDecoState_ind (P : DecoState -> Prop) (state : EditorState)
    (heap0 : nat) :
  P {| widgetsMap := customMap state; hasFocus := false; heap := heap0 |} ->
  (forall st node p0 parent ps,
      placeholder (spec (type node)) = Some ps ->
      placeholderNeeded node = true ->
      placement_site state node p0 parent ps ->
      P st -> P (addDecoration st node p0 parent (cursorPos_of state))) ->
  P (placeholderDecoState state heap0).
Proof.
  intros H0 Hstep. unfold placeholderDecoState.
  fold (cursorPos_of state). fold (customMap state).
  assert (forall vs st, (forall v, v ∈ vs -> v ∈ descendants (doc state)) ->
            P st -> P (foldl (decorate (cursorPos_of state)) st vs)) as Hwalk.
  { induction vs as [|v vs IH]; intros st Hvs Hst; simpl; [done |].
    apply IH; [intros v' Hv'; apply Hvs; by right |].
    unfold decorate.
    destruct (placeholder (spec (type (v_node v)))) as [ps|] eqn:Hps; [| done].
    destruct (alwaysVisible ps) eqn:Hav; [| done].
    destruct (placeholderNeeded (v_node v)) eqn:Hn; [| done]. simpl.
    apply (Hstep st (v_node v) (v_pos v) (Some (v_parent v)) ps); try done.
    left. exists v. repeat split; try done. apply Hvs. by left. }
  unfold decorateCursorParent.
  destruct (findParentNodeClosestToPos _ _) as [pn|] eqn:Hpn; [| by apply Hwalk].
  destruct (placeholder (spec (type (pn_node pn)))) as [ps|] eqn:Hps;
    [| by apply Hwalk].
  destruct (placeholderNeeded (pn_node pn)) eqn:Hn; [| by apply Hwalk].
  destruct (alwaysVisible ps) eqn:Hav; [by apply Hwalk |]. simpl.
  apply (Hstep _ (pn_node pn) (pn_pos pn) _ ps); try done; [| by apply Hwalk].
  right. exists pn. repeat split; done.
Qed.

(** ** The widgets that [getPlaceholderWidgetSpecs] returns *)

Lemma widgetSpecs_of_perm (m : WidgetsMap) :
  widgetSpecs_of m
  ≡ₚ omap (fun v => match v with inl w => Some w | inr _ => None end)
       (map_to_list m).*2.
Proof.
  unfold widgetSpecs_of, Object_values. by rewrite merge_sort_Permutation.
Qed.

Lemma widgetSpecs_of_insert_inl (m : WidgetsMap) (k : nat) (w : WidgetSpec) :
  m !! k = None -> widgetSpecs_of (<[k := inl w]> m) ≡ₚ w :: widgetSpecs_of m.
Proof.
  intros Hk. rewrite !widgetSpecs_of_perm, map_to_list_insert by done. done.
Qed.

Lemma widgetSpecs_of_insert_inr (m : WidgetsMap) (k : nat) (key : PluginKey) :
  m !! k = None -> widgetSpecs_of (<[k := inr key]> m) ≡ₚ widgetSpecs_of m.
Proof.
  intros Hk. rewrite !widgetSpecs_of_perm, map_to_list_insert by done. done.
Qed.

Lemma widgetSpecs_of_customMap (state : EditorState) :
  widgetSpecs_of (customMap state) = [].
Proof.
  destruct (widgetSpecs_of (customMap state)) as [|w ws] eqn:E; [done |].
  assert (w ∈ widgetSpecs_of (customMap state)) as Hw by (rewrite E; by left).
  apply PlaceholderProofs.widgetSpecs_of_elem in Hw as (k & Hk).
  by destruct (customMap_inr state k _ Hk).
Qed.

(** The focus flags along [getPlaceholderWidgetSpecs]: a widget of the map
    has [focus] exactly at the cursor, and [hasFocus] says that there is
    one. *)
Lemma placeholderDecoState_focus (state : EditorState) (heap0 : nat) :
  (forall k w, widgetsMap (placeholderDecoState state heap0) !! k = Some (inl w) ->
             focus (wspec w) = bool_decide (cursorPos_of state = Some (pos w))
             /\ dom_focus (toDOM w) = focus (wspec w))
          /\ (hasFocus (placeholderDecoState state heap0) = true <->
              exists k w, widgetsMap (placeholderDecoState state heap0) !! k = Some (inl w)
                          /\ focus (wspec w) = true).
Proof.
  apply (placeholderDecoState_ind
             (fun st =>
                (forall k w, widgetsMap st !! k = Some (inl w) ->
                   focus (wspec w) = bool_decide (cursorPos_of state = Some (pos w))
                   /\ dom_focus (toDOM w) = focus (wspec w))
                /\ (hasFocus st = true <->
                    exists k w, widgetsMap st !! k = Some (inl w)
                                /\ focus (wspec w) = true))).
    - simpl. split.
      + intros k w Hk. by destruct (customMap_inr state k _ Hk).
      + split; [done |]. intros (k & w & Hk & _).
        by destruct (customMap_inr state k _ Hk).
    - intros st node p0 parent ps Hps _ _ [Hw Hf].
      destruct (addDecoration_cases st node p0 parent (cursorPos_of state) ps Hps)
        as [-> | [(Hfree & key & _ & ->) | (Hfree & _ & c & _ & _ & ->)]];
        [done | |]; simpl.
      + split.
        * intros k w. rewrite lookup_insert. case_decide; [done | apply Hw].
        * rewrite Hf. split; intros (k & w & Hk & Hfw); exists k, w; split; try done.
          -- rewrite lookup_insert_ne; [done |]. intros <-. by rewrite Hfree in Hk.
          -- rewrite lookup_insert in Hk. by case_decide.
      + split.
        * intros k w. rewrite lookup_insert. case_decide; [| apply Hw].
          intros Heq. injection Heq as <-. done.
        * destruct (bool_decide (cursorPos_of state = Some (p0 + childCount node + 1)))
            eqn:Hb.
          -- split; [| done]. intros _. eexists _, _.
             rewrite lookup_insert_eq. split; [done |]. simpl. done.
          -- rewrite Hf. split; intros (k & w & Hk & Hfw); exists k, w; split; try done.
             ++ rewrite lookup_insert_ne; [done |]. intros <-. by rewrite Hfree in Hk.
             ++ rewrite lookup_insert in Hk. case_decide; [| done].
                injection Hk as <-. simpl in Hfw. congruence.
Qed.

(** X1: a widget has [focus] exactly when it sits at the position of the
    cursor, and its element carries the same flag; [hasFocus] is returned
    exactly when some widget sits at the cursor, and at most one widget has
    [focus]. *)
Theorem widget_focus_at_cursor (state : EditorState) (heap0 : nat) :
  let ws := (getPlaceholderWidgetSpecs state heap0).1.1 in
  let hf := (getPlaceholderWidgetSpecs state heap0).1.2 in
  (forall w, w ∈ ws ->
     (focus (wspec w) = true <-> cursorPos_of state = Some (pos w))
     /\ dom_focus (toDOM w) = focus (wspec w))
  /\ (hf = true <-> exists w, w ∈ ws /\ cursorPos_of state = Some (pos w))
  /\ (forall w1 w2, w1 ∈ ws -> w2 ∈ ws ->
        focus (wspec w1) = true -> focus (wspec w2) = true -> w1 = w2).
Proof.
  intros ws hf.
  destruct (placeholderDecoState_focus state heap0) as [Hw Hf].
  assert (forall w, w ∈ ws ->
            widgetsMap (placeholderDecoState state heap0) !! pos w = Some (inl w)) as Hin.
  { intros w Hwin. subst ws. unfold getPlaceholderWidgetSpecs in Hwin. simpl in Hwin.
    apply PlaceholderProofs.widgetSpecs_of_elem in Hwin as (k & Hk).
    by rewrite (PlaceholderProofs.placeholderDecoState_keyed state heap0 k w Hk). }
  assert (forall w, w ∈ ws ->
            (focus (wspec w) = true <-> cursorPos_of state = Some (pos w))) as Hfocus.
  { intros w Hwin. destruct (Hw _ _ (Hin w Hwin)) as [-> _].
    apply bool_decide_eq_true. }
  split; [| split].
  - intros w Hwin. split; [by apply Hfocus |]. by destruct (Hw _ _ (Hin w Hwin)).
  - subst hf. unfold getPlaceholderWidgetSpecs. simpl. rewrite Hf. split.
    + intros (k & w & Hk & Hfw).
      assert (w ∈ ws) as Hwin.
      { subst ws. unfold getPlaceholderWidgetSpecs. simpl.
        apply PlaceholderProofs.widgetSpecs_of_elem. by exists k. }
      exists w. split; [done |]. by apply Hfocus.
    + intros (w & Hwin & Hc). exists (pos w), w. split; [by apply Hin |].
      by apply Hfocus.
  - intros w1 w2 H1 H2 Hf1 Hf2.
    apply Hfocus in Hf1; [| done]. apply Hfocus in Hf2; [| done].
    pose proof (Hin w1 H1) as E1. pose proof (Hin w2 H2) as E2.
    assert (pos w1 = pos w2) as Hp by congruence.
    rewrite Hp in E1. congruence.
Qed.

(** X2: no widget is placed at a position that a decoration of a custom
    placeholder plugin names in its spec. *)
Theorem no_widget_at_custom_position (state : EditorState) (heap0 : nat)
    (f : PluginKey) (specs : list CustomSpec) (sp : CustomSpec) (w : WidgetSpec) :
  f ∈ getPlaceholderPluginKeys (schema state) ->
  getState state f = Some specs -> sp ∈ specs ->
  w ∈ (getPlaceholderWidgetSpecs state heap0).1.1 ->
  pos w <> cs_pos sp.
Proof.
  intros Hf Hst Hsp Hw Hpos.
  assert (exists key, widgetsMap (placeholderDecoState state heap0) !! cs_pos sp
                      = Some (inr key)) as (key & Hkey).
  { apply (placeholderDecoState_ind
             (fun st => exists key, widgetsMap st !! cs_pos sp = Some (inr key))).
    - simpl. by eapply customMap_records.
    - intros st node p0 parent ps _ _ _ (key & Hkey). exists key.
      by apply PlaceholderProofs.addDecoration_preserves. }
  unfold getPlaceholderWidgetSpecs in Hw. simpl in Hw.
  apply PlaceholderProofs.widgetSpecs_of_elem in Hw as (k & Hk).
  rewrite (PlaceholderProofs.placeholderDecoState_keyed state heap0 k w Hk) in Hpos.
  congruence.
Qed.

(** X3: every widget stands for a node at a placement site: the node has a
    placeholder spec without custom plugin, it is empty and has no
    descendant with an always-visible placeholder ([placeholderNeeded]), the
    widget sits at [pos + childCount + 1] of the node, and its text is the
    non-empty content that [getPlaceholderContent] gives for the node. *)
Theorem widget_has_site (state : EditorState) (heap0 : nat) (w : WidgetSpec) :
  w ∈ (getPlaceholderWidgetSpecs state heap0).1.1 ->
  exists node p0 parent ps,
    placeholder (spec (type node)) = Some ps
    /\ customPlugin ps = None
    /\ placement_site state node p0 parent ps
    /\ placeholderNeeded node = true
    /\ pos w = p0 + childCount node + 1
    /\ getPlaceholderContent node parent = Some (dom_textContent (toDOM w))
    /\ dom_textContent (toDOM w) <> ""%string.
Proof.
  intros Hw. unfold getPlaceholderWidgetSpecs in Hw. simpl in Hw.
  apply PlaceholderProofs.widgetSpecs_of_elem in Hw as (k & Hk).
  revert k w Hk.
  apply (placeholderDecoState_ind
           (fun st => forall k w, widgetsMap st !! k = Some (inl w) ->
              exists node p0 parent ps,
                placeholder (spec (type node)) = Some ps
                /\ customPlugin ps = None
                /\ placement_site state node p0 parent ps
                /\ placeholderNeeded node = true
                /\ pos w = p0 + childCount node + 1
                /\ getPlaceholderContent node parent = Some (dom_textContent (toDOM w))
                /\ dom_textContent (toDOM w) <> ""%string)).
  - simpl. intros k w Hk. by destruct (customMap_inr state k _ Hk).
  - intros st node p0 parent ps Hps Hneed Hsite IH.
    destruct (addDecoration_cases st node p0 parent (cursorPos_of state) ps Hps)
      as [-> | [(Hfree & key & _ & ->) | (Hfree & Hcp & c & Hc & Hne & ->)]];
      [done | |]; simpl; intros k w; rewrite lookup_insert; case_decide;
      try done; try apply IH.
    intros Heq. injection Heq as <-. simpl.
    exists node, p0, parent, ps. repeat split; done.
Qed.

(** X4: [getPlaceholderWidgetSpecs] creates three elements for every widget
    it returns and no other: the allocation counter advances by three times
    the number of widgets, the element of a widget and its two children were
    created by this call, and different widgets have different elements. *)
Theorem widget_elements_allocated (state : EditorState) (heap0 : nat) :
  let ws := (getPlaceholderWidgetSpecs state heap0).1.1 in
  let heap1 := (getPlaceholderWidgetSpecs state heap0).2 in
  heap1 = heap0 + 3 * length ws
  /\ (forall w, w ∈ ws ->
        heap0 <= dom_ref (toDOM w) /\ dom_ref (toDOM w) + 3 <= heap1
        /\ dom_cursor_ref (toDOM w) = dom_ref (toDOM w) + 1
        /\ dom_text_ref (toDOM w) = dom_ref (toDOM w) + 2)
  /\ (forall w1 w2, w1 ∈ ws -> w2 ∈ ws -> w1 <> w2 ->
        dom_ref (toDOM w1) + 3 <= dom_ref (toDOM w2)
        \/ dom_ref (toDOM w2) + 3 <= dom_ref (toDOM w1)).
Proof.
  intros ws heap1. subst ws heap1. unfold getPlaceholderWidgetSpecs. simpl.
  assert (heap (placeholderDecoState state heap0)
            = heap0 + 3 * length (widgetSpecs_of (widgetsMap (placeholderDecoState state heap0)))
          /\ (forall k w, widgetsMap (placeholderDecoState state heap0) !! k = Some (inl w) ->
                heap0 <= dom_ref (toDOM w)
                /\ dom_ref (toDOM w) + 3 <= heap (placeholderDecoState state heap0)
                /\ dom_cursor_ref (toDOM w) = dom_ref (toDOM w) + 1
                /\ dom_text_ref (toDOM w) = dom_ref (toDOM w) + 2)
          /\ (forall k1 w1 k2 w2,
                widgetsMap (placeholderDecoState state heap0) !! k1 = Some (inl w1) ->
                widgetsMap (placeholderDecoState state heap0) !! k2 = Some (inl w2) ->
                k1 <> k2 ->
                dom_ref (toDOM w1) + 3 <= dom_ref (toDOM w2)
                \/ dom_ref (toDOM w2) + 3 <= dom_ref (toDOM w1))) as (Hheap & Hrefs & Hdisj).
  { apply (placeholderDecoState_ind
             (fun st =>
                heap st = heap0 + 3 * length (widgetSpecs_of (widgetsMap st))
                /\ (forall k w, widgetsMap st !! k = Some (inl w) ->
                      heap0 <= dom_ref (toDOM w) /\ dom_ref (toDOM w) + 3 <= heap st
                      /\ dom_cursor_ref (toDOM w) = dom_ref (toDOM w) + 1
                      /\ dom_text_ref (toDOM w) = dom_ref (toDOM w) + 2)
                /\ (forall k1 w1 k2 w2,
                      widgetsMap st !! k1 = Some (inl w1) ->
                      widgetsMap st !! k2 = Some (inl w2) -> k1 <> k2 ->
                      dom_ref (toDOM w1) + 3 <= dom_ref (toDOM w2)
                      \/ dom_ref (toDOM w2) + 3 <= dom_ref (toDOM w1)))).
    - simpl. rewrite widgetSpecs_of_customMap. simpl.
      split; [lia |]. split.
      + intros k w Hk. by destruct (customMap_inr state k _ Hk).
      + intros k1 w1 k2 w2 Hk. by destruct (customMap_inr state k1 _ Hk).
    - intros st node p0 parent ps Hps _ _ (Hheap & Hrefs & Hdisj).
      destruct (addDecoration_cases st node p0 parent (cursorPos_of state) ps Hps)
        as [-> | [(Hfree & key & _ & ->) | (Hfree & _ & c & _ & _ & ->)]];
        [done | |]; simpl.
      + rewrite widgetSpecs_of_insert_inr by done. split; [done |]. split.
        * intros k w. rewrite lookup_insert. case_decide; [done | apply Hrefs].
        * intros k1 w1 k2 w2. rewrite !lookup_insert.
          repeat case_decide; try done. apply Hdisj.
      + rewrite widgetSpecs_of_insert_inl by done. simpl. split; [lia |]. split.
        * intros k w. rewrite lookup_insert. case_decide.
          -- intros Heq. injection Heq as <-. simpl. lia.
          -- intros Hk. destruct (Hrefs k w Hk) as (? & ? & ? & ?). lia.
        * intros k1 w1 k2 w2.
          destruct (decide (p0 + childCount node + 1 = k1)) as [<- | Hn1];
            destruct (decide (p0 + childCount node + 1 = k2)) as [<- | Hn2];
            rewrite ?lookup_insert_eq, ?(lookup_insert_ne _ _ _ _ Hn1),
              ?(lookup_insert_ne _ _ _ _ Hn2); try done.
          -- intros Heq Hk2 _. injection Heq as <-. simpl.
             destruct (Hrefs k2 w2 Hk2) as (? & ? & _). lia.
          -- intros Hk1 Heq _. injection Heq as <-. simpl.
             destruct (Hrefs k1 w1 Hk1) as (? & ? & _). lia.
          -- apply Hdisj. }
  split; [done |]. split.
  - intros w Hw. apply PlaceholderProofs.widgetSpecs_of_elem in Hw as (k & Hk).
    by apply (Hrefs k).
  - intros w1 w2 H1 H2 Hne.
    apply PlaceholderProofs.widgetSpecs_of_elem in H1 as (k1 & Hk1).
    apply PlaceholderProofs.widgetSpecs_of_elem in H2 as (k2 & Hk2).
    apply (Hdisj k1 w1 k2 w2 Hk1 Hk2). intros <-. congruence.
Qed.

(** ** [initState], [applyState] and the props of the plugin *)

Lemma widget_in_map (state : EditorState) (heap0 : nat) (w : WidgetSpec) :
  w ∈ (getPlaceholderWidgetSpecs state heap0).1.1 <->
  widgetsMap (placeholderDecoState state heap0) !! pos w = Some (inl w).
Proof.
  unfold getPlaceholderWidgetSpecs. simpl.
  rewrite PlaceholderProofs.widgetSpecs_of_elem. split.
  - intros (k & Hk).
    by rewrite (PlaceholderProofs.placeholderDecoState_keyed state heap0 k w Hk).
  - intros Hk. by exists (pos w).
Qed.

Lemma widget_focus_iff (state : EditorState) (heap0 : nat) (w : WidgetSpec) :
  w ∈ (getPlaceholderWidgetSpecs state heap0).1.1 ->
  focus (wspec w) = true <-> cursorPos_of state = Some (pos w).
Proof.
  intros Hw. apply widget_in_map in Hw.
  destruct (proj1 (placeholderDecoState_focus state heap0) _ _ Hw) as [-> _].
  apply bool_decide_eq_true.
Qed.

Lemma hasFocus_iff (state : EditorState) (heap0 : nat) :
  (getPlaceholderWidgetSpecs state heap0).1.2 = true <->
  exists w, w ∈ (getPlaceholderWidgetSpecs state heap0).1.1
            /\ focus (wspec w) = true.
Proof.
  unfold getPlaceholderWidgetSpecs at 1. simpl.
  rewrite (proj2 (placeholderDecoState_focus state heap0)). split.
  - intros (k & w & Hk & Hf). exists w. split; [| done].
    unfold getPlaceholderWidgetSpecs. simpl.
    apply PlaceholderProofs.widgetSpecs_of_elem. by exists k.
  - intros (w & Hw & Hf). exists (pos w), w. split; [| done].
    by apply widget_in_map.
Qed.

Lemma widgetSpecs_pos_NoDup (state : EditorState) (heap0 : nat) :
  NoDup (pos <$> (getPlaceholderWidgetSpecs state heap0).1.1).
Proof.
  unfold getPlaceholderWidgetSpecs. simpl.
  apply PlaceholderProofs.widgetSpecs_of_NoDup,
    PlaceholderProofs.placeholderDecoState_keyed.
Qed.

Lemma filter_none {A} (P : A -> Prop) `{forall x, Decision (P x)} (l : list A) :
  (forall x, x ∈ l -> ~ P x) -> filter P l = [].
Proof.
  induction l as [|x l IH]; intros Hp; [done |].
  rewrite filter_cons_False by (apply Hp; by left).
  apply IH. intros y Hy. apply Hp. by right.
Qed.

(** X5: after [initState] the native cursor is hidden (the view gets the
    class [g-md-editor-hidecursor]) exactly when a decoration of the plugin
    sits at the position of the cursor; else the plugin adds no attribute.
    The decorations are the widgets of [getPlaceholderWidgetSpecs], one
    each. *)
Theorem initState_hides_cursor (state : EditorState) (heap0 : nat) :
  let ps := (initState state heap0).1 in
  decorations ps
    = (fun w => Decoration_widget (pos w) (toDOM w) (wspec w))
      <$> (getPlaceholderWidgetSpecs state heap0).1.1
  /\ (attributes ps !! "class"%string = Some "g-md-editor-hidecursor"%string <->
      exists d, d ∈ decorations ps /\ cursorPos_of state = Some (from d))
  /\ ((~ exists d, d ∈ decorations ps /\ cursorPos_of state = Some (from d)) ->
      attributes ps = ∅).
Proof.
  intros ps.
  assert (decorations ps
          = (fun w => Decoration_widget (pos w) (toDOM w) (wspec w))
            <$> (getPlaceholderWidgetSpecs state heap0).1.1
          /\ ps_hasFocus ps = (getPlaceholderWidgetSpecs state heap0).1.2) as [Hd Hf].
  { subst ps. unfold initState.
    destruct (getPlaceholderWidgetSpecs state heap0) as [[ws hf] h1]. done. }
  assert (ps_hasFocus ps = true <->
          exists d, d ∈ decorations ps /\ cursorPos_of state = Some (from d)) as Hiff.
  { rewrite Hf, hasFocus_iff, Hd. split.
    - intros (w & Hw & Hfw). exists (Decoration_widget (pos w) (toDOM w) (wspec w)).
      split; [apply list_elem_of_fmap; by exists w |]. simpl.
      by apply (widget_focus_iff state heap0).
    - intros (d & Hdin & Hc). apply list_elem_of_fmap in Hdin as (w & -> & Hw).
      exists w. split; [done |]. by apply (widget_focus_iff state heap0). }
  split; [done |]. unfold attributes. split.
  - rewrite <- Hiff. destruct (ps_hasFocus ps); [by rewrite lookup_singleton_eq |].
    by rewrite lookup_empty.
  - rewrite <- Hiff. by destruct (ps_hasFocus ps).
Qed.

(** The new set of [applyState], element by element, for a remapped set
    with at most one decoration per position: a remapped decoration that a
    desired widget equals, or the decoration of a desired widget that no
    remapped decoration equals. *)
Lemma applyState_new_elem (tr : Transaction) (ps : PlaceholderPluginState)
    (oldState newState : EditorState) (heap0 : nat) (x : Decoration) :
  let ws := (getPlaceholderWidgetSpecs newState heap0).1.1 in
  let old := oldMappedSet_of tr ps in
  NoDup (from <$> old) ->
  x ∈ decorationSet (applyState tr ps oldState newState heap0).1 <->
  (x ∈ old /\ exists w, w ∈ ws /\ same_widget x w)
  \/ (exists w, w ∈ ws /\ x = Decoration_widget (pos w) (toDOM w) (wspec w)
                /\ ~ exists y, y ∈ old /\ same_widget y w).
Proof.
  intros ws old Hnd.
  assert (forall y, y ∈ old -> from y = to y) as Hwid.
  { intros y Hy. exact (PlaceholderProofs.DecorationSet_map_widget _ _ (tr_doc tr) y Hy). }
  pose proof (fun d => PlaceholderProofs.decorationsThatDidNotChange_NoDup old ws d Hnd Hwid)
    as Hdnc.
  assert (forall w, w ∈ ws ->
            pos w ∉ (from <$> decorationsThatDidNotChange old ws) <->
            ~ exists y, y ∈ old /\ same_widget y w) as Hadd.
  { intros w Hw. split.
    - intros Hnot (y & Hy & Hsame). apply Hnot.
      destruct Hsame as [Hp Hs]. rewrite <- Hp. apply list_elem_of_fmap_2.
      apply Hdnc. split; [done |]. by exists w.
    - intros Hnot Hin. apply list_elem_of_fmap in Hin as (y & Hp & Hy).
      apply Hdnc in Hy as (Hy & w' & Hw' & Hp' & Hs').
      assert (w' = w) as ->.
      { apply (PlaceholderProofs.NoDup_fmap_eq pos ws);
          [apply widgetSpecs_pos_NoDup | done | done | congruence]. }
      apply Hnot. exists y. split; [done |]. by split. }
  rewrite PlaceholderProofs.applyState_decorationSet. fold ws. fold old.
  rewrite elem_of_app, list_elem_of_filter, list_elem_of_fmap. split.
  - intros [[Hx Hxo] | (w & -> & Hw)].
    + left. split; [done |]. by apply Hdnc.
    + apply list_elem_of_filter in Hw as [Hp Hw]. right. exists w.
      split; [done |]. split; [done |]. by apply Hadd.
  - intros [[Hx Hm] | (w & Hw & -> & Hno)].
    + left. split; [| done]. apply Hdnc. by split.
    + right. exists w. split; [done |]. apply list_elem_of_filter.
      split; [| done]. by apply Hadd.
Qed.

(** X6: for a remapped set with at most one decoration per position, the
    new set of [applyState] shows the desired widgets and nothing else:
    every decoration equals a desired widget in position and payload, every
    desired widget is shown by a decoration, and the native cursor is hidden
    exactly when a decoration sits at the cursor of the new state. *)
Theorem applyState_shows_desired (tr : Transaction) (ps : PlaceholderPluginState)
    (oldState newState : EditorState) (heap0 : nat) :
  let ws := (getPlaceholderWidgetSpecs newState heap0).1.1 in
  let ps' := (applyState tr ps oldState newState heap0).1 in
  NoDup (from <$> oldMappedSet_of tr ps) ->
  (forall d, d ∈ decorations ps' -> exists w, w ∈ ws /\ same_widget d w)
  /\ (forall w, w ∈ ws -> exists d, d ∈ decorations ps' /\ same_widget d w)
  /\ (attributes ps' !! "class"%string = Some "g-md-editor-hidecursor"%string <->
      exists d, d ∈ decorations ps' /\ cursorPos_of newState = Some (from d)).
Proof.
  intros ws ps' Hnd.
  pose proof (fun x => applyState_new_elem tr ps oldState newState heap0 x Hnd) as Hnew.
  assert (forall d, d ∈ decorations ps' -> exists w, w ∈ ws /\ same_widget d w) as Hsound.
  { intros d Hd. apply Hnew in Hd as [[_ Hm] | (w & Hw & -> & _)]; [done |].
    exists w. split; [done |]. by split. }
  assert (forall w, w ∈ ws -> exists d, d ∈ decorations ps' /\ same_widget d w) as Hcompl.
  { intros w Hw.
    destruct (decide (Exists (fun y => same_widget y w) (oldMappedSet_of tr ps)))
      as [Hex | Hno].
    - apply Exists_exists in Hex as (y & Hy & Hsame). exists y. split; [| done].
      apply Hnew. left. split; [done |]. by exists w.
    - exists (Decoration_widget (pos w) (toDOM w) (wspec w)). split; [| by split].
      apply Hnew. right. exists w. split; [done |]. split; [done |].
      intros (y & Hy & Hsame). apply Hno, Exists_exists. by exists y. }
  split; [done |]. split; [done |].
  assert (ps_hasFocus ps' = (getPlaceholderWidgetSpecs newState heap0).1.2) as Hf.
  { subst ps'. unfold applyState.
    destruct (getPlaceholderWidgetSpecs newState heap0) as [[ws' hf] h1]. done. }
  unfold attributes. rewrite Hf.
  assert ((getPlaceholderWidgetSpecs newState heap0).1.2 = true <->
          exists d, d ∈ decorations ps' /\ cursorPos_of newState = Some (from d)) as Hiff.
  { rewrite hasFocus_iff. split.
    - intros (w & Hw & Hfw). destruct (Hcompl w Hw) as (d & Hd & Hp & _).
      exists d. split; [done |]. rewrite Hp. by apply (widget_focus_iff newState heap0).
    - intros (d & Hd & Hc). destruct (Hsound d Hd) as (w & Hw & Hp & _).
      exists w. split; [done |]. apply (widget_focus_iff newState heap0); [done |].
      by rewrite <- Hp. }
  rewrite <- Hiff.
  destruct ((getPlaceholderWidgetSpecs newState heap0).1.2);
    [by rewrite lookup_singleton_eq | by rewrite lookup_empty].
Qed.

(** When a set of widget decorations and the desired widgets agree in
    positions and payloads, both sides of the diff of [applyState] are
    empty: every decoration of the set did not change, and no widget is
    new. *)
Lemma diff_empty (old : DecorationSet) (ws : list WidgetSpec) :
  NoDup (from <$> old) ->
  (forall y, y ∈ old -> from y = to y) ->
  (forall x, x ∈ old -> exists w, w ∈ ws /\ same_widget x w) ->
  (forall w, w ∈ ws -> exists x, x ∈ old /\ same_widget x w) ->
  filter (fun d => d ∈ decorationsThatDidNotChange old ws) old = old
  /\ filter (fun w => pos w ∉ (from <$> decorationsThatDidNotChange old ws)) ws = [].
Proof.
  intros Hnd Hwid Hold Hws.
  pose proof (fun d => PlaceholderProofs.decorationsThatDidNotChange_NoDup old ws d Hnd Hwid)
    as Hdnc.
  split.
  - apply PlaceholderProofs.filter_all.
    intros x Hx. apply Hdnc. split; [done |]. by apply Hold.
  - apply filter_none.
    intros w Hw Hnot. destruct (Hws w Hw) as (x & Hx & Hp & Hs).
    apply Hnot. rewrite <- Hp. apply list_elem_of_fmap_2.
    apply Hdnc. split; [done |]. exists w. by repeat split.
Qed.

(** X7: when the remapped set already shows the desired widgets, each
    position once, [applyState] returns the remapped set itself: nothing is
    removed, nothing is added, and no element that the call created is
    used. *)
Theorem applyState_no_churn (tr : Transaction) (ps : PlaceholderPluginState)
    (oldState newState : EditorState) (heap0 : nat) :
  let ws := (getPlaceholderWidgetSpecs newState heap0).1.1 in
  let old := oldMappedSet_of tr ps in
  NoDup (from <$> old) ->
  (forall x, x ∈ old -> exists w, w ∈ ws /\ same_widget x w) ->
  (forall w, w ∈ ws -> exists x, x ∈ old /\ same_widget x w) ->
  decorationSet (applyState tr ps oldState newState heap0).1 = old.
Proof.
  intros ws old Hnd Hold Hws.
  assert (forall y, y ∈ old -> from y = to y) as Hwid.
  { intros y Hy. exact (PlaceholderProofs.DecorationSet_map_widget _ _ (tr_doc tr) y Hy). }
  rewrite PlaceholderProofs.applyState_decorationSet. fold ws. fold old.
  destruct (diff_empty old ws Hnd Hwid Hold Hws) as [-> ->].
  by rewrite app_nil_r.
Qed.

(** X8: the two ends of the diff.  When no widget is desired, [applyState]
    returns the empty set, whatever the old set was; when nothing of the old
    set is left after the remapping, it returns the decorations of the
    desired widgets, as [initState] does. *)
Theorem applyState_ends (tr : Transaction) (ps : PlaceholderPluginState)
    (oldState newState : EditorState) (heap0 : nat) :
  ((getPlaceholderWidgetSpecs newState heap0).1.1 = [] ->
   decorationSet (applyState tr ps oldState newState heap0).1 = [])
  /\ (oldMappedSet_of tr ps = [] ->
      decorationSet (applyState tr ps oldState newState heap0).1
      = decorationSet (initState newState heap0).1).
Proof.
  split.
  - intros Hws. rewrite PlaceholderProofs.applyState_decorationSet, Hws. simpl.
    rewrite app_nil_r. apply filter_none. intros x _ Hx. by apply elem_of_nil in Hx.
  - intros Hold. rewrite PlaceholderProofs.applyState_decorationSet, Hold. simpl.
    unfold decorationsThatDidNotChange.
    assert (forall ws acc,
              foldl (fun a w =>
                       match DecorationSet_find [] (pos w) (pos w) with
                       | d0 :: _ =>
                           if decide (d_spec d0 = wspec w)
                           then a ++ DecorationSet_find [] (pos w) (pos w) else a
                       | [] => a
                       end) acc ws = acc) as Hfold.
    { induction ws as [|w ws IH]; intros acc; simpl; [done | apply IH]. }
    rewrite Hfold. simpl.
    rewrite PlaceholderProofs.filter_all by (intros w _ Hw; by apply elem_of_nil in Hw).
    unfold initState.
    destruct (getPlaceholderWidgetSpecs newState heap0) as [[ws hf] h1]. done.
Qed.

(** X9: when the payload at a position changes (the cursor enters or leaves
    the position of a placeholder), the remapped decoration there is
    removed and the decoration of the desired widget, with the element that
    this call created, is the only one at the position.  This is for a
    remapped set with at most one decoration per position. *)
Theorem applyState_replaces_on_focus_change (tr : Transaction)
    (ps : PlaceholderPluginState) (oldState newState : EditorState) (heap0 : nat)
    (d : Decoration) (w : WidgetSpec) :
  let ws := (getPlaceholderWidgetSpecs newState heap0).1.1 in
  let old := oldMappedSet_of tr ps in
  let new := decorationSet (applyState tr ps oldState newState heap0).1 in
  NoDup (from <$> old) ->
  d ∈ old -> w ∈ ws -> from d = pos w -> d_spec d <> wspec w ->
  (d ∉ new)
  /\ Decoration_widget (pos w) (toDOM w) (wspec w) ∈ new
  /\ (forall x, x ∈ new -> from x = pos w ->
        x = Decoration_widget (pos w) (toDOM w) (wspec w))
  /\ heap0 <= dom_ref (toDOM w).
Proof.
  intros ws old new Hnd Hd Hw Hpos Hspec.
  pose proof (fun x => applyState_new_elem tr ps oldState newState heap0 x Hnd) as Hnew.
  assert (forall w', w' ∈ ws -> pos w' = pos w -> w' = w) as Hwuniq.
  { intros w' Hw' Hp.
    apply (PlaceholderProofs.NoDup_fmap_eq pos ws);
      [apply widgetSpecs_pos_NoDup | done..]. }
  assert (forall y, y ∈ old -> from y = pos w -> y = d) as Hduniq.
  { intros y Hy Hp. apply (PlaceholderProofs.NoDup_fmap_eq from old); [done..|congruence]. }
  assert (~ exists y, y ∈ old /\ same_widget y w) as Hno.
  { intros (y & Hy & Hp & Hs). rewrite (Hduniq y Hy Hp) in Hs. done. }
  split; [| split; [| split]].
  - intros Hin. apply Hnew in Hin as [[_ (w' & Hw' & Hp & Hs)] | (w' & Hw' & Heq & _)].
    + rewrite (Hwuniq w' Hw') in Hs by congruence. done.
    + subst d. simpl in *. rewrite (Hwuniq w' Hw' Hpos) in Hspec. done.
  - apply Hnew. right. by exists w.
  - intros x Hx Hp. apply Hnew in Hx as [[Hx (w' & Hw' & Hp' & Hs)] | (w' & Hw' & -> & _)].
    + exfalso. rewrite (Hduniq x Hx Hp) in Hp', Hs.
      rewrite (Hwuniq w' Hw') in Hs by congruence. done.
    + simpl in Hp. by rewrite (Hwuniq w' Hw' Hp).
  - by apply (PlaceholderProofs.getPlaceholderWidgetSpecs_fresh newState heap0).
Qed.

(** [findParentNodeClosestToPos] returns the deepest level of the path,
    from depth 1 on, whose node satisfies the predicate. *)
Lemma findParent_from_closest (rp : ResolvedPos) (predicate : Node -> bool)
    (i k : nat) (node : Node) :
  0 < i -> i <= k ->
  rp_node rp i = Some node -> predicate node = true ->
  (forall j n, i < j -> j <= k -> rp_node rp j = Some n -> predicate n = false) ->
  findParent_from rp predicate k
  = Some {| pn_pos := rp_before rp i; pn_start := rp_start rp i;
            pn_depth := i; pn_node := node |}.
Proof.
  intros Hi Hik Hnode Hpred. induction k as [|k IH]; intros Hdeeper; [lia |].
  destruct (decide (i = S k)) as [-> | Hne].
  - simpl. rewrite Hnode, Hpred. done.
  - simpl. destruct (rp_node rp (S k)) as [n|] eqn:Hn.
    + rewrite (Hdeeper (S k) n) by (done || lia).
      apply IH; [lia |]. intros j m Hj Hjk. apply Hdeeper; lia.
    + apply IH; [lia |]. intros j m Hj Hjk. apply Hdeeper; lia.
Qed.

Lemma findParent_from_none (rp : ResolvedPos) (predicate : Node -> bool) (k : nat) :
  (forall j n, 0 < j -> j <= k -> rp_node rp j = Some n -> predicate n = false) ->
  findParent_from rp predicate k = None.
Proof.
  induction k as [|k IH]; intros Hall; [done |]. simpl.
  destruct (rp_node rp (S k)) as [n|] eqn:Hn.
  - rewrite (Hall (S k) n) by (done || lia). apply IH.
    intros j m Hj Hjk. apply Hall; lia.
  - apply IH. intros j m Hj Hjk. apply Hall; lia.
Qed.

(** X10: the placeholder at the cursor goes to the deepest ancestor of the
    selection, below the document, whose type has a placeholder spec, and
    to no other: [addDecoration] is called for it, at the position before
    it and with the ancestor one level up as parent, when its placeholder is
    needed and not always visible; else nothing is added, and no ancestor
    farther up is tried.  Without such an ancestor nothing is added, also
    when the document node itself has a placeholder spec. *)
Theorem cursor_placeholder_closest_ancestor (state : EditorState)
    (cursorPos : option nat) (st : DecoState) :
  let rp := sel_from (selection state) in
  (forall i node ps,
      0 < i -> i <= rp_depth rp ->
      rp_node rp i = Some node ->
      placeholder (spec (type node)) = Some ps ->
      (forall j n, i < j -> j <= rp_depth rp -> rp_node rp j = Some n ->
         placeholder (spec (type n)) = None) ->
      decorateCursorParent state cursorPos st
      = if placeholderNeeded node && negb (alwaysVisible ps)
        then addDecoration st node (rp_before rp i) (rp_node rp (i - 1)) cursorPos
        else st)
  /\ ((forall j n, 0 < j -> j <= rp_depth rp -> rp_node rp j = Some n ->
         placeholder (spec (type n)) = None) ->
      decorateCursorParent state cursorPos st = st).
Proof.
  intros rp. split.
  - intros i node ps Hi Hdepth Hnode Hps Hdeeper.
    unfold decorateCursorParent, findParentNodeClosestToPos. fold rp.
    rewrite (findParent_from_closest rp _ i (rp_depth rp) node Hi Hdepth Hnode).
    + simpl. rewrite Hps.
      rewrite bool_decide_eq_true_2 by done. done.
    + rewrite Hps. apply bool_decide_eq_true_2. by eexists.
    + intros j n Hj Hjk Hn. rewrite (Hdeeper j n Hj Hjk Hn).
      apply bool_decide_eq_false_2. by intros [? ?].
  - intros Hall. unfold decorateCursorParent, findParentNodeClosestToPos. fold rp.
    rewrite findParent_from_none; [done |].
    intros j n Hj Hjk Hn. rewrite (Hall j n Hj Hjk Hn).
    apply bool_decide_eq_false_2. by intros [? ?].
Qed.

(** ** The allocation counter does not influence what is placed *)

Lemma sim_lookup (st1 st2 : DecoState) (k : nat) :
  sim st1 st2 ->
  is_Some (widgetsMap st1 !! k) <-> is_Some (widgetsMap st2 !! k).
Proof.
  intros [_ Hm].
  rewrite <- (fmap_is_Some erase (widgetsMap st1 !! k)).
  rewrite <- (fmap_is_Some erase (widgetsMap st2 !! k)).
  rewrite <- !lookup_fmap. by rewrite Hm.
Qed.

Lemma sim_widget (st1 st2 : DecoState) (k : nat) (w : WidgetSpec) :
  sim st1 st2 -> widgetsMap st1 !! k = Some (inl w) ->
  exists w', widgetsMap st2 !! k = Some (inl w')
             /\ pos w' = pos w /\ wspec w' = wspec w.
Proof.
  intros [_ Hm] Hk.
  assert ((erase <$> widgetsMap st2) !! k = Some (erase (inl w))) as Hk2.
  { rewrite <- Hm, lookup_fmap, Hk. done. }
  rewrite lookup_fmap in Hk2.
  destruct (widgetsMap st2 !! k) as [[w'|key]|]; simpl in Hk2; try done.
  exists w'. split; [done |]. by injection Hk2 as -> -> _ _.
Qed.

Lemma addDecoration_sim (st1 st2 : DecoState) (node : Node) (p0 : nat)
    (parent : option Node) (cursorPos : option nat) :
  sim st1 st2 ->
  sim (addDecoration st1 node p0 parent cursorPos)
      (addDecoration st2 node p0 parent cursorPos).
Proof.
  intros Hsim. pose proof Hsim as [Hf Hm]. unfold addDecoration.
  destruct (placeholder (spec (type node))) as [ps|]; [| done].
  rewrite (bool_decide_ext _ _ (sim_lookup st1 st2 (p0 + childCount node + 1) Hsim)).
  destruct (bool_decide (is_Some (widgetsMap st2 !! (p0 + childCount node + 1))));
    [done |].
  destruct (customPlugin ps) as [key|].
  - split; [done |]. simpl. by rewrite !fmap_insert, Hm.
  - unfold createPlaceholder.
    destruct (getPlaceholderContent node parent) as [c|]; [| done].
    destruct (decide (c = ""%string)); [done |].
    split; simpl.
    + by rewrite Hf.
    + by rewrite !fmap_insert, Hm.
Qed.

Lemma placeholderDecoState_sim (state : EditorState) (h1 h2 : nat) :
  sim (placeholderDecoState state h1) (placeholderDecoState state h2).
Proof.
  unfold placeholderDecoState.
  fold (cursorPos_of state). fold (customMap state).
  assert (forall vs st1 st2, sim st1 st2 ->
            sim (foldl (decorate (cursorPos_of state)) st1 vs)
                (foldl (decorate (cursorPos_of state)) st2 vs)) as Hwalk.
  { induction vs as [|v vs IH]; intros st1 st2 Hsim; simpl; [done |].
    apply IH. unfold decorate.
    destruct (placeholder (spec (type (v_node v)))) as [ps|]; [| done].
    destruct (alwaysVisible ps && placeholderNeeded (v_node v)); [| done].
    by apply addDecoration_sim. }
  unfold decorateCursorParent.
  destruct (findParentNodeClosestToPos _ _) as [pn|]; [| by apply Hwalk].
  destruct (placeholder (spec (type (pn_node pn)))) as [ps|]; [| by apply Hwalk].
  destruct (placeholderNeeded (pn_node pn) && negb (alwaysVisible ps));
    [| by apply Hwalk].
  apply addDecoration_sim. by apply Hwalk.
Qed.

Lemma DecorationSet_map_id (set : DecorationSet) (mapResult : nat -> MapResult)
    (d : Node) :
  (forall x, x ∈ set ->
     from x = to x
     /\ mapResult (from x) = {| mr_pos := from x; mr_deleted := false |}) ->
  DecorationSet_map set mapResult d = set.
Proof.
  unfold DecorationSet_map.
  induction set as [|x set IH]; intros Hall; [done |].
  destruct (Hall x) as [Hw Hmap]; [by left |].
  assert (Decoration_map mapResult x = Some x) as Hx.
  { unfold Decoration_map. rewrite Hmap. simpl. f_equal.
    destruct x as [f t dom sp]. simpl in *. by subst t. }
  cbn [omap list_omap]. rewrite Hx. f_equal.
  apply IH. intros y Hy. apply Hall. by right.
Qed.

(** X11: a transaction that leaves the positions of the placeholders where
    they are and leads to a state that the placeholders were computed for
    keeps the decorations of [initState] as they are: the same set with the
    same elements, and the same [hasFocus], although
    [getPlaceholderWidgetSpecs] has built new elements ([heap1] is any
    allocation counter; what is placed does not depend on it). *)
Theorem applyState_idle (tr : Transaction) (oldState state : EditorState)
    (heap0 heap1 : nat) :
  let ps := (initState state heap0).1 in
  let ps' := (applyState tr ps oldState state heap1).1 in
  (forall d, d ∈ decorations ps ->
     tr_mapResult tr (from d) = {| mr_pos := from d; mr_deleted := false |}) ->
  decorations ps' = decorations ps /\ ps_hasFocus ps' = ps_hasFocus ps.
Proof.
  intros ps ps' Hmap. unfold decorations in *.
  assert (decorationSet ps
          = (fun w => Decoration_widget (pos w) (toDOM w) (wspec w))
            <$> widgetSpecs_of (widgetsMap (placeholderDecoState state heap0)))
    as Hps.
  { subst ps. unfold initState, getPlaceholderWidgetSpecs. done. }
  assert (oldMappedSet_of tr ps = decorationSet ps) as Hold.
  { apply DecorationSet_map_id. intros x Hx. split; [| by apply Hmap].
    rewrite Hps in Hx. apply list_elem_of_fmap in Hx as (w & -> & _). done. }
  assert (forall h h' w,
            w ∈ widgetSpecs_of (widgetsMap (placeholderDecoState state h)) ->
            exists w', w' ∈ widgetSpecs_of (widgetsMap (placeholderDecoState state h'))
                       /\ pos w' = pos w /\ wspec w' = wspec w) as Hsim.
  { intros h h' w Hw.
    apply PlaceholderProofs.widgetSpecs_of_elem in Hw as (k & Hk).
    destruct (sim_widget _ _ k w (placeholderDecoState_sim state h h') Hk)
      as (w' & Hk' & Hp & Hs).
    exists w'. split; [| done].
    apply PlaceholderProofs.widgetSpecs_of_elem. by exists k. }
  split.
  - subst ps'. rewrite PlaceholderProofs.applyState_decorationSet.
    cbn zeta. rewrite Hold.
    destruct (diff_empty (decorationSet ps)
                (getPlaceholderWidgetSpecs state heap1).1.1) as [-> ->];
      [| | | | by rewrite app_nil_r].
    + rewrite Hps. rewrite <- list_fmap_compose.
      rewrite (list_fmap_ext _ pos) by done.
      apply PlaceholderProofs.widgetSpecs_of_NoDup,
        PlaceholderProofs.placeholderDecoState_keyed.
    + intros y Hy. rewrite Hps in Hy.
      apply list_elem_of_fmap in Hy as (w & -> & _). done.
    + intros x Hx. rewrite Hps in Hx.
      apply list_elem_of_fmap in Hx as (w & -> & Hw).
      destruct (Hsim heap0 heap1 w Hw) as (w' & Hw' & Hp & Hs).
      exists w'. split; [done |]. by split.
    + intros w Hw. unfold getPlaceholderWidgetSpecs in Hw. simpl in Hw.
      destruct (Hsim heap1 heap0 w Hw) as (w' & Hw' & Hp & Hs).
      exists (Decoration_widget (pos w') (toDOM w') (wspec w')).
      split; [| by split].
      rewrite Hps. apply list_elem_of_fmap. by exists w'.
  - subst ps ps'. unfold applyState, initState, getPlaceholderWidgetSpecs. simpl.
    symmetry. apply (placeholderDecoState_sim state heap0 heap1).
Qed.

End WithUtils.

Abbreviation ex_utils := Examples.example_utils.

Lemma widget_focus_at_cursor_witness :
  let state := MoreExamples.titleFocusState "ab" in
  let w := MoreExamples.title_widget 5 0 true in
  focus (wspec w) = true
  /\ cursorPos_of (utils := ex_utils) state = Some (pos w)
  /\ (getPlaceholderWidgetSpecs (utils := ex_utils) state 0).1.2 = true.
Proof.
  intros state w.
  destruct (widget_focus_at_cursor (utils := ex_utils) state 0)
    as (Hw & Hhf & _).
  destruct (Hw w) as [[Hfocus _] _]; [vm_compute; left |].
  split; [reflexivity |]. split; [apply Hfocus; reflexivity |].
  apply Hhf. exists w. split; [vm_compute; left | apply Hfocus; reflexivity].
Defined.

Lemma no_widget_at_custom_position_witness :
  let state := MoreExamples.twoTitlesState [1] in
  let w := MoreExamples.title_widget 3 0 false in
  w ∈ (getPlaceholderWidgetSpecs (utils := ex_utils) state 0).1.1
  /\ pos w <> cs_pos {| cs_pos := 1 |}.
Proof.
  intros state w.
  assert (Hw : w ∈ (getPlaceholderWidgetSpecs (utils := ex_utils) state 0).1.1)
    by (vm_compute; left).
  split; [exact Hw |].
  apply (no_widget_at_custom_position (utils := ex_utils) state 0
           MoreExamples.customKey [{| cs_pos := 1 |}] {| cs_pos := 1 |} w).
  - vm_compute. left.
  - reflexivity.
  - left.
  - exact Hw.
Defined.

Lemma widget_has_site_witness :
  let state := Examples.noteState in
  let w := MoreExamples.title_widget 6 10 false in
  exists node p0 parent ps,
    placeholder (spec (type node)) = Some ps
    /\ customPlugin ps = None
    /\ placement_site state node p0 parent ps
    /\ pos w = p0 + childCount node + 1.
Proof.
  intros state w.
  destruct (widget_has_site (utils := ex_utils) state 10 w)
    as (node & p0 & parent & ps & H1 & H2 & H3 & _ & H5 & _);
    [vm_compute; left |].
  exists node, p0, parent, ps. repeat split; assumption.
Defined.

Lemma widget_elements_allocated_witness :
  let state := MoreExamples.twoTitlesState [] in
  let w1 := MoreExamples.title_widget 1 0 false in
  let w2 := MoreExamples.title_widget 3 3 false in
  (getPlaceholderWidgetSpecs (utils := ex_utils) state 0).2 = 6
  /\ (dom_ref (toDOM w1) + 3 <= dom_ref (toDOM w2)
      \/ dom_ref (toDOM w2) + 3 <= dom_ref (toDOM w1)).
Proof.
  intros state w1 w2.
  destruct (widget_elements_allocated (utils := ex_utils) state 0)
    as (Hheap & _ & Hdisj).
  split; [exact Hheap |].
  apply Hdisj; [vm_compute; left | vm_compute; right; left |].
  subst w1 w2. discriminate.
Defined.

Lemma initState_hides_cursor_witness :
  attributes (initState (utils := ex_utils) (MoreExamples.titleFocusState "ab") 0).1
    !! "class"%string = Some "g-md-editor-hidecursor"%string
  /\ attributes (initState (utils := ex_utils) Examples.noteState 0).1 = ∅.
Proof.
  split.
  - destruct (initState_hides_cursor (utils := ex_utils)
                (MoreExamples.titleFocusState "ab") 0) as (_ & Hiff & _).
    apply Hiff.
    exists (Decoration_widget 5 (placeholder_element 0 true "yfm_note_title")
              {| focus := true |}).
    split; [vm_compute; left | reflexivity].
  - destruct (initState_hides_cursor (utils := ex_utils) Examples.noteState 0)
      as (_ & _ & Hnone).
    apply Hnone. intros (d & Hd & Hc).
    change (d ∈ [Decoration_widget 6 (placeholder_element 0 false "yfm_note_title")
                   {| focus := false |}]) in Hd.
    apply list_elem_of_singleton in Hd. subst d. discriminate Hc.
Defined.

Lemma applyState_shows_desired_witness :
  let ps0 := (initState (utils := ex_utils) (Examples.twoBlocksState "a") 0).1 in
  let ps' := (applyState (utils := ex_utils) Examples.tr_type_b ps0
                (Examples.twoBlocksState "a") (Examples.twoBlocksState "ab") 3).1 in
  NoDup (from <$> oldMappedSet_of Examples.tr_type_b ps0)
  /\ exists d, d ∈ decorations ps' /\ same_widget d (MoreExamples.title_widget 5 3 false).
Proof.
  intros ps0 ps'.
  assert (Hnd : NoDup (from <$> oldMappedSet_of Examples.tr_type_b ps0))
    by (vm_compute; apply NoDup_singleton).
  split; [exact Hnd |].
  destruct (applyState_shows_desired (utils := ex_utils) Examples.tr_type_b ps0
              (Examples.twoBlocksState "a") (Examples.twoBlocksState "ab") 3 Hnd)
    as (_ & Hshow & _).
  apply Hshow. vm_compute. left.
Defined.

Lemma applyState_no_churn_witness :
  let ps0 := (initState (utils := ex_utils) (Examples.twoBlocksState "a") 0).1 in
  decorationSet (applyState (utils := ex_utils) Examples.tr_type_b ps0
                   (Examples.twoBlocksState "a") (Examples.twoBlocksState "ab") 3).1
  = [Decoration_widget 5 (placeholder_element 0 false "yfm_note_title")
       {| focus := false |}].
Proof.
  intros ps0.
  apply (applyState_no_churn (utils := ex_utils) Examples.tr_type_b ps0
           (Examples.twoBlocksState "a") (Examples.twoBlocksState "ab") 3).
  - vm_compute. apply NoDup_singleton.
  - intros x Hx.
    change (x ∈ [Decoration_widget 5 (placeholder_element 0 false "yfm_note_title")
                   {| focus := false |}]) in Hx.
    apply list_elem_of_singleton in Hx. subst x.
    exists (MoreExamples.title_widget 5 3 false). split; [vm_compute; left | by split].
  - intros w Hw.
    change (w ∈ [MoreExamples.title_widget 5 3 false]) in Hw.
    apply list_elem_of_singleton in Hw. subst w.
    exists (Decoration_widget 5 (placeholder_element 0 false "yfm_note_title")
              {| focus := false |}).
    split; [vm_compute; left | by split].
Defined.

Lemma applyState_ends_witness :
  let ps0 := (initState (utils := ex_utils) (Examples.twoBlocksState "a") 0).1 in
  decorationSet (applyState (utils := ex_utils) Examples.tr_type_x ps0
                   (Examples.twoBlocksState "a")
                   (Examples.state_of (tr_doc Examples.tr_type_x)) 3).1 = []
  /\ decorationSet
       (applyState (utils := ex_utils) Examples.tr_type_b
          {| decorationSet := []; ps_hasFocus := false |}
          (Examples.twoBlocksState "a") (Examples.twoBlocksState "ab") 0).1
     = decorationSet (initState (utils := ex_utils) (Examples.twoBlocksState "ab") 0).1.
Proof.
  intros ps0. split.
  - destruct (applyState_ends (utils := ex_utils) Examples.tr_type_x ps0
                (Examples.twoBlocksState "a")
                (Examples.state_of (tr_doc Examples.tr_type_x)) 3) as [Hnone _].
    apply Hnone. reflexivity.
  - destruct (applyState_ends (utils := ex_utils) Examples.tr_type_b
                {| decorationSet := []; ps_hasFocus := false |}
                (Examples.twoBlocksState "a") (Examples.twoBlocksState "ab") 0)
      as [_ Hinit].
    apply Hinit. reflexivity.
Defined.

Lemma applyState_replaces_on_focus_change_witness :
  let ps0 := (initState (utils := ex_utils) (Examples.twoBlocksState "ab") 0).1 in
  let new := decorationSet
               (applyState (utils := ex_utils) MoreExamples.tr_move ps0
                  (Examples.twoBlocksState "ab")
                  (MoreExamples.titleFocusState "ab") 3).1 in
  let d := Decoration_widget 5 (placeholder_element 0 false "yfm_note_title")
             {| focus := false |} in
  let w := MoreExamples.title_widget 5 3 true in
  (d ∉ new) /\ Decoration_widget (pos w) (toDOM w) (wspec w) ∈ new.
Proof.
  intros ps0 new d w.
  destruct (applyState_replaces_on_focus_change (utils := ex_utils)
              MoreExamples.tr_move ps0 (Examples.twoBlocksState "ab")
              (MoreExamples.titleFocusState "ab") 3 d w) as (Hgone & Hnew & _).
  - vm_compute. apply NoDup_singleton.
  - vm_compute. left.
  - vm_compute. left.
  - reflexivity.
  - subst d w. discriminate.
  - split; assumption.
Defined.

Lemma applyState_idle_witness :
  let ps := (initState (utils := ex_utils) (MoreExamples.titleFocusState "ab") 0).1 in
  decorations
    (applyState (utils := ex_utils) MoreExamples.tr_move ps
       (Examples.twoBlocksState "ab") (MoreExamples.titleFocusState "ab") 3).1
  = [Decoration_widget 5 (placeholder_element 0 true "yfm_note_title")
       {| focus := true |}].
Proof.
  intros ps.
  destruct (applyState_idle (utils := ex_utils) MoreExamples.tr_move
              (Examples.twoBlocksState "ab") (MoreExamples.titleFocusState "ab") 0 3)
    as [Hsame _].
  - intros d _. reflexivity.
  - exact Hsame.
Defined.

Lemma cursor_placeholder_closest_ancestor_witness :
  let st := {| widgetsMap := ∅; hasFocus := false; heap := 0 |} in
  decorateCursorParent (utils := ex_utils) MoreExamples.emptyNoteState (Some 2) st
  = addDecoration (utils := ex_utils) st MoreExamples.emptyNote 0
      (Some MoreExamples.emptyNoteDoc) (Some 2).
Proof.
  intros st.
  destruct (cursor_placeholder_closest_ancestor (utils := ex_utils)
              MoreExamples.emptyNoteState (Some 2) st) as [Hclosest _].
  rewrite (Hclosest 1 MoreExamples.emptyNote
             {| customPlugin := None; alwaysVisible := false |}).
  - reflexivity.
  - lia.
  - vm_compute. lia.
  - reflexivity.
  - reflexivity.
  - intros j n Hlt Hle Hn.
    change (j <= 2) in Hle.
    assert (j = 2) as -> by lia.
    injection Hn as <-. reflexivity.
Defined.

End PlaceholderMore.

(** * More properties of [dispatchTransaction] *)

Module EditorMore.
Import PM PMState Editor.

Section Dispatch.
Context {Err U L : Type}.
Context {TypeSpec ParserHandler SerializerHandler PluginFactory TransformFn : Type}.
Context {env : Env Err L TypeSpec ParserHandler PluginFactory TransformFn}.

Abbreviation OnChange := (@OnChange Err U).
Abbreviation World := (World Err U L).

(** X12: two dispatches in a row.  When [state.apply] throws for the first
    transaction, nothing happens and the second dispatch does not run; when
    the metrics logging of the first dispatch throws, the second does not
    run either and the view has the state of the first transaction.  Else
    the second transaction is applied to the state that the first one left:
    when [state.apply] throws for it (it was made for another document,
    say), the view keeps the state of the first transaction and the trace
    that of the first dispatch; when it returns, the view ends in its
    result and the trace is that of the first dispatch followed by that of
    the second, which starts from the world that the first one left. *)
Theorem dispatch_twice (onChange onDocChange : option OnChange)
    (tr1 tr2 : Transaction) (w : World) :
  let r1 := dispatchTransaction onChange onDocChange tr1 w in
  let r := bindM (dispatchTransaction onChange onDocChange tr1)
             (fun _ => dispatchTransaction onChange onDocChange tr2) w in
  match EditorState_apply (view_state w) tr1 with
  | Thrown e => r = (Thrown e, w)
  | Returned st1 =>
      match (logTransactionMetrics tr1 (logger w)).1 with
      | Thrown e => r = r1 /\ r.1 = Thrown e /\ view_state r.2 = st1
      | Returned _ =>
          match EditorState_apply st1 tr2 with
          | Thrown e =>
              r = (Thrown e, r1.2)
              /\ view_state r.2 = st1
              /\ trace r.2 = trace w ++ dispatch_events onChange onDocChange tr1 w
          | Returned st2 =>
              view_state r.2 = st2
              /\ trace r.2
                 = trace w ++ dispatch_events onChange onDocChange tr1 w
                           ++ dispatch_events onChange onDocChange tr2 r1.2
              /\ r.1 = (logTransactionMetrics tr2 (logger r1.2)).1
          end
      end
  end.
Proof.
  intros r1 r. subst r r1. unfold bindM.
  rewrite (EditorProofs.dispatchTransaction_run onChange onDocChange tr1 w).
  destruct (EditorState_apply (view_state w) tr1) as [st1|e1]; [| reflexivity].
  cbn zeta. cbn [fst snd].
  destruct (logTransactionMetrics tr1 (logger w)).1 as [[]|e]; [| done].
  rewrite EditorProofs.dispatchTransaction_run. cbn [view_state].
  destruct (EditorState_apply st1 tr2) as [st2|e2] eqn:Happly2.
  - cbn zeta. cbn [fst snd view_state trace logger].
    rewrite <- app_assoc. done.
  - done.
Qed.

(** X13: the callbacks are called on the state that the transaction
    produced, in the caller's state as the call before left it: the change
    callback on the caller's state at the dispatch, the document-change
    callback on what the change callback made of it, also when that one
    threw: what a callback did before it threw stays done.  When
    [state.apply] throws there is no new state and no call. *)
Theorem callbacks_see_new_state (onChange onDocChange : option OnChange)
    (tr : Transaction) (w : World) :
  let r := dispatchTransaction onChange onDocChange tr w in
  match EditorState_apply (view_state w) tr with
  | Returned st =>
      (forall cb, onChange = Some cb ->
         docChanged tr = false \/ onDocChange = None ->
         user r.2 = (cb st (user w)).2)
      /\ (forall cb cb', onChange = Some cb -> onDocChange = Some cb' ->
            docChanged tr = true ->
            user r.2 = (cb' st (cb st (user w)).2).2)
      /\ (forall cb', onChange = None -> onDocChange = Some cb' ->
            docChanged tr = true ->
            user r.2 = (cb' st (user w)).2)
  | Thrown e => r = (Thrown e, w)
  end.
Proof.
  intros r. subst r. rewrite EditorProofs.dispatchTransaction_run.
  destruct (EditorState_apply (view_state w) tr) as [st|e]; [| reflexivity].
  simpl. split; [| split].
  - intros cb -> [-> | ->]; [done |]. by destruct (docChanged tr).
  - by intros cb cb' -> -> ->.
  - by intros cb' -> -> ->.
Qed.

End Dispatch.

Lemma dispatch_twice_witness :
  let w := Examples.world0 in
  let twice (env : Env string (list Transaction) unit unit unit unit) tr1 tr2 :=
    bindM (dispatchTransaction (env := env)
             (Some Examples.cb_count) (Some Examples.cb_throw) tr1)
      (fun _ => dispatchTransaction (env := env)
                  (Some Examples.cb_count) (Some Examples.cb_throw) tr2) w in
  view_state (twice Examples.example_env Examples.tr_type_x
                MoreExamples.tr_select_x).2
  = Examples.state_of (tr_doc MoreExamples.tr_select_x)
  /\ (twice Examples.example_env Examples.tr_type_x Examples.tr_select).1
     = Thrown "Applying a mismatched transaction"%string
  /\ view_state (twice Examples.example_env Examples.tr_type_x
                   Examples.tr_select).2
     = Examples.state_of (tr_doc Examples.tr_type_x)
  /\ (twice MoreExamples.throwing_env Examples.tr_type_x
        MoreExamples.tr_select_x).1
     = Thrown "metrics"%string.
Proof.
  intros w twice. split; [| split; [| split]].
  - destruct (dispatch_twice (env := Examples.example_env)
                (Some Examples.cb_count) (Some Examples.cb_throw)
                Examples.tr_type_x MoreExamples.tr_select_x w)
      as (Hstate & _ & _).
    exact Hstate.
  - destruct (dispatch_twice (env := Examples.example_env)
                (Some Examples.cb_count) (Some Examples.cb_throw)
                Examples.tr_type_x Examples.tr_select w)
      as (Hrun & _ & _).
    exact (f_equal fst Hrun).
  - destruct (dispatch_twice (env := Examples.example_env)
                (Some Examples.cb_count) (Some Examples.cb_throw)
                Examples.tr_type_x Examples.tr_select w)
      as (_ & Hstate & _).
    exact Hstate.
  - destruct (dispatch_twice (env := MoreExamples.throwing_env)
                (Some Examples.cb_count) (Some Examples.cb_throw)
                Examples.tr_type_x MoreExamples.tr_select_x w)
      as (_ & Hout & _).
    exact Hout.
Defined.

Lemma callbacks_see_new_state_witness :
  let w := Examples.world0 in
  user (dispatchTransaction (env := Examples.example_env)
          (Some Examples.cb_throw) (Some Examples.cb_count)
          Examples.tr_type_x w).2 = 2
  /\ user (dispatchTransaction (env := Examples.example_env)
             (Some Examples.cb_throw) (Some Examples.cb_count)
             Examples.tr_select w).2 = 1.
Proof.
  intros w. split.
  - destruct (callbacks_see_new_state (env := Examples.example_env)
                (Some Examples.cb_throw) (Some Examples.cb_count)
                Examples.tr_type_x w) as (_ & Hboth & _).
    apply (Hboth Examples.cb_throw Examples.cb_count); reflexivity.
  - destruct (callbacks_see_new_state (env := Examples.example_env)
                (Some Examples.cb_throw) (Some Examples.cb_count)
                Examples.tr_select w) as (Hone & _).
    apply (Hone Examples.cb_throw); [reflexivity | left; reflexivity].
Defined.

End EditorMore.

(** * Properties of [createImageNode] *)

Module ImageNodeProofs.
Import PM ImageUtils ImageNode.

Section WithEnv.
Context {Err File Num : Type}.
Context {env : Env Err File Num}.

Lemma base_attrs_lookup (item : UploadSuccessItem File) :
  Src <> Alt ->
  base_attrs item !! Src = Some (url (result item))
  /\ base_attrs item !! Alt
     = Some (default (file_name (file item)) (result_name (result item)))
  /\ forall k, k <> Src -> k <> Alt -> base_attrs item !! k = None.
Proof.
  intros Hne. unfold base_attrs. split; [| split].
  - rewrite lookup_insert_ne by done. by rewrite lookup_insert_eq.
  - by rewrite lookup_insert_eq.
  - intros k Hs Ha. by rewrite !lookup_insert_ne by done.
Qed.

Lemma ImageSize_entries_lookup (s : ImageSize) (k : string) :
  ImageSize_entries s !! k
  = if decide (k = "height"%string) then Some (size_height s) else None.
Proof.
  unfold ImageSize_entries. destruct (decide (k = "height"%string)) as [-> | Hk].
  - by rewrite lookup_singleton_eq.
  - by rewrite lookup_singleton_ne.
Qed.

Lemma getImageSizeNew_lookup (img : HTMLImageElement) (k : string) :
  getImageSizeNew img !! k
  = let size := getProportionalSize (width img) (height img) IMG_MAX_HEIGHT in
    if decide (k = "height"%string) then Some (String_of_num size.2)
    else if decide (k = "width"%string) then Some (String_of_num size.1)
    else None.
Proof.
  unfold getImageSizeNew. cbn zeta.
  destruct (decide (k = "height"%string)) as [-> | Hh].
  - by rewrite lookup_insert_eq.
  - rewrite lookup_insert_ne by done.
    destruct (decide (k = "width"%string)) as [-> | Hw].
    + by rewrite lookup_singleton_eq.
    + by rewrite lookup_singleton_ne.
Qed.

(** The sizes that are assigned have no other keys than [height] and
    [width]. *)
Lemma sizes_keys (opts : CreateImageNodeOptions) (img : HTMLImageElement)
    (k : string) :
  k <> "height"%string -> k <> "width"%string ->
  (if default false (enableNewImageSizeCalculation opts)
   then getImageSizeNew
   else fun img => ImageSize_entries (getImageSize IMG_MAX_HEIGHT img)) img !! k
  = None.
Proof.
  intros Hh Hw. destruct (default false (enableNewImageSizeCalculation opts)).
  - rewrite getImageSizeNew_lookup. cbn zeta.
    by rewrite !decide_False by done.
  - rewrite ImageSize_entries_lookup. by rewrite decide_False by done.
Qed.

(** X14: the loading of the image never rejects the promise of
    [createImageNode] (with loggers and [imgType.create] that return, it is
    not rejected at all); it stays pending exactly when dimensions are
    asked for and the image fires neither [load] nor [error].  When the
    keys of source and alternative text differ from each other and from
    the size keys, the node that it resolves with is of the given type and
    has the URL of the upload as source and, as alternative text, the name
    of the upload result when it has one (an empty one too) and the name of
    the file otherwise; it has no attributes besides these two, [height]
    and [width]. *)
Theorem createImageNode_src_alt (imgType : NodeType)
    (opts : CreateImageNodeOptions) (item : UploadSuccessItem File) :
  keys_distinct ->
  let r := createImageNode imgType opts item in
  (forall e, r.2 <> Rejected e)
  /\ (r.2 = Pending
      <-> needDimensions opts = true /\ image_load (file item) = None)
  /\ (forall n, r.2 = Resolved n ->
        exists attrs,
          n = Create imgType attrs
          /\ attrs !! Src = Some (url (result item))
          /\ attrs !! Alt
             = Some (match result_name (result item) with
                     | Some alt => alt
                     | None => file_name (file item)
                     end)
          /\ forall k, is_Some (attrs !! k) ->
               k = Src \/ k = Alt \/ k = "height"%string \/ k = "width"%string).
Proof.
  intros (Hsa & Hsh & Hsw & Hah & Haw) r. subst r.
  destruct (base_attrs_lookup item Hsa) as (Hsrc & Halt & Hother).
  assert (Hbase_keys : forall k, is_Some (base_attrs item !! k) ->
            k = Src \/ k = Alt \/ k = "height"%string \/ k = "width"%string).
  { intros k [v Hv]. destruct (decide (k = Src)) as [| Hks]; [by left |].
    destruct (decide (k = Alt)) as [| Hka]; [by right; left |].
    rewrite Hother in Hv by done. done. }
  assert (Halt' : base_attrs item !! Alt
            = Some (match result_name (result item) with
                    | Some alt => alt
                    | None => file_name (file item)
                    end)).
  { rewrite Halt. by destruct (result_name (result item)). }
  unfold createImageNode. fold (base_attrs item).
  destruct (needDimensions opts) eqn:Hneed; cbn [snd].
  - unfold loadImage.
    destruct (image_load (file item)) as [[err | img] |] eqn:Hload;
      cbn [Promise_then snd].
    + split; [done |]. split; [split; [done | by intros [_ ?]] |].
      intros n [= <-]. by exists (base_attrs item).
    + split; [done |]. split; [split; [done | by intros [_ ?]] |].
      intros n [= <-]. eexists. split; [done |].
      unfold Object_assign. split; [| split].
      * rewrite lookup_union_r by (by apply sizes_keys). done.
      * rewrite lookup_union_r by (by apply sizes_keys). done.
      * intros k [v Hv].
        destruct (decide (k = "height"%string)) as [| Hkh];
          [by right; right; left |].
        destruct (decide (k = "width"%string)) as [| Hkw];
          [by right; right; right |].
        rewrite lookup_union_r in Hv by (by apply sizes_keys).
        apply Hbase_keys. by exists v.
    + split; [done |]. split; [by split |]. done.
  - split; [done |]. split; [split; [done | by intros [? _]] |].
    intros n [= <-]. by exists (base_attrs item).
Qed.

(** X15: when dimensions are not asked for, [createImageNode] does not
    touch the file: no object URL is made and nothing is logged.  When
    they are asked for and the image fails to load, the error goes to the
    global logger and then to the given logger, the object URL that was
    made is not revoked, and the promise still resolves, with the very node
    that is made when no dimensions are asked for. *)
Theorem createImageNode_without_sizes (imgType : NodeType)
    (opts : CreateImageNodeOptions) (item : UploadSuccessItem File) :
  let r := createImageNode imgType opts item in
  (needDimensions opts = false ->
     r = ([], Resolved (Create imgType (base_attrs item))))
  /\ (forall err,
        needDimensions opts = true ->
        image_load (file item) = Some (inl err) ->
        r = ([EvCreateObjectURL (file item);
              EvGlobalLoggerError err; EvLoggerError err],
             Resolved (Create imgType (base_attrs item)))
        /\ r.2 = (createImageNode imgType
                    {| needDimensions := false;
                       enableNewImageSizeCalculation :=
                         enableNewImageSizeCalculation opts |} item).2).
Proof.
  intros r. subst r. unfold createImageNode. fold (base_attrs item). split.
  - by intros ->.
  - intros err -> Hload. unfold loadImage. rewrite Hload. done.
Qed.

(** X16: when dimensions are asked for and the image loads, the object URL
    is made and revoked, nothing is logged, and the node gets the sizes on
    top of source and alternative text.  With the old calculation (the
    option not given, or false) the height is the decimal rendering of the
    minimum of [IMG_MAX_HEIGHT] and the height of the image, and no width
    is set; with the new one, width and height are those that
    [getProportionalSize] returns for the width and height of the image
    and [IMG_MAX_HEIGHT]. *)
Theorem createImageNode_sizes (imgType : NodeType)
    (opts : CreateImageNodeOptions) (item : UploadSuccessItem File)
    (img : HTMLImageElement) :
  keys_distinct ->
  needDimensions opts = true ->
  image_load (file item) = Some (inr img) ->
  exists attrs,
    createImageNode imgType opts item
    = ([EvCreateObjectURL (file item); EvRevokeObjectURL (file item)],
       Resolved (Create imgType attrs))
    /\ (enableNewImageSizeCalculation opts <> Some true ->
          attrs !! "height"%string
            = Some (String_of_nat (Nat.min IMG_MAX_HEIGHT (height img)))
          /\ attrs !! "width"%string = None)
    /\ (enableNewImageSizeCalculation opts = Some true ->
          attrs !! "width"%string
            = Some (String_of_num
                      (getProportionalSize (width img) (height img)
                         IMG_MAX_HEIGHT).1)
          /\ attrs !! "height"%string
             = Some (String_of_num
                       (getProportionalSize (width img) (height img)
                          IMG_MAX_HEIGHT).2)).
Proof.
  intros (Hsa & Hsh & Hsw & Hah & Haw) Hneed Hload.
  destruct (base_attrs_lookup item Hsa) as (_ & _ & Hother).
  unfold createImageNode. fold (base_attrs item).
  rewrite Hneed. unfold loadImage. rewrite Hload. cbn [Promise_then].
  eexists. split; [done |]. unfold Object_assign. split.
  - intros Hold.
    assert (default false (enableNewImageSizeCalculation opts) = false) as ->.
    { by destruct (enableNewImageSizeCalculation opts) as [[|]|]. }
    split.
    + rewrite lookup_union_l'.
      * by rewrite ImageSize_entries_lookup.
      * rewrite ImageSize_entries_lookup. by eexists.
    + rewrite lookup_union_r.
      * apply Hother; done.
      * by rewrite ImageSize_entries_lookup.
  - intros ->. cbn [default]. split.
    + rewrite lookup_union_l'.
      * by rewrite getImageSizeNew_lookup.
      * rewrite getImageSizeNew_lookup. by eexists.
    + rewrite lookup_union_l'.
      * by rewrite getImageSizeNew_lookup.
      * rewrite getImageSizeNew_lookup. by eexists.
Qed.

End WithEnv.

Abbreviation ex_env := MoreExamples.image_env.

Lemma ex_keys_distinct : keys_distinct (env := ex_env).
Proof. repeat split; discriminate. Defined.

Lemma createImageNode_src_alt_witness :
  exists attrs,
    (createImageNode (env := ex_env) MoreExamples.imageType
       (MoreExamples.withSizes None)
       (MoreExamples.upload (Some ""%string)
          (Some (inr MoreExamples.tallImage)))).2
    = Resolved (Create MoreExamples.imageType attrs)
    /\ attrs !! "src"%string = Some "/files/cat.png"%string
    /\ attrs !! "alt"%string = Some ""%string.
Proof.
  destruct (createImageNode_src_alt (env := ex_env) MoreExamples.imageType
              (MoreExamples.withSizes None)
              (MoreExamples.upload (Some ""%string)
                 (Some (inr MoreExamples.tallImage)))
              ex_keys_distinct) as (_ & _ & Hres).
  destruct (Hres _ eq_refl) as (attrs & Hn & Hsrc & Halt & _).
  exists attrs. split; [rewrite <- Hn; reflexivity | by split].
Defined.

Lemma createImageNode_without_sizes_witness :
  createImageNode (env := ex_env) MoreExamples.imageType
    (MoreExamples.withSizes (Some true))
    (MoreExamples.upload None (Some (inl "broken"%string)))
  = ([EvCreateObjectURL {| MoreExamples.ex_name := "cat.png";
                           MoreExamples.ex_image := Some (inl "broken"%string) |};
      EvGlobalLoggerError "broken"%string; EvLoggerError "broken"%string],
     Resolved (Create MoreExamples.imageType
                 (<[ "alt"%string := "cat.png"%string ]>
                    (<[ "src"%string := "/files/cat.png"%string ]> ∅))))
  /\ createImageNode (env := ex_env) MoreExamples.imageType
       MoreExamples.withoutSizes
       (MoreExamples.upload None (Some (inr MoreExamples.tallImage)))
     = ([], Resolved (Create MoreExamples.imageType
                        (<[ "alt"%string := "cat.png"%string ]>
                           (<[ "src"%string := "/files/cat.png"%string ]> ∅)))).
Proof.
  split.
  - destruct (createImageNode_without_sizes (env := ex_env) MoreExamples.imageType
                (MoreExamples.withSizes (Some true))
                (MoreExamples.upload None (Some (inl "broken"%string))))
      as [_ Hfail].
    destruct (Hfail "broken"%string) as [Hrun _]; [reflexivity | reflexivity |].
    exact Hrun.
  - destruct (createImageNode_without_sizes (env := ex_env) MoreExamples.imageType
                MoreExamples.withoutSizes
                (MoreExamples.upload None (Some (inr MoreExamples.tallImage))))
      as [Hnone _].
    apply Hnone. reflexivity.
Defined.

Lemma createImageNode_sizes_witness :
  (exists attrs,
     (createImageNode (env := ex_env) MoreExamples.imageType
        (MoreExamples.withSizes None)
        (MoreExamples.upload None (Some (inr MoreExamples.tallImage)))).2
     = Resolved (Create MoreExamples.imageType attrs)
     /\ attrs !! "height"%string = Some "600"%string
     /\ attrs !! "width"%string = None)
  /\ (exists attrs,
        (createImageNode (env := ex_env) MoreExamples.imageType
           (MoreExamples.withSizes (Some true))
           (MoreExamples.upload None (Some (inr MoreExamples.tallImage)))).2
        = Resolved (Create MoreExamples.imageType attrs)
        /\ attrs !! "height"%string = Some "600"%string
        /\ attrs !! "width"%string = Some "400"%string).
Proof.
  split.
  - destruct (createImageNode_sizes (env := ex_env) MoreExamples.imageType
                (MoreExamples.withSizes None)
                (MoreExamples.upload None (Some (inr MoreExamples.tallImage)))
                MoreExamples.tallImage ex_keys_distinct eq_refl eq_refl)
      as (attrs & Hrun & Hold & _).
    destruct Hold as [Hh Hw]; [discriminate |].
    exists attrs. split; [by rewrite Hrun | by split].
  - destruct (createImageNode_sizes (env := ex_env) MoreExamples.imageType
                (MoreExamples.withSizes (Some true))
                (MoreExamples.upload None (Some (inr MoreExamples.tallImage)))
                MoreExamples.tallImage ex_keys_distinct eq_refl eq_refl)
      as (attrs & Hrun & _ & Hnew).
    destruct Hnew as [Hw Hh]; [reflexivity |].
    exists attrs. split; [by rewrite Hrun | by split].
Defined.

End ImageNodeProofs.
